(** * The notebook execution queue (NotebookQueue.cpp)

    A shallow embedding of [session/modules/rmarkdown/NotebookQueue.cpp]:
    the global queue of document queues, the step that advances it
    ([process]), unit selection ([executeNextUnit]), submission
    ([executeCurrentUnit]), mutation ([update]) and the three entry points
    of the translation unit ([updateExecQueue], [executeNotebookChunks],
    [onConsolePrompt]).

    Pointers.  Execution units are held by [boost::shared_ptr] and are
    shared between a document queue and the [execUnit_] slot, and they are
    mutated through either owner.  They therefore live in a store ([heap],
    a list indexed by address); a document queue is a list of addresses and
    [execUnit_] is an optional address.  Document queues are only ever
    reached through the list [queue_], so they are kept by value.

    Faults.  Dereferencing a null [shared_ptr] ([execUnit_],
    [execContext_]) or an address outside the store has no defined result;
    the embedding returns [None] there.

    Threads.  [consoleThreadMain] runs on a thread of its own and only
    drains [input_]; the queue's state is touched from the one thread that
    delivers prompts and requests.  The embedding keeps what is put on
    [input_] and leaves the draining out. *)

From Stdlib Require Import ZArith.
From stdpp Require Import base option list strings.

(** ** Data *)

(** [core::Error]: convertible to [true] exactly when it is a failure. *)
Inductive Error :=
| Success
| Failure (what : string).

Definition isError (e : Error) : bool :=
  match e with Success => false | Failure _ => true end.

(** JSON values ([json::Value]); [json::Object] and [json::Array] are the
    payloads of [JObj] and [JArr]. *)
#[local] Unset Elimination Schemes.
Inductive Json :=
| JNull
| JBool (b : bool)
| JInt (z : Z)
| JStr (s : string)
| JArr (items : list Json)
| JObj (fields : list (string * Json)).
#[local] Set Elimination Schemes.

Definition JsonObject := list (string * Json).
Definition JsonArray := list Json.

(** Modelled from the spec: the class [ExecRange] (NotebookQueueUnit.hpp is
    not part of the sources).  "A contiguous span (start offset, length) of
    unexecuted source within a chunk."  [ExecRange(0, 0)] is the zero-length
    range. *)
Record ExecRange := mkExecRange {
  rangeStart : nat;
  rangeLength : nat
}.

(** Modelled from the spec: the class [NotebookQueueUnit]
    (NotebookQueueUnit.hpp/.cpp are not part of the sources).  "One chunk's
    remaining source ranges plus its execution options", with identity
    (documentId, chunkId); the mutation request carries "docId, chunkId,
    ranges, raw option text".  [code] is the chunk source the ranges index
    into; [evaluated] records that the console has signalled
    evaluation-finished for the range submitted last. *)
Record NotebookQueueUnit := mkUnit {
  docId : string;
  chunkId : string;
  code : string;
  options : string;
  pending : list ExecRange;
  evaluated : bool
}.

(** Modelled from the spec: the enumeration [QueueOperation]
    (NotebookDocQueue.hpp is not part of the sources): "operation in
    {insert-before, delete, update-in-place}".  The source names
    [QueueDelete]. *)
Inductive QueueOperation :=
| QueueAdd
| QueueUpdate
| QueueDelete.

(** A unit pointer is an address of the store. *)
Abbreviation addr := nat (only parsing).

(** Modelled from the spec: the class [NotebookDocQueue]
    (NotebookDocQueue.hpp/.cpp are not part of the sources): "documentId,
    rendering parameters (pixel width, character width), ordered sequence of
    ExecutionUnit".  The units are shared pointers, here addresses. *)
Record NotebookDocQueue := mkDocQueue {
  docQueueId : string;
  pixelWidth : Z;
  charWidth : Z;
  units : list addr
}.

Inductive ExecScope :=
| ExecScopeChunk.

(** [ChunkExecContext] (NotebookExec.hpp is not part of the sources): the
    constructor arguments of line 137, and whether it is connected to the
    console's events. *)
Record ChunkExecContext := mkContext {
  ctxDocId : string;
  ctxChunkId : string;
  ctxNotebookCtxId : string;
  ctxScope : ExecScope;
  ctxOptions : JsonObject;
  ctxPixelWidth : Z;
  ctxCharWidth : Z;
  connected : bool
}.

Inductive ChunkExecState :=
| ChunkExecStarted
| ChunkExecFinished.

(** The client events of this file: [kChunkExecStateChanged] with fields
    doc_id, chunk_id, exec_state and [kNotebookRangeExecuted] with fields
    doc_id, chunk_id, exec_range. *)
Inductive ClientEvent :=
| ChunkExecStateChanged (doc_id chunk_id : string) (exec_state : ChunkExecState)
| NotebookRangeExecuted (doc_id chunk_id : string) (exec_range : ExecRange).

(** The request body built by [executeCurrentUnit]: method, params (the
    code of the range and the chunk id) and clientId.  The body is kept as a
    record; its serialisation ([json::write]) is not modelled. *)
Record ConsoleInput := mkConsoleInput {
  rpcMethod : string;
  rpcParams : string * string;
  rpcClientId : string
}.

(** The members of [class NotebookQueue].  [input_] is the intake of the
    console thread; the thread itself only drains it. *)
Record NotebookQueue := mkQueue {
  clientId_ : string;
  queue_ : list NotebookDocQueue;
  execUnit_ : option addr;
  execContext_ : option ChunkExecContext;
  input_ : list ConsoleInput
}.

(** What the queue touches outside itself: the store of units, R's context
    stack ([rBusy] is [r::getGlobalContext()->nextcontext != NULL]) and the
    client event queue of [module_context::enqueClientEvent]. *)
Record Session := mkSession {
  heap : list NotebookQueueUnit;
  rBusy : bool;
  clientEvents : list ClientEvent
}.

(** A method of [NotebookQueue] runs on the object and the session. *)
Record State := mkState {
  this : NotebookQueue;
  session : Session
}.

(** The translation unit's state: the static [s_queue] and the session. *)
Record World := mkWorld {
  s_queue : option NotebookQueue;
  world : Session
}.

(** [json::JsonRpcRequest], the fields read here. *)
Record JsonRpcRequest := mkRequest {
  params : JsonArray;
  clientId : string
}.

(** What [NotebookDocQueue::fromJson] reads: the document queue with its
    units by value, before they are placed in the store. *)
Record DocData := mkDocData {
  dataDocId : string;
  dataPixelWidth : Z;
  dataCharWidth : Z;
  dataUnits : list NotebookQueueUnit
}.

(** The functions this file calls and whose definitions are elsewhere:
    option parsing, the notebook context id, and the JSON readers.
    [readDocParams] returns the error together with what it leaves in
    [docObj], since [executeNotebookChunks] overwrites that error unread. *)
Class Collaborators := {
  parseOptions : NotebookQueueUnit -> string + JsonObject;
  notebookCtxId : string;
  readUpdateParams : JsonArray -> string + (JsonObject * Z * string);
  unitFromJson : JsonObject -> string + NotebookQueueUnit;
  readDocParams : JsonArray -> Error * JsonObject;
  docFromJson : JsonObject -> string + DocData;
  queueOperationOfInt : Z -> option QueueOperation
}.

(** ** The monad of methods: state, with faults *)

Definition M (A : Type) : Type := State -> option (A * State).

#[global] Instance M_ret : MRet M := fun A a s => Some (a, s).
#[global] Instance M_bind : MBind M := fun A B f m s =>
  match m s with
  | Some (a, s') => f a s'
  | None => None
  end.

Definition fault {A} : M A := fun _ => None.
Definition gets {A} (f : State -> A) : M A := fun s => Some (f s, s).
Definition modify (f : State -> State) : M unit := fun s => Some (tt, f s).

Definition withQueue (f : NotebookQueue -> NotebookQueue) (s : State) : State :=
  mkState (f (this s)) (session s).
Definition withSession (f : Session -> Session) (s : State) : State :=
  mkState (this s) (f (session s)).

Definition setQueue_ (l : list NotebookDocQueue) (q : NotebookQueue) :=
  mkQueue (clientId_ q) l (execUnit_ q) (execContext_ q) (input_ q).
Definition setExecUnit_ (u : option addr) (q : NotebookQueue) :=
  mkQueue (clientId_ q) (queue_ q) u (execContext_ q) (input_ q).
Definition setExecContext_ (c : option ChunkExecContext) (q : NotebookQueue) :=
  mkQueue (clientId_ q) (queue_ q) (execUnit_ q) c (input_ q).
Definition enque (x : ConsoleInput) (q : NotebookQueue) :=
  mkQueue (clientId_ q) (queue_ q) (execUnit_ q) (execContext_ q) (input_ q ++ [x]).

Definition setHeap (h : list NotebookQueueUnit) (e : Session) :=
  mkSession h (rBusy e) (clientEvents e).
Definition setBusy (b : bool) (e : Session) :=
  mkSession (heap e) b (clientEvents e).
Definition pushEvent (ev : ClientEvent) (e : Session) :=
  mkSession (heap e) (rBusy e) (clientEvents e ++ [ev]).

(** [module_context::enqueClientEvent] *)
Definition enqueClientEvent (ev : ClientEvent) : M unit :=
  modify (withSession (pushEvent ev)).

(** [p->...] for a unit pointer [p]: a fault when [p] is null or dangling. *)
Definition deref (p : option addr) : M (addr * NotebookQueueUnit) :=
  fun s =>
    match p with
    | Some a =>
        match heap (session s) !! a with
        | Some u => Some ((a, u), s)
        | None => None
        end
    | None => None
    end.

Definition store (a : addr) (u : NotebookQueueUnit) : M unit :=
  modify (withSession (fun e => setHeap (<[a := u]> (heap e)) e)).

(** ** The absent classes, from the spec *)

(** Modelled from the spec: [NotebookQueueUnit::complete]
    (NotebookQueueUnit.cpp is not part of the sources).  A unit is "complete
    when its range sequence is exhausted AND the console signals the
    corresponding output has been fully produced". *)
Definition unitComplete (u : NotebookQueueUnit) : bool :=
  match pending u with
  | [] => evaluated u
  | _ :: _ => false
  end.

(** Modelled from the spec: [NotebookQueueUnit::popExecRange]
    (NotebookQueueUnit.cpp is not part of the sources).  "Pop the next
    ExecutionRange from the current unit (or a zero-length sentinel range if
    the unit has no remaining source)"; the command is "the source text of
    that range".  [range] is the caller's [ExecRange], left as it is when
    nothing is pending.  A submission is outstanding afterwards. *)
Definition popExecRange (u : NotebookQueueUnit) (range : ExecRange)
  : string * ExecRange * NotebookQueueUnit :=
  match pending u with
  | [] =>
      ("", range,
       mkUnit (docId u) (chunkId u) (code u) (options u) [] false)
  | r :: rest =>
      (String.substring (rangeStart r) (rangeLength r) (code u), r,
       mkUnit (docId u) (chunkId u) (code u) (options u) rest false)
  end.

(** Modelled from the spec: the copy made by update-in-place
    (NotebookQueueUnit.cpp is not part of the sources): the queued unit
    takes the supplied unit's source, option text and ranges and keeps its
    identity and what the console has signalled. *)
Definition updateFrom (u p : NotebookQueueUnit) : NotebookQueueUnit :=
  mkUnit (docId u) (chunkId u) (code p) (options p) (pending p) (evaluated u).

(** Unit identity, "(documentId, chunkId)". *)
Definition ident (u : NotebookQueueUnit) : string * string :=
  (docId u, chunkId u).

Definition sameIdent (h : list NotebookQueueUnit) (p : NotebookQueueUnit)
    (a : addr) : bool :=
  match h !! a with
  | Some u => String.eqb (docId u) (docId p) && String.eqb (chunkId u) (chunkId p)
  | None => false
  end.

Definition chunkIdEquals (h : list NotebookQueueUnit) (id : string)
    (a : addr) : bool :=
  match h !! a with
  | Some u => String.eqb (chunkId u) id
  | None => false
  end.

(** Insert [new] before the first unit whose chunk id is [before], at the
    end when there is none. *)
Fixpoint insertBefore (h : list NotebookQueueUnit) (before : string)
    (new : addr) (l : list addr) : list addr :=
  match l with
  | [] => [new]
  | a :: rest =>
      if chunkIdEquals h before a then new :: a :: rest
      else a :: insertBefore h before new rest
  end.

Definition findUnit (h : list NotebookQueueUnit) (p : NotebookQueueUnit)
    (l : list addr) : option addr :=
  List.find (sameIdent h p) l.

Definition setUnits (l : list addr) (d : NotebookDocQueue) : NotebookDocQueue :=
  mkDocQueue (docQueueId d) (pixelWidth d) (charWidth d) l.

(** Modelled from the spec: [NotebookDocQueue::update]
    (NotebookDocQueue.cpp is not part of the sources).  The document queue
    "supports insert/remove/reorder by unit identity"; the operations are
    insert-before an anchor chunk id, delete and update-in-place.  The
    inserted unit is the caller's object, which enters the store here. *)
Definition docUpdate (d : NotebookDocQueue) (pUnit : NotebookQueueUnit)
    (op : QueueOperation) (before : string) (h : list NotebookQueueUnit)
  : NotebookDocQueue * list NotebookQueueUnit :=
  match op with
  | QueueAdd =>
      (setUnits (insertBefore h before (length h) (units d)) d, h ++ [pUnit])
  | QueueUpdate =>
      match findUnit h pUnit (units d) with
      | Some a =>
          match h !! a with
          | Some u => (d, <[a := updateFrom u pUnit]> h)
          | None => (d, h)
          end
      | None => (d, h)
      end
  | QueueDelete =>
      (setUnits (List.filter (fun a => negb (sameIdent h pUnit a)) (units d)) d, h)
  end.

(** Modelled from the spec: [NotebookDocQueue::complete]
    (NotebookDocQueue.cpp is not part of the sources): a document queue is
    "complete when its unit sequence is empty". *)
Definition docComplete (d : NotebookDocQueue) : bool :=
  match units d with
  | [] => true
  | _ :: _ => false
  end.

(** Modelled from the spec: [NotebookDocQueue::firstUnit]
    (NotebookDocQueue.cpp is not part of the sources): the first unit of the
    sequence; null when there is none. *)
Definition firstUnit (d : NotebookDocQueue) : option addr :=
  head (units d).

(** [ChunkExecContext::connect] and [disconnect]. *)
Definition connect (c : ChunkExecContext) : ChunkExecContext :=
  mkContext (ctxDocId c) (ctxChunkId c) (ctxNotebookCtxId c) (ctxScope c)
    (ctxOptions c) (ctxPixelWidth c) (ctxCharWidth c) true.
Definition disconnect (c : ChunkExecContext) : ChunkExecContext :=
  mkContext (ctxDocId c) (ctxChunkId c) (ctxNotebookCtxId c) (ctxScope c)
    (ctxOptions c) (ctxPixelWidth c) (ctxCharWidth c) false.

(** ** class NotebookQueue *)

Section Queue.
Context `{Collaborators}.

(** [NotebookQueue::NotebookQueue]: the members after construction. *)
Definition newNotebookQueue (clientId : string) : NotebookQueue :=
  mkQueue clientId [] None None [].

(** [NotebookQueue::complete] *)
Definition complete (q : NotebookQueue) : bool :=
  match queue_ q with
  | [] => true
  | _ :: _ => false
  end.

(** [NotebookQueue::enqueueExecStateChanged] *)
Definition enqueueExecStateChanged (state : ChunkExecState) : M unit :=
  q ← gets this;
  '(_, u) ← deref (execUnit_ q);
  enqueClientEvent (ChunkExecStateChanged (docId u) (chunkId u) state).

(** [NotebookQueue::executeCurrentUnit] *)
Definition executeCurrentUnit : M Error :=
  q ← gets this;
  '(a, u) ← deref (execUnit_ q);
  let '(input, range, u') := popExecRange u (mkExecRange 0 0) in
  store a u';;
  modify (withQueue
    (enque (mkConsoleInput "console_input" (input, chunkId u') (clientId_ q))));;
  enqueClientEvent (NotebookRangeExecuted (docId u') (chunkId u') range);;
  mret Success.

(** [NotebookQueue::executeNextUnit] *)
Definition executeNextUnit : M Error :=
  q ← gets this;
  match queue_ q with
  | [] => mret Success
  | docQueue :: _ =>
      if docComplete docQueue then mret Success
      else
        '(a, unit) ← deref (firstUnit docQueue);
        match parseOptions unit with
        | inl e => mret (Failure e)
        | inr opts =>
            modify (withQueue (setExecContext_ (Some (connect
              (mkContext (docId unit) (chunkId unit) notebookCtxId
                 ExecScopeChunk opts (pixelWidth docQueue)
                 (charWidth docQueue) false)))));;
            modify (withQueue (setExecUnit_ (Some a)));;
            enqueueExecStateChanged ChunkExecStarted;;
            executeCurrentUnit;;
            mret Success
        end
  end.

(** The body of [if (queue_.size() > 0)] in [process]: the finished unit
    leaves the first document queue, which is popped when that completes
    it. *)
Definition retireFromFirst (u : NotebookQueueUnit) : M unit :=
  q ← gets this;
  match queue_ q with
  | [] => mret tt
  | docQueue :: rest =>
      h ← gets (fun s => heap (session s));
      let '(docQueue', h') := docUpdate docQueue u QueueDelete "" h in
      modify (withSession (setHeap h'));;
      if docComplete docQueue'
      then modify (withQueue (setQueue_ rest))
      else modify (withQueue (setQueue_ (docQueue' :: rest)))
  end.

(** [execContext_->disconnect()] *)
Definition disconnectContext : M unit :=
  q ← gets this;
  match execContext_ q with
  | Some c => modify (withQueue (setExecContext_ (Some (disconnect c))))
  | None => fault
  end.

(** [NotebookQueue::process] *)
Definition process : M Error :=
  q ← gets this;
  match queue_ q with
  | [] => mret Success
  | _ :: _ =>
      busy ← gets (fun s => rBusy (session s));
      if (busy : bool) then mret Success
      else
        match execUnit_ q with
        | Some _ =>
            '(_, u) ← deref (execUnit_ q);
            if unitComplete u then
              retireFromFirst u;;
              enqueueExecStateChanged ChunkExecFinished;;
              disconnectContext;;
              modify (withQueue (setExecUnit_ None));;
              executeNextUnit
            else executeCurrentUnit
        | None => executeNextUnit
        end
  end.

Fixpoint updateQueues (pUnit : NotebookQueueUnit) (op : QueueOperation)
    (before : string) (l : list NotebookDocQueue) (h : list NotebookQueueUnit)
  : list NotebookDocQueue * list NotebookQueueUnit :=
  match l with
  | [] => ([], h)
  | queue :: rest =>
      if String.eqb (docQueueId queue) (docId pUnit) then
        let '(queue', h') := docUpdate queue pUnit op before h in
        (queue' :: rest, h')
      else
        let '(rest', h') := updateQueues pUnit op before rest h in
        (queue :: rest', h')
  end.

(** [NotebookQueue::update]: the loop edits the first document queue whose
    id is the unit's and stops. *)
Definition update (pUnit : NotebookQueueUnit) (op : QueueOperation)
    (before : string) : M Error :=
  q ← gets this;
  h ← gets (fun s => heap (session s));
  let '(l, h') := updateQueues pUnit op before (queue_ q) h in
  modify (withQueue (setQueue_ l));;
  modify (withSession (setHeap h'));;
  mret Success.

(** [NotebookQueue::add] *)
Definition add (pQueue : NotebookDocQueue) : M unit :=
  modify (withQueue (fun q => setQueue_ (queue_ q ++ [pQueue]) q)).

(** [NotebookQueue::onConsolePrompt] *)
Definition queueOnConsolePrompt (prompt : string) : M unit :=
  process;; mret tt.

(** ** The entry points *)

(** The units of a document queue read by [NotebookDocQueue::fromJson]
    enter the store in order. *)
Definition allocDoc (d : DocData) (h : list NotebookQueueUnit)
  : NotebookDocQueue * list NotebookQueueUnit :=
  (mkDocQueue (dataDocId d) (dataPixelWidth d) (dataCharWidth d)
     (seq (length h) (length (dataUnits d))),
   h ++ dataUnits d).

Definition enter (q : NotebookQueue) (w : World) : State :=
  mkState q (world w).
Definition leave (s : State) : World :=
  mkWorld (Some (this s)) (session s).

(** [updateExecQueue].  The unit made from the request is the caller's
    alone unless an insert places it in a document queue.  A value of [op]
    that is no enumerator selects no edit. *)
Definition updateExecQueue (request : JsonRpcRequest) (w : World)
  : option (Error * World) :=
  match readUpdateParams (params request) with
  | inl e => Some (Failure e, w)
  | inr (unitJson, op, before) =>
      match unitFromJson unitJson with
      | inl e => Some (Failure e, w)
      | inr pUnit =>
          match s_queue w with
          | None => Some (Success, w)
          | Some q =>
              match queueOperationOfInt op with
              | Some o =>
                  '(e, s) ← update pUnit o before (enter q w);
                  Some (e, leave s)
              | None => Some (Success, w)
              end
          end
      end
  end.

(** [executeNotebookChunks] *)
Definition executeNotebookChunks (request : JsonRpcRequest) (w : World)
  : option (Error * World) :=
  let '(_, docObj) := readDocParams (params request) in
  match docFromJson docObj with
  | inl e => Some (Failure e, w)
  | inr d =>
      let q := match s_queue w with
               | Some q => q
               | None => newNotebookQueue (clientId request)
               end in
      let '(pQueue, h) := allocDoc d (heap (world w)) in
      '(_, s) ← (add pQueue;; process) (mkState q (setHeap h (world w)));
      Some (Success, leave s)
  end.

(** [onConsolePrompt] *)
Definition onConsolePrompt (prompt : string) (w : World) : option World :=
  match s_queue w with
  | Some q =>
      '(_, s) ← queueOnConsolePrompt prompt (enter q w);
      if complete (this s) then Some (mkWorld None (session s))
      else Some (leave s)
  | None => Some w
  end.

(** ** The console *)

(** Modelled from the spec: the console's evaluation-finished signal as the
    execution context receives it (NotebookExec.cpp is not part of the
    sources): a connected context records it on the unit it was made for. *)
Definition consoleEvalFinished : M unit :=
  q ← gets this;
  match execContext_ q, execUnit_ q with
  | Some c, Some a =>
      if connected c then
        '(_, u) ← deref (Some a);
        store a (mkUnit (docId u) (chunkId u) (code u) (options u)
                   (pending u) true)
      else mret tt
  | _, _ => mret tt
  end.

(** R enters or leaves an evaluation. *)
Definition consoleBusy (b : bool) : M unit :=
  modify (withSession (setBusy b)).

End Queue.

(** ** Runs of the queue

    The queue is driven by calls on one thread: a document queue is added,
    the console prompt fires [process], a mutation request reaches [update],
    and between calls the console starts or ends an evaluation. *)

Inductive Call :=
| CallAdd (d : DocData)
| CallProcess
| CallUpdate (pUnit : NotebookQueueUnit) (op : QueueOperation) (before : string)
| ConsoleBusy (b : bool)
| ConsoleEvalFinished.

Definition isMutation (c : Call) : bool :=
  match c with
  | CallUpdate _ _ _ => true
  | _ => false
  end.

Definition isAdd (c : Call) : bool :=
  match c with
  | CallAdd _ => true
  | _ => false
  end.

(** The prompt and the console's signals: neither an addition nor a
    mutation. *)
Definition quiet (c : Call) : bool :=
  negb (isMutation c) && negb (isAdd c).

Section Runs.
Context `{Collaborators}.

(** A document queue read from a request is added: its units enter the
    store, then [add]. *)
Definition addDocument (d : DocData) : M unit :=
  h ← gets (fun s => heap (session s));
  let '(pQueue, h') := allocDoc d h in
  modify (withSession (setHeap h'));;
  add pQueue.

Definition call (c : Call) : M unit :=
  match c with
  | CallAdd d => addDocument d
  | CallProcess => queueOnConsolePrompt ""
  | CallUpdate pUnit op before => update pUnit op before;; mret tt
  | ConsoleBusy b => consoleBusy b
  | ConsoleEvalFinished => consoleEvalFinished
  end.

Fixpoint run (cs : list Call) : M unit :=
  match cs with
  | [] => mret tt
  | c :: cs => call c;; run cs
  end.

(** [process] called [n] times in a row, with the errors it returned. *)
Fixpoint repeatProcess (n : nat) : M (list Error) :=
  match n with
  | O => mret []
  | S n => e ← process; es ← repeatProcess n; mret (e :: es)
  end.

End Runs.

(** A queue just constructed, in a session with no units and no events. *)
Definition initial (clientId : string) (busy : bool) : State :=
  mkState (mkQueue clientId [] None None []) (mkSession [] busy []).

(** ** Reading the client events *)

(** The events a step added to the client event queue. *)
Definition emitted (s s' : State) : list ClientEvent :=
  drop (length (clientEvents (session s))) (clientEvents (session s')).

Definition identEqb (x y : string * string) : bool :=
  String.eqb x.1 y.1 && String.eqb x.2 y.2.

(** The chunks announced as started, in the order of the announcements. *)
Definition startedChunks (evs : list ClientEvent) : list (string * string) :=
  omap (fun ev =>
          match ev with
          | ChunkExecStateChanged d c ChunkExecStarted => Some (d, c)
          | _ => None
          end) evs.

(** The chunks announced as started and not yet as finished. *)
Definition trackExec (l : list (string * string)) (ev : ClientEvent)
  : list (string * string) :=
  match ev with
  | ChunkExecStateChanged d c ChunkExecStarted => l ++ [(d, c)]
  | ChunkExecStateChanged d c ChunkExecFinished =>
      List.filter (fun x => negb (identEqb x (d, c))) l
  | NotebookRangeExecuted _ _ _ => l
  end.

Definition inFlight (evs : list ClientEvent) : list (string * string) :=
  fold_left trackExec evs [].

(** The units in the currently-executing slot, by identity. *)
Definition executing (s : State) : list (string * string) :=
  match execUnit_ (this s) with
  | Some a =>
      match heap (session s) !! a with
      | Some u => [ident u]
      | None => []
      end
  | None => []
  end.

Definition isFinished (d c : string) : ClientEvent :=
  ChunkExecStateChanged d c ChunkExecFinished.
Definition isStarted (d c : string) : ClientEvent :=
  ChunkExecStateChanged d c ChunkExecStarted.

(** The identities of the units of the documents added by a run, in the
    order of addition and, within a document, of supply. *)
Definition suppliedBy (cs : list Call) : list (string * string) :=
  flat_map (fun c =>
              match c with
              | CallAdd d => map ident (dataUnits d)
              | _ => []
              end) cs.

(** ** The states the methods lead to *)

(** After [executeCurrentUnit] on the unit [u] at [a]. *)
Definition submitted (a : addr) (u : NotebookQueueUnit) (s : State) : State :=
  let r := popExecRange u (mkExecRange 0 0) in
  mkState
    (enque (mkConsoleInput "console_input" (r.1.1, chunkId r.2)
              (clientId_ (this s))) (this s))
    (pushEvent (NotebookRangeExecuted (docId r.2) (chunkId r.2) r.1.2)
       (setHeap (<[a := r.2]> (heap (session s))) (session s))).

(** After [executeNextUnit] has made the context for the unit [unit] at
    [a] of the document queue [docQueue], with options [opts] and context
    id [ctx], and has announced it as started. *)
Definition chosen (ctx : string) (docQueue : NotebookDocQueue) (a : addr)
    (unit : NotebookQueueUnit) (opts : JsonObject) (s : State) : State :=
  mkState
    (setExecUnit_ (Some a)
       (setExecContext_
          (Some (mkContext (docId unit) (chunkId unit) ctx ExecScopeChunk
                   opts (pixelWidth docQueue) (charWidth docQueue) true))
          (this s)))
    (pushEvent (isStarted (docId unit) (chunkId unit)) (session s)).

(** After [executeNextUnit] has selected that unit and submitted its first
    range. *)
Definition selected (ctx : string) (docQueue : NotebookDocQueue) (a : addr)
    (unit : NotebookQueueUnit) (opts : JsonObject) (s : State) : State :=
  submitted a unit (chosen ctx docQueue a unit opts s).

(** The first document queue after the finished unit [u] has left it. *)
Definition withoutUnit (h : list NotebookQueueUnit) (u : NotebookQueueUnit)
    (l : list NotebookDocQueue) : list NotebookDocQueue :=
  match l with
  | [] => []
  | docQueue :: rest =>
      let d := (docUpdate docQueue u QueueDelete "" h).1 in
      if docComplete d then rest else d :: rest
  end.

(** After [process] has retired the complete unit [u], before it selects
    the next one. *)
Definition retired (u : NotebookQueueUnit) (c : ChunkExecContext) (s : State)
  : State :=
  mkState
    (mkQueue (clientId_ (this s))
       (withoutUnit (heap (session s)) u (queue_ (this s)))
       None (Some (disconnect c)) (input_ (this s)))
    (pushEvent (isFinished (docId u) (chunkId u)) (session s)).

(** After [update]. *)
Definition updated (pUnit : NotebookQueueUnit) (op : QueueOperation)
    (before : string) (s : State) : State :=
  let r := updateQueues pUnit op before (queue_ (this s)) (heap (session s)) in
  mkState (setQueue_ r.1 (this s)) (setHeap r.2 (session s)).

(** After [addDocument]. *)
Definition added (d : DocData) (s : State) : State :=
  let r := allocDoc d (heap (session s)) in
  mkState (setQueue_ (queue_ (this s) ++ [r.1]) (this s))
    (setHeap r.2 (session s)).

Definition markEvaluated (u : NotebookQueueUnit) : NotebookQueueUnit :=
  mkUnit (docId u) (chunkId u) (code u) (options u) (pending u) true.

(** After [consoleEvalFinished], the current unit being in the store. *)
Definition signalled (s : State) : State :=
  match execContext_ (this s), execUnit_ (this s) with
  | Some c, Some a =>
      if connected c then
        match heap (session s) !! a with
        | Some u =>
            withSession
              (fun e => setHeap (<[a := markEvaluated u]> (heap e)) e) s
        | None => s
        end
      else s
  | _, _ => s
  end.

(** The first document queue that is not complete. *)
Definition firstNonComplete (l : list NotebookDocQueue)
  : option NotebookDocQueue :=
  List.find (fun d => negb (docComplete d)) l.

(** ** Invariants of the runs *)

(** Every unit a document queue holds is in the store. *)
Definition unitsInStore (s : State) : Prop :=
  Forall (fun d => Forall (fun a => a < length (heap (session s))) (units d))
    (queue_ (this s)).

(** The current unit, when there is one, is in the store and has its
    execution context. *)
Definition currentOk (s : State) : Prop :=
  match execUnit_ (this s) with
  | Some a => a < length (heap (session s)) /\ is_Some (execContext_ (this s))
  | None => True
  end.

(** The chunks announced as started and not as finished are the units in
    the currently-executing slot. *)
Definition Invariant (s : State) : Prop :=
  unitsInStore s /\ currentOk s /\
  inFlight (clientEvents (session s)) = executing s.

(** The store [h'] has every unit of [h], under the same identity. *)
Definition keepsIdents (h h' : list NotebookQueueUnit) : Prop :=
  length h <= length h' /\
  forall a u, h !! a = Some u -> ident <$> h' !! a = Some (ident u).

Definition identsOf (h : list NotebookQueueUnit) (l : list addr)
  : list (string * string) :=
  omap (fun a => ident <$> h !! a) l.

(** The identities of the queued units, in queue order. *)
Definition queuedIdents (s : State) : list (string * string) :=
  flat_map (fun d => identsOf (heap (session s)) (units d)) (queue_ (this s)).

(** The queued units that have not begun execution. *)
Definition waiting (s : State) : list (string * string) :=
  match execUnit_ (this s) with
  | Some _ => tail (queuedIdents s)
  | None => queuedIdents s
  end.

Definition currentIsFirst (s : State) : Prop :=
  match execUnit_ (this s) with
  | Some a => exists d rest us, queue_ (this s) = d :: rest /\ units d = a :: us
  | None => True
  end.

(** No document queue holds two units of one identity. *)
Definition distinctUnits (s : State) : Prop :=
  Forall (fun d => NoDup (identsOf (heap (session s)) (units d)))
    (queue_ (this s)).

(** The chunks that have begun execution, followed by those that wait, are
    the supplied chunks in the order of supply. *)
Definition Ordered (supplied : list (string * string)) (s : State) : Prop :=
  currentIsFirst s /\ distinctUnits s /\
  startedChunks (clientEvents (session s)) ++ waiting s = supplied.

(** The documents a run adds have no two units of one identity. *)
Definition distinctSupply (cs : list Call) : Prop :=
  Forall (fun c =>
            match c with
            | CallAdd d => NoDup (map ident (dataUnits d))
            | _ => True
            end) cs.

(** ** The steps as relations *)

Section Steps.
Context `{Collaborators}.

(** What unit selection can do: nothing when there is no document queue or
    the first one is complete, nothing but an error when the options of the
    first unit do not parse, and otherwise the selection of that unit. *)
Inductive SelectStep (s : State) : Error -> State -> Prop :=
| SelectNoDocument :
    queue_ (this s) = [] ->
    SelectStep s Success s
| SelectFirstComplete docQueue rest :
    queue_ (this s) = docQueue :: rest ->
    docComplete docQueue = true ->
    SelectStep s Success s
| SelectParseError docQueue rest a us unit e :
    queue_ (this s) = docQueue :: rest ->
    units docQueue = a :: us ->
    heap (session s) !! a = Some unit ->
    parseOptions unit = inl e ->
    SelectStep s (Failure e) s
| SelectUnit docQueue rest a us unit opts :
    queue_ (this s) = docQueue :: rest ->
    units docQueue = a :: us ->
    heap (session s) !! a = Some unit ->
    parseOptions unit = inr opts ->
    SelectStep s Success (selected notebookCtxId docQueue a unit opts s).

(** What [process] can do. *)
Inductive ProcessStep (s : State) : Error -> State -> Prop :=
| ProcessNothing :
    queue_ (this s) = [] \/ rBusy (session s) = true ->
    ProcessStep s Success s
| ProcessSubmit a u :
    queue_ (this s) <> [] ->
    rBusy (session s) = false ->
    execUnit_ (this s) = Some a ->
    heap (session s) !! a = Some u ->
    unitComplete u = false ->
    ProcessStep s Success (submitted a u s)
| ProcessRetire a u c e s' :
    queue_ (this s) <> [] ->
    rBusy (session s) = false ->
    execUnit_ (this s) = Some a ->
    heap (session s) !! a = Some u ->
    execContext_ (this s) = Some c ->
    unitComplete u = true ->
    SelectStep (retired u c s) e s' ->
    ProcessStep s e s'
| ProcessSelect e s' :
    queue_ (this s) <> [] ->
    rBusy (session s) = false ->
    execUnit_ (this s) = None ->
    SelectStep s e s' ->
    ProcessStep s e s'.

End Steps.

(** ** Sample collaborators and documents *)

Module Sample.

(** Option text that opens a brace does not parse. *)
Definition sampleParseOptions (u : NotebookQueueUnit) : string + JsonObject :=
  if String.eqb (options u) "{" then inl "unparsable chunk options"
  else inr [("raw", JStr (options u))].

Definition sampleReadUpdateParams (p : JsonArray)
  : string + (JsonObject * Z * string) :=
  match p with
  | [JObj o; JInt op; JStr before] => inr (o, op, before)
  | _ => inl "invalid params"
  end.

Definition sampleUnitFromJson (o : JsonObject) : string + NotebookQueueUnit :=
  match o with
  | [(_, JStr d); (_, JStr c)] => inr (mkUnit d c "" "" [] false)
  | _ => inl "invalid unit"
  end.

Definition sampleReadDocParams (p : JsonArray) : Error * JsonObject :=
  match p with
  | [JObj o] => (Success, o)
  | _ => (Failure "invalid params", [])
  end.

Definition sampleDocFromJson (o : JsonObject) : string + DocData :=
  match o with
  | [(_, JStr d)] => inr (mkDocData d 0 0 [])
  | _ => inl "invalid document"
  end.

Definition sampleOperationOfInt (z : Z) : option QueueOperation :=
  match z with
  | 0%Z => Some QueueAdd
  | 1%Z => Some QueueUpdate
  | 2%Z => Some QueueDelete
  | _ => None
  end.

Definition collaborators : Collaborators :=
  Build_Collaborators sampleParseOptions "ctx" sampleReadUpdateParams
    sampleUnitFromJson sampleReadDocParams sampleDocFromJson
    sampleOperationOfInt.

(** Document A with chunks a1 (two ranges) and a2, document B with b1, and
    a document without chunks. *)
Definition a1 : NotebookQueueUnit :=
  mkUnit "A" "a1" "x <- 1; y <- 2" "" [mkExecRange 0 6; mkExecRange 8 6] false.
Definition a2 : NotebookQueueUnit :=
  mkUnit "A" "a2" "z" "" [mkExecRange 0 1] false.
Definition b1 : NotebookQueueUnit :=
  mkUnit "B" "b1" "w" "" [mkExecRange 0 1] false.
Definition bad : NotebookQueueUnit :=
  mkUnit "C" "c1" "v" "{" [mkExecRange 0 1] false.

Definition docA : DocData := mkDocData "A" 640 80 [a1; a2].
Definition docB : DocData := mkDocData "B" 640 80 [b1].
Definition docC : DocData := mkDocData "C" 640 80 [bad].
Definition docEmpty : DocData := mkDocData "E" 640 80 [].

(** The unit of a request that names chunk a1 of document A. *)
Definition namesA1 : NotebookQueueUnit := mkUnit "A" "a1" "" "" [] false.

Definition start : State := initial "client" false.

(** The state reached from [start] by a run; [start] should the run
    fault, which the lemmas that use [reach] exclude. *)
Definition reach (cs : list Call) : State :=
  match run (H := collaborators) cs start with
  | Some (_, s) => s
  | None => start
  end.

(** A1 is the current unit with one range left. *)
Definition runningA1 : list Call := [CallAdd docA; CallProcess].

(** B1 has been submitted whole and the console has finished it. *)
Definition finishedB1 : list Call :=
  [CallAdd docB; CallProcess; ConsoleEvalFinished].

(** A document without chunks was added before document B. *)
Definition emptyFirst : list Call := [CallAdd docEmpty; CallAdd docB].

(** A world without a queue, and the requests used below. *)
Definition noQueue : World := mkWorld None (mkSession [] false []).

Definition deleteRequest : JsonRpcRequest :=
  mkRequest [JObj [("doc_id", JStr "A"); ("chunk_id", JStr "a1")];
             JInt 2; JStr ""] "client".

Definition malformedDocRequest : JsonRpcRequest :=
  mkRequest [JObj []] "client".

End Sample.

(** ** The translation unit as a whole

    [initQueue] connects [onConsolePrompt] to the console prompt event and
    registers [updateExecQueue] and [executeNotebookChunks] as the RPC
    methods update_notebook_exec_queue and execute_notebook_chunks.  From
    then on the static queue is driven by the arrival of a prompt or of one
    of the two requests; between arrivals R enters or leaves an evaluation
    and the console signals the end of one. *)

Inductive Arrival :=
| RpcExecuteNotebookChunks (request : JsonRpcRequest)
| RpcUpdateExecQueue (request : JsonRpcRequest)
| PromptEvent (prompt : string)
| RBusy (b : bool)
| REvalFinished.

Section Arrivals.
Context `{Collaborators}.

Definition arrive (a : Arrival) (w : World) : option World :=
  match a with
  | RpcExecuteNotebookChunks request => snd <$> executeNotebookChunks request w
  | RpcUpdateExecQueue request => snd <$> updateExecQueue request w
  | PromptEvent prompt => onConsolePrompt prompt w
  | RBusy b => Some (mkWorld (s_queue w) (setBusy b (world w)))
  | REvalFinished =>
      match s_queue w with
      | Some q => '(_, s) ← consoleEvalFinished (enter q w); Some (leave s)
      | None => Some w
      end
  end.

Fixpoint arrivals (l : list Arrival) (w : World) : option World :=
  match l with
  | [] => Some w
  | a :: l => w' ← arrive a w; arrivals l w'
  end.

End Arrivals.

(** The queue a new-document request adds to: the one there is, or a new
    one under the request's client id. *)
Definition queueFor (request : JsonRpcRequest) (w : World) : NotebookQueue :=
  match s_queue w with
  | Some q => q
  | None => newNotebookQueue (clientId request)
  end.

(** The session starts with no queue, no unit and no client event. *)
Definition boot (busy : bool) : World :=
  mkWorld None (mkSession [] busy []).

(** ** The order of the client events

    What a client can rely on: a chunk is announced as started, then one or
    more of its ranges are announced as executed, then it is announced as
    finished, and only then can another chunk start. *)

Inductive Phase :=
| Idle
| JustStarted (chunk : string * string)
| Running (chunk : string * string).

Definition phaseStep (p : Phase) (ev : ClientEvent) : option Phase :=
  match ev, p with
  | ChunkExecStateChanged d c ChunkExecStarted, Idle => Some (JustStarted (d, c))
  | NotebookRangeExecuted d c _, JustStarted x
  | NotebookRangeExecuted d c _, Running x =>
      if identEqb x (d, c) then Some (Running x) else None
  | ChunkExecStateChanged d c ChunkExecFinished, Running x =>
      if identEqb x (d, c) then Some Idle else None
  | _, _ => None
  end.

Fixpoint phaseAfter (p : Phase) (evs : list ClientEvent) : option Phase :=
  match evs with
  | [] => Some p
  | ev :: evs =>
      match phaseStep p ev with
      | Some p' => phaseAfter p' evs
      | None => None
      end
  end.

(** The phase the queue's members stand for. *)
Definition phaseOf (s : State) : Phase :=
  match execUnit_ (this s) with
  | Some a =>
      match heap (session s) !! a with
      | Some u => Running (ident u)
      | None => Idle
      end
  | None => Idle
  end.

Definition Protocol (s : State) : Prop :=
  phaseAfter Idle (clientEvents (session s)) = Some (phaseOf s).

(** The execution context is connected exactly while a unit is current,
    and it was made for that unit. *)
Definition ContextMatches (s : State) : Prop :=
  match execUnit_ (this s) with
  | Some a =>
      exists u c,
        heap (session s) !! a = Some u /\
        execContext_ (this s) = Some c /\
        connected c = true /\
        ctxDocId c = docId u /\ ctxChunkId c = chunkId u
  | None =>
      match execContext_ (this s) with
      | Some c => connected c = false
      | None => True
      end
  end.

(** The chunk ids of the ranges announced as executed. *)
Definition rangeChunks (evs : list ClientEvent) : list string :=
  omap (fun ev =>
          match ev with
          | NotebookRangeExecuted _ c _ => Some c
          | _ => None
          end) evs.

(** Every console input is a console_input call under the queue's client
    id, and the inputs are, chunk by chunk and in order, the ranges
    announced as executed. *)
Definition InputsTagged (s : State) : Prop :=
  Forall (fun i => rpcMethod i = "console_input" /\
                   rpcClientId i = clientId_ (this s))
    (input_ (this s)).

Definition InputsPaired (s : State) : Prop :=
  map (fun i => (rpcParams i).2) (input_ (this s)) =
    rangeChunks (clientEvents (session s)).

(** What holds of the world between arrivals. *)
Definition Settled (s : State) : Prop :=
  Invariant s /\ ContextMatches s /\ Protocol s.

Definition WorldInvariant (w : World) : Prop :=
  match s_queue w with
  | Some q => Settled (mkState q (world w)) /\ queue_ q <> []
  | None =>
      inFlight (clientEvents (world w)) = [] /\
      phaseAfter Idle (clientEvents (world w)) = Some Idle
  end.

(** The identity of the unit in the slot of the live queue, if any. *)
Definition executingIn (w : World) : list (string * string) :=
  match s_queue w with
  | Some q => executing (mkState q (world w))
  | None => []
  end.

(** The calls that are no mutation request. *)
Definition noMutation (cs : list Call) : bool :=
  forallb (fun c => negb (isMutation c)) cs.

(** ** Sample requests *)

Module SampleWorld.
Import Sample.

(** Readers that take a document as its id followed by its chunks, each
    chunk as id, source and option text; every chunk is one range over its
    whole source. *)
Definition unitOfJson (d : string) (j : Json) : option NotebookQueueUnit :=
  match j with
  | JArr [JStr c; JStr src; JStr opts] =>
      Some (mkUnit d c src opts [mkExecRange 0 (String.length src)] false)
  | _ => None
  end.

Definition docOfJson (o : JsonObject) : string + DocData :=
  match o with
  | [(_, JStr d); (_, JArr chunks)] =>
      match mapM (unitOfJson d) chunks with
      | Some us => inr (mkDocData d 640 80 us)
      | None => inl "invalid chunk"
      end
  | _ => inl "invalid document"
  end.

Definition collaborators : Collaborators :=
  Build_Collaborators sampleParseOptions "ctx" sampleReadUpdateParams
    sampleUnitFromJson sampleReadDocParams docOfJson sampleOperationOfInt.

Definition docRequest (client d : string) (chunks : list Json)
  : JsonRpcRequest :=
  mkRequest [JObj [("doc_id", JStr d); ("chunks", JArr chunks)]] client.

Definition chunk (c src opts : string) : Json :=
  JArr [JStr c; JStr src; JStr opts].

Definition requestA : JsonRpcRequest :=
  docRequest "first" "A" [chunk "a1" "x" ""].
Definition requestB : JsonRpcRequest :=
  docRequest "second" "B" [chunk "b1" "y" ""].
Definition requestBad : JsonRpcRequest :=
  docRequest "first" "C" [chunk "c1" "v" "{"].
Definition requestEmpty : JsonRpcRequest :=
  docRequest "first" "E" [].

Definition unreadableUpdate : JsonRpcRequest :=
  mkRequest [JInt 2] "first".
Definition unconvertibleUpdate : JsonRpcRequest :=
  mkRequest [JObj []; JInt 2; JStr ""] "first".
Definition deleteA1 : JsonRpcRequest :=
  mkRequest [JObj [("doc_id", JStr "A"); ("chunk_id", JStr "a1")];
             JInt 2; JStr ""] "first".
Definition unknownOperation : JsonRpcRequest :=
  mkRequest [JObj [("doc_id", JStr "A"); ("chunk_id", JStr "a1")];
             JInt 7; JStr ""] "first".

(** The world after a sequence of arrivals at the booted session; the
    booted session itself should an arrival fault. *)
Definition world_after (l : list Arrival) : World :=
  match arrivals (H := collaborators) l (boot false) with
  | Some w => w
  | None => boot false
  end.

End SampleWorld.

(** ** A console that co-operates

    One round is what an idle console does between two prompts: it signals
    that the evaluation of the last input has finished, and it prompts. *)

Definition round : list Call := [ConsoleEvalFinished; CallProcess].

Fixpoint rounds (n : nat) : list Call :=
  match n with
  | O => []
  | S n => round ++ rounds n
  end.

(** The steps a unit needs at most: one to start it, one for each range
    after the first, and one to retire it. *)
Definition cost (u : NotebookQueueUnit) : nat := 2 + length (pending u).

Definition unitsOf (h : list NotebookQueueUnit) (l : list nat)
  : list NotebookQueueUnit :=
  omap (fun a => h !! a) l.

(** The queued units, in queue order. *)
Definition queuedUnits (s : State) : list NotebookQueueUnit :=
  flat_map (fun d => unitsOf (heap (session s)) (units d)) (queue_ (this s)).

Definition work (s : State) : nat := sum_list_with cost (queuedUnits s).

Definition credit (s : State) : nat :=
  match execUnit_ (this s) with
  | Some _ => 1
  | None => 0
  end.

Definition workOf (docs : list DocData) : nat :=
  sum_list_with cost (flat_map dataUnits docs).

(** The chunks supplied by a list of documents, in order. *)
Definition supplied (docs : list DocData) : list (string * string) :=
  flat_map (fun d => map ident (dataUnits d)) docs.

Definition distinctDocs (docs : list DocData) : Prop :=
  Forall (fun d => NoDup (map ident (dataUnits d))) docs.

Definition nonEmptyDocs (docs : list DocData) : Prop :=
  Forall (fun d => dataUnits d <> []) docs.

(** The store [h'] has every unit of [h] at its place, with the same
    option text and no more left to do. *)
Definition shrinks (h h' : list NotebookQueueUnit) : Prop :=
  length h = length h' /\
  forall a u, h !! a = Some u ->
    exists v, h' !! a = Some v /\ options v = options u /\ cost v <= cost u.

(** The chunks that have begun, followed by those that wait, are among the
    supplied chunks, in the order of supply. *)
Definition InOrder (sup : list (string * string)) (s : State) : Prop :=
  currentIsFirst s /\
  (startedChunks (clientEvents (session s)) ++ waiting s) `sublist_of` sup.

(** The events that announce a range of the chunk [x] as executed. *)
Definition rangesOf (x : string * string) (evs : list ClientEvent) : Prop :=
  Forall (fun ev => exists r, ev = NotebookRangeExecuted x.1 x.2 r) evs.

Section Cooperation.
Context `{Collaborators}.

(** The option text of [u0] parses, whatever else the unit holds. *)
Definition parsesFor (u0 : NotebookQueueUnit) : Prop :=
  forall u, options u = options u0 -> exists opts, parseOptions u = inr opts.

Definition parsableDocs (docs : list DocData) : Prop :=
  Forall (fun d => Forall parsesFor (dataUnits d)) docs.

(** A state in which nothing holds the queue up: R is idle, no document
    queue is without units, and the option text of every queued unit
    parses. *)
Definition Cooperative (s : State) : Prop :=
  Settled s /\ currentIsFirst s /\
  Forall (fun d => units d <> []) (queue_ (this s)) /\
  Forall parsesFor (queuedUnits s) /\
  rBusy (session s) = false.

End Cooperation.

(** ** Unfolding the monad *)

Ltac munfold :=
  unfold mbind, mret, M_bind, M_ret, gets, modify, fault,
    enqueClientEvent, store, deref in *.

Lemma state_eta (s : State) : mkState (this s) (session s) = s.
Proof. by destruct s. Qed.

Lemma setQueue_same (q : NotebookQueue) : setQueue_ (queue_ q) q = q.
Proof. by destruct q. Qed.

Lemma setHeap_same (e : Session) : setHeap (heap e) e = e.
Proof. by destruct e. Qed.

Section Frame.
Context `{Collaborators}.

(** *** process on an empty queue or a busy console *)

Lemma process_empty (s : State) :
  queue_ (this s) = [] -> process s = Some (Success, s).
Proof.
  intros Hq. unfold process. munfold. by rewrite Hq.
Qed.

Lemma process_busy (s : State) :
  rBusy (session s) = true -> process s = Some (Success, s).
Proof.
  intros Hb. unfold process. munfold.
  destruct (queue_ (this s)); [done|]. by rewrite Hb.
Qed.

Lemma repeatProcess_fixed (s : State) (e : Error) :
  process s = Some (e, s) ->
  forall n, repeatProcess n s = Some (replicate n e, s).
Proof.
  intros Hp n. induction n as [|n IH]; [done|].
  simpl. munfold. by rewrite Hp, IH.
Qed.

(** C8: [process] on an empty global queue, or while R is evaluating,
    returns success and leaves the whole state as it was: the queue, the
    store of units and the client events, so nothing is emitted.  Called
    again any number of times it does the same. *)
Theorem process_noop_when_empty_or_busy (s : State) :
  queue_ (this s) = [] \/ rBusy (session s) = true ->
  process s = Some (Success, s) /\
  emitted s s = [] /\
  forall n, repeatProcess n s = Some (replicate n Success, s).
Proof.
  intros Hs.
  assert (Hp : process s = Some (Success, s))
    by (destruct Hs; [by apply process_empty | by apply process_busy]).
  split; [done|]. split.
  - unfold emitted. by rewrite drop_all.
  - by apply repeatProcess_fixed.
Qed.

(** *** update without a matching document queue *)

Lemma updateQueues_no_match pUnit op before l h :
  Forall (fun d => docQueueId d <> docId pUnit) l ->
  updateQueues pUnit op before l h = (l, h).
Proof.
  induction 1 as [|d l Hd _ IH]; [done|].
  simpl. destruct (String.eqb_spec (docQueueId d) (docId pUnit)); [done|].
  by rewrite IH.
Qed.

(** C7: when no document queue of the global queue has the unit's document
    id, [update] returns success and the state is as it was. *)
Theorem update_unknown_document (s : State) (pUnit : NotebookQueueUnit)
    (op : QueueOperation) (before : string) :
  Forall (fun d => docQueueId d <> docId pUnit) (queue_ (this s)) ->
  update pUnit op before s = Some (Success, s).
Proof.
  intros Hno. unfold update. munfold.
  rewrite updateQueues_no_match by done. simpl.
  unfold withSession, withQueue. simpl.
  by rewrite setQueue_same, setHeap_same, state_eta.
Qed.

(** C9: with no queue in existence, a mutation request whose parameters
    are read and whose unit JSON converts into a unit returns success and
    changes nothing: neither [s_queue] nor the session. *)
Theorem updateExecQueue_without_queue (request : JsonRpcRequest) (w : World)
    (unitJson : JsonObject) (op : Z) (before : string)
    (pUnit : NotebookQueueUnit) :
  readUpdateParams (params request) = inr (unitJson, op, before) ->
  unitFromJson unitJson = inr pUnit ->
  s_queue w = None ->
  updateExecQueue request w = Some (Success, w).
Proof.
  intros Hp Hu Hq. unfold updateExecQueue. by rewrite Hp, Hu, Hq.
Qed.

(** C10: when the document object of a new-document request does not
    convert into a document queue, the request returns that error and the
    world is as it was: no queue is created, none is appended to, and
    [process] does not run. *)
Theorem executeNotebookChunks_conversion_error (request : JsonRpcRequest)
    (w : World) (e : string) :
  docFromJson (readDocParams (params request)).2 = inl e ->
  executeNotebookChunks request w = Some (Failure e, w).
Proof.
  intros He. unfold executeNotebookChunks.
  destruct (readDocParams (params request)) as [err docObj]. simpl in He.
  by rewrite He.
Qed.

End Frame.

(** ** What each method does *)

Section Methods.
Context `{Collaborators}.

Lemma executeCurrentUnit_eq (s : State) (a : addr) (u : NotebookQueueUnit) :
  execUnit_ (this s) = Some a ->
  heap (session s) !! a = Some u ->
  executeCurrentUnit s = Some (Success, submitted a u s).
Proof.
  intros Ha Hu. unfold executeCurrentUnit, submitted. munfold.
  rewrite Ha, Hu.
  by destruct (popExecRange u (mkExecRange 0 0)) as [[input range] u'].
Qed.

Lemma executeNextUnit_empty (s : State) :
  queue_ (this s) = [] -> executeNextUnit s = Some (Success, s).
Proof. intros Hq. unfold executeNextUnit. munfold. by rewrite Hq. Qed.

Lemma executeNextUnit_complete (s : State) docQueue rest :
  queue_ (this s) = docQueue :: rest ->
  docComplete docQueue = true ->
  executeNextUnit s = Some (Success, s).
Proof.
  intros Hq Hc. unfold executeNextUnit. munfold. by rewrite Hq, Hc.
Qed.

Lemma docComplete_cons docQueue a us :
  units docQueue = a :: us ->
  docComplete docQueue = false /\ firstUnit docQueue = Some a.
Proof. unfold docComplete, firstUnit. by intros ->. Qed.

Lemma executeNextUnit_failure (s : State) docQueue rest a us unit e :
  queue_ (this s) = docQueue :: rest ->
  units docQueue = a :: us ->
  heap (session s) !! a = Some unit ->
  parseOptions unit = inl e ->
  executeNextUnit s = Some (Failure e, s).
Proof.
  intros Hq Hus Hu He. destruct (docComplete_cons _ _ _ Hus) as [Hc Hf].
  unfold executeNextUnit. munfold. by rewrite Hq, Hc, Hf, Hu, He.
Qed.

Lemma executeNextUnit_selects (s : State) docQueue rest a us unit opts :
  queue_ (this s) = docQueue :: rest ->
  units docQueue = a :: us ->
  heap (session s) !! a = Some unit ->
  parseOptions unit = inr opts ->
  executeNextUnit s =
    Some (Success, selected notebookCtxId docQueue a unit opts s).
Proof.
  intros Hq Hus Hu He. destruct (docComplete_cons _ _ _ Hus) as [Hc Hf].
  unfold executeNextUnit. munfold. rewrite Hq, Hc, Hf, Hu, He.
  unfold enqueueExecStateChanged. munfold. simpl. rewrite Hu.
  simpl.
  match goal with
  | |- match executeCurrentUnit ?t with _ => _ end = _ =>
      rewrite (executeCurrentUnit_eq t a unit) by done
  end.
  done.
Qed.

Lemma retireFromFirst_eq (s : State) (u : NotebookQueueUnit) :
  retireFromFirst u s =
    Some (tt, withQueue
                (setQueue_ (withoutUnit (heap (session s)) u (queue_ (this s))))
                s).
Proof.
  unfold retireFromFirst, withoutUnit. munfold.
  destruct (queue_ (this s)) as [|docQueue rest] eqn:Hq.
  - unfold withQueue. rewrite <- Hq, setQueue_same. by rewrite state_eta.
  - simpl. unfold withSession. simpl. rewrite setHeap_same, state_eta.
    by destruct (docComplete _).
Qed.

Lemma process_continues (s : State) (a : addr) (u : NotebookQueueUnit) :
  queue_ (this s) <> [] ->
  rBusy (session s) = false ->
  execUnit_ (this s) = Some a ->
  heap (session s) !! a = Some u ->
  unitComplete u = false ->
  process s = Some (Success, submitted a u s).
Proof.
  intros Hq Hb Ha Hu Hc. unfold process. munfold.
  destruct (queue_ (this s)) as [|d l]; [done|].
  rewrite Hb, Ha, Hu, Hc.
  by apply executeCurrentUnit_eq.
Qed.

Lemma process_retires (s : State) (a : addr) (u : NotebookQueueUnit)
    (c : ChunkExecContext) :
  queue_ (this s) <> [] ->
  rBusy (session s) = false ->
  execUnit_ (this s) = Some a ->
  heap (session s) !! a = Some u ->
  execContext_ (this s) = Some c ->
  unitComplete u = true ->
  process s = executeNextUnit (retired u c s).
Proof.
  intros Hq Hb Ha Hu Hctx Hc. unfold process. munfold.
  destruct (queue_ (this s)) as [|d l] eqn:Hql; [done|].
  rewrite Hb, Ha, Hu, Hc.
  rewrite retireFromFirst_eq.
  unfold enqueueExecStateChanged, disconnectContext. munfold. simpl.
  rewrite Ha, Hu. simpl. rewrite Hctx. simpl.
  unfold retired. by rewrite Hql.
Qed.

Lemma process_faults_without_context (s : State) (a : addr)
    (u : NotebookQueueUnit) :
  queue_ (this s) <> [] ->
  rBusy (session s) = false ->
  execUnit_ (this s) = Some a ->
  heap (session s) !! a = Some u ->
  execContext_ (this s) = None ->
  unitComplete u = true ->
  process s = None.
Proof.
  intros Hq Hb Ha Hu Hctx Hc. unfold process. munfold.
  destruct (queue_ (this s)) as [|d l] eqn:Hql; [done|].
  rewrite Hb, Ha, Hu, Hc.
  rewrite retireFromFirst_eq.
  unfold enqueueExecStateChanged, disconnectContext. munfold. simpl.
  rewrite Ha, Hu. simpl. by rewrite Hctx.
Qed.

Lemma process_dangling (s : State) (a : addr) :
  queue_ (this s) <> [] ->
  rBusy (session s) = false ->
  execUnit_ (this s) = Some a ->
  heap (session s) !! a = None ->
  process s = None.
Proof.
  intros Hq Hb Ha Hu. unfold process. munfold.
  destruct (queue_ (this s)) as [|d l] eqn:Hql; [done|].
  by rewrite Hb, Ha, Hu.
Qed.

Lemma process_idle (s : State) :
  queue_ (this s) <> [] ->
  rBusy (session s) = false ->
  execUnit_ (this s) = None ->
  process s = executeNextUnit s.
Proof.
  intros Hq Hb Ha. unfold process. munfold.
  destruct (queue_ (this s)) as [|d l] eqn:Hql; [done|].
  by rewrite Hb, Ha.
Qed.

End Methods.

Section StepRelations.
Context `{Collaborators}.

Lemma executeNextUnit_step (s : State) (e : Error) (s' : State) :
  executeNextUnit s = Some (e, s') <-> SelectStep s e s'.
Proof.
  split.
  - intros Hx.
    destruct (queue_ (this s)) as [|docQueue rest] eqn:Hq.
    { rewrite executeNextUnit_empty in Hx by done.
      injection Hx as <- <-. by apply SelectNoDocument. }
    destruct (units docQueue) as [|a us] eqn:Hus.
    { rewrite (executeNextUnit_complete s docQueue rest) in Hx
        by (try done; unfold docComplete; by rewrite Hus).
      injection Hx as <- <-. eapply SelectFirstComplete; [done|].
      unfold docComplete. by rewrite Hus. }
    destruct (heap (session s) !! a) as [unit|] eqn:Hu.
    + destruct (parseOptions unit) as [err|opts] eqn:Hp.
      * rewrite (executeNextUnit_failure s docQueue rest a us unit err) in Hx
          by done.
        injection Hx as <- <-. by eapply SelectParseError.
      * rewrite (executeNextUnit_selects s docQueue rest a us unit opts) in Hx
          by done.
        injection Hx as <- <-. by eapply SelectUnit.
    + destruct (docComplete_cons _ _ _ Hus) as [Hc Hf].
      unfold executeNextUnit in Hx. munfold.
      by rewrite Hq, Hc, Hf, Hu in Hx.
  - destruct 1.
    + by apply executeNextUnit_empty.
    + by eapply executeNextUnit_complete.
    + by eapply executeNextUnit_failure.
    + by eapply executeNextUnit_selects.
Qed.

Lemma process_step (s : State) (e : Error) (s' : State) :
  process s = Some (e, s') <-> ProcessStep s e s'.
Proof.
  split.
  - intros Hp.
    destruct (queue_ (this s)) as [|d l] eqn:Hq.
    { rewrite process_empty in Hp by done. injection Hp as <- <-.
      apply ProcessNothing. by left. }
    assert (Hne : queue_ (this s) <> []) by (by rewrite Hq).
    destruct (rBusy (session s)) eqn:Hb.
    { rewrite process_busy in Hp by done. injection Hp as <- <-.
      apply ProcessNothing. by right. }
    destruct (execUnit_ (this s)) as [a|] eqn:Ha.
    + destruct (heap (session s) !! a) as [u|] eqn:Hu.
      * destruct (unitComplete u) eqn:Hc.
        -- destruct (execContext_ (this s)) as [c|] eqn:Hctx.
           ++ rewrite (process_retires s a u c) in Hp by done.
              apply executeNextUnit_step in Hp.
              by eapply ProcessRetire.
           ++ by rewrite (process_faults_without_context s a u) in Hp.
        -- rewrite (process_continues s a u) in Hp by done.
           injection Hp as <- <-. by apply ProcessSubmit.
      * by rewrite (process_dangling s a) in Hp.
    + rewrite process_idle in Hp by done.
      apply executeNextUnit_step in Hp. by apply ProcessSelect.
  - destruct 1 as [[Hq|Hb]| | |].
    + by apply process_empty.
    + by apply process_busy.
    + by apply process_continues.
    + rewrite (process_retires s a u c) by done.
      by apply executeNextUnit_step.
    + rewrite process_idle by done. by apply executeNextUnit_step.
Qed.

End StepRelations.

(** ** The client events of a step *)

Lemma popExecRange_ident (u : NotebookQueueUnit) (r : ExecRange) :
  docId (popExecRange u r).2 = docId u /\
  chunkId (popExecRange u r).2 = chunkId u.
Proof. unfold popExecRange. by destruct (pending u). Qed.

Lemma emitted_app (s s' : State) (l : list ClientEvent) :
  clientEvents (session s') = clientEvents (session s) ++ l ->
  emitted s s' = l.
Proof. unfold emitted. intros ->. apply drop_app_length. Qed.

Lemma emitted_refl (s : State) : emitted s s = [].
Proof. unfold emitted. by rewrite drop_all. Qed.

Lemma events_submitted (a : addr) (u : NotebookQueueUnit) (s : State) :
  clientEvents (session (submitted a u s)) =
    clientEvents (session s) ++
      [NotebookRangeExecuted (docId u) (chunkId u)
         (popExecRange u (mkExecRange 0 0)).1.2].
Proof.
  unfold submitted. simpl.
  by destruct (popExecRange_ident u (mkExecRange 0 0)) as [-> ->].
Qed.

Lemma events_selected ctx docQueue a unit opts (s : State) :
  clientEvents (session (selected ctx docQueue a unit opts s)) =
    clientEvents (session s) ++
      [isStarted (docId unit) (chunkId unit);
       NotebookRangeExecuted (docId unit) (chunkId unit)
         (popExecRange unit (mkExecRange 0 0)).1.2].
Proof.
  unfold selected. rewrite events_submitted. simpl.
  by rewrite <- app_assoc.
Qed.

Lemma events_retired u c (s : State) :
  clientEvents (session (retired u c s)) =
    clientEvents (session s) ++ [isFinished (docId u) (chunkId u)].
Proof. done. Qed.

Section Events.
Context `{Collaborators}.

Lemma select_events (s : State) (e : Error) (s' : State) :
  SelectStep s e s' ->
  exists l, clientEvents (session s') = clientEvents (session s) ++ l /\
            forall d c, isFinished d c ∉ l.
Proof.
  destruct 1.
  1-3: exists []; rewrite app_nil_r; split; [done|]; intros d c Hin;
    by apply elem_of_nil in Hin.
  eexists. split; [apply events_selected|].
  intros d c Hin. unfold isFinished, isStarted in Hin.
  apply elem_of_cons in Hin as [Hin|Hin]; [done|].
  apply elem_of_cons in Hin as [Hin|Hin]; [done|].
  by apply elem_of_nil in Hin.
Qed.

(** C3: when a [process] step puts a chunk-finished event on the client
    event queue, the event is for the unit in [execUnit_], and that unit
    was complete when the step began: no range of it was pending and the
    console had signalled evaluation-finished for the range submitted
    last.  So a unit with no pending range whose last submission is still
    being evaluated gets no chunk-finished event from the step. *)
Theorem finished_only_when_complete (s : State) (e : Error) (s' : State)
    (d c : string) :
  process s = Some (e, s') ->
  isFinished d c ∈ emitted s s' ->
  exists a u,
    execUnit_ (this s) = Some a /\
    heap (session s) !! a = Some u /\
    docId u = d /\ chunkId u = c /\
    unitComplete u = true /\
    pending u = [] /\ evaluated u = true.
Proof.
  intros Hp Hin. apply process_step in Hp.
  destruct Hp as [_|a u _ _ _ _ _|a u ctx e s' _ _ Ha Hu _ Hc Hsel|e s' _ _ _ Hsel].
  - rewrite emitted_refl in Hin. by apply elem_of_nil in Hin.
  - rewrite (emitted_app _ _ _ (events_submitted a u s)) in Hin.
    apply elem_of_cons in Hin as [Hin|Hin]; [done|].
    by apply elem_of_nil in Hin.
  - apply select_events in Hsel as (l & Hl & Hno).
    rewrite events_retired, <- app_assoc in Hl.
    rewrite (emitted_app _ _ _ Hl) in Hin.
    apply elem_of_cons in Hin as [Hin|Hin]; [|by apply Hno in Hin].
    injection Hin as -> ->.
    exists a, u. repeat (split; [done|]).
    unfold unitComplete in Hc. by destruct (pending u).
  - apply select_events in Hsel as (l & Hl & Hno).
    rewrite (emitted_app _ _ _ Hl) in Hin. by apply Hno in Hin.
Qed.

(** *** Selection *)

(** C5, as the code has it: unit selection looks at the first document
    queue only.  When that queue is complete, selection does nothing and
    returns success, whatever follows it in the global queue.  When it is
    not complete and the options of its first unit parse, selection takes
    that unit: the execution context is made for it and connected, it
    becomes the current unit, chunk-started is emitted, and in the same
    step its first range (the zero-length range when it has none) goes to
    the console input queue and range-executed is emitted. *)
Theorem selection_reads_first_queue_only (s : State)
    (docQueue : NotebookDocQueue) (rest : list NotebookDocQueue) :
  queue_ (this s) = docQueue :: rest ->
  (docComplete docQueue = true -> executeNextUnit s = Some (Success, s)) /\
  (forall a us unit opts,
     units docQueue = a :: us ->
     heap (session s) !! a = Some unit ->
     parseOptions unit = inr opts ->
     exists s',
       executeNextUnit s = Some (Success, s') /\
       execUnit_ (this s') = Some a /\
       execContext_ (this s') =
         Some (mkContext (docId unit) (chunkId unit) notebookCtxId
                 ExecScopeChunk opts (pixelWidth docQueue)
                 (charWidth docQueue) true) /\
       emitted s s' =
         [isStarted (docId unit) (chunkId unit);
          NotebookRangeExecuted (docId unit) (chunkId unit)
            (popExecRange unit (mkExecRange 0 0)).1.2] /\
       input_ (this s') =
         input_ (this s) ++
           [mkConsoleInput "console_input"
              ((popExecRange unit (mkExecRange 0 0)).1.1, chunkId unit)
              (clientId_ (this s))] /\
       heap (session s') =
         <[a := (popExecRange unit (mkExecRange 0 0)).2]> (heap (session s)) /\
       queue_ (this s') = queue_ (this s)).
Proof.
  intros Hq. split.
  - intros Hc. by eapply executeNextUnit_complete.
  - intros a us unit opts Hus Hu Hp.
    eexists. split; [by eapply executeNextUnit_selects|].
    split; [done|]. split; [done|].
    split; [apply emitted_app, events_selected|].
    split; [|done].
    unfold selected, submitted. simpl.
    by destruct (popExecRange_ident unit (mkExecRange 0 0)) as [_ ->].
Qed.

(** *** Option-parse errors *)

Lemma stall_run (s : State) docQueue rest a us unit e :
  queue_ (this s) = docQueue :: rest ->
  units docQueue = a :: us ->
  heap (session s) !! a = Some unit ->
  parseOptions unit = inl e ->
  execUnit_ (this s) = None ->
  forall cs, forallb quiet cs = true ->
  exists b, run cs s = Some (tt, withSession (setBusy b) s).
Proof.
  intros Hq Hus Hu He Hx cs. revert s Hq Hu Hx.
  induction cs as [|c cs IH]; intros s Hq Hu Hx Hcs.
  { exists (rBusy (session s)). simpl. munfold. unfold withSession, setBusy.
    by destruct s as [q [h b ev]]. }
  simpl in Hcs. apply andb_prop in Hcs as [Hc Hcs].
  assert (Hstep : exists b, call c s = Some (tt, withSession (setBusy b) s)).
  { destruct c as [d| |p op bf|b|]; try done.
    - exists (rBusy (session s)). simpl. unfold queueOnConsolePrompt. munfold.
      assert (Hp : process s = Some (Failure e, s) \/
                   process s = Some (Success, s)).
      { destruct (rBusy (session s)) eqn:Hb.
        - right. by apply process_busy.
        - left. rewrite process_idle by (try done; by rewrite Hq).
          by eapply executeNextUnit_failure. }
      unfold withSession, setBusy.
      destruct Hp as [-> | ->]; by destruct s as [q [h b ev]].
    - exists b. done.
    - exists (rBusy (session s)). simpl. unfold consoleEvalFinished. munfold.
      rewrite Hx. unfold withSession, setBusy.
      destruct (execContext_ (this s)); by destruct s as [q [h b ev]]. }
  destruct Hstep as [b Hstep].
  destruct (IH (withSession (setBusy b) s)) as [b' Hrun]; try done.
  exists b'. simpl. munfold. rewrite Hstep.
  by rewrite Hrun.
Qed.

(** C6: when the options of the unit that selection reaches do not parse,
    [executeNextUnit] returns that error and the state is as it was: the
    unit is still the first of its document queue, no execution context
    was made and nothing was emitted.  The document then stays where it is:
    every later [process] with R idle returns the same error, and no run of
    prompts and console signals changes the queue, the units or the client
    events. *)
Theorem option_parse_error_stalls (s : State) (docQueue : NotebookDocQueue)
    (rest : list NotebookDocQueue) (a : addr) (us : list addr)
    (unit : NotebookQueueUnit) (e : string) :
  queue_ (this s) = docQueue :: rest ->
  units docQueue = a :: us ->
  heap (session s) !! a = Some unit ->
  parseOptions unit = inl e ->
  executeNextUnit s = Some (Failure e, s) /\
  (execUnit_ (this s) = None ->
     (rBusy (session s) = false ->
        forall n, repeatProcess n s = Some (replicate n (Failure e), s)) /\
     (forall cs, forallb quiet cs = true ->
        exists s', run cs s = Some (tt, s') /\
          this s' = this s /\
          heap (session s') = heap (session s) /\
          clientEvents (session s') = clientEvents (session s))).
Proof.
  intros Hq Hus Hu He.
  assert (Hx : executeNextUnit s = Some (Failure e, s))
    by (by eapply executeNextUnit_failure).
  split; [done|]. intros Hnone. split.
  - intros Hb. apply repeatProcess_fixed.
    rewrite process_idle by (try done; by rewrite Hq). done.
  - intros cs Hcs.
    destruct (stall_run s docQueue rest a us unit e Hq Hus Hu He Hnone cs Hcs)
      as [b Hrun].
    eexists. split; [exact Hrun|]. done.
Qed.

End Events.

(** ** Mutation *)

Lemma updateQueues_length pUnit op before l h :
  length (updateQueues pUnit op before l h).1 = length l.
Proof.
  induction l as [|d l IH]; [done|]. simpl.
  destruct (String.eqb _ _).
  - by destruct (docUpdate d pUnit op before h).
  - destruct (updateQueues pUnit op before l h). simpl in *. by rewrite IH.
Qed.

Lemma updateQueues_delete_heap pUnit before l h :
  (updateQueues pUnit QueueDelete before l h).2 = h.
Proof.
  induction l as [|d l IH]; [done|]. simpl.
  destruct (String.eqb _ _); [done|].
  destruct (updateQueues pUnit QueueDelete before l h). by simpl in *.
Qed.

Lemma update_eq pUnit op before (s : State) :
  update pUnit op before s = Some (Success, updated pUnit op before s).
Proof.
  unfold update, updated. munfold.
  by destruct (updateQueues pUnit op before _ _).
Qed.

Lemma updated_nonempty pUnit op before (s : State) :
  queue_ (this s) <> [] -> queue_ (this (updated pUnit op before s)) <> [].
Proof.
  intros Hne Hq. apply Hne. apply length_zero_iff_nil.
  rewrite <- (updateQueues_length pUnit op before _ (heap (session s))).
  unfold updated in Hq. simpl in Hq. by rewrite Hq.
Qed.


(** ** The store *)

Lemma keepsIdents_refl h : keepsIdents h h.
Proof. split; [done|]. by intros a u ->. Qed.

Lemma keepsIdents_app h l : keepsIdents h (h ++ l).
Proof.
  split; [rewrite length_app; lia|].
  intros a u Hu. by rewrite (lookup_app_l_Some _ _ _ _ Hu).
Qed.

Lemma keepsIdents_insert h a u u' :
  h !! a = Some u -> ident u' = ident u -> keepsIdents h (<[a := u']> h).
Proof.
  intros Hu Hid. split; [by rewrite length_insert|].
  intros b v Hv. destruct (decide (a = b)) as [->|Hne].
  - rewrite list_lookup_insert_eq by (by eapply lookup_lt_Some).
    assert (v = u) as -> by congruence. simpl. f_equal. exact Hid.
  - rewrite list_lookup_insert_ne by done. by rewrite Hv.
Qed.

Lemma keepsIdents_trans h1 h2 h3 :
  keepsIdents h1 h2 -> keepsIdents h2 h3 -> keepsIdents h1 h3.
Proof.
  intros [Hl1 Hk1] [Hl2 Hk2]. split; [lia|].
  intros a u Hu. specialize (Hk1 a u Hu).
  destruct (h2 !! a) as [v|] eqn:Hv; [|done].
  assert (Hid : ident v = ident u) by (simpl in Hk1; congruence).
  rewrite <- Hid. by apply Hk2.
Qed.

Lemma identsOf_keeps h h' l :
  keepsIdents h h' ->
  Forall (fun a => a < length h) l ->
  identsOf h' l = identsOf h l.
Proof.
  intros [_ Hk]. induction 1 as [|a l Ha _ IH]; [done|].
  apply lookup_lt_is_Some in Ha as [u Hu].
  pose proof (Hk a u Hu) as Hu'.
  unfold identsOf in *. cbn [omap list_omap]. rewrite Hu', Hu.
  simpl. f_equal. exact IH.
Qed.

Lemma identsOf_cons h a l u :
  h !! a = Some u -> identsOf h (a :: l) = ident u :: identsOf h l.
Proof. intros Hu. unfold identsOf. simpl. by rewrite Hu. Qed.

Lemma identsOf_seq h us :
  identsOf (h ++ us) (seq (length h) (length us)) = map ident us.
Proof.
  revert h. induction us as [|u us IH]; intros h; [done|].
  change (seq (length h) (length (u :: us)))
    with (length h :: seq (S (length h)) (length us)).
  rewrite (identsOf_cons _ _ _ u)
    by (by rewrite lookup_app_r, Nat.sub_diag by lia).
  change (map ident (u :: us)) with (ident u :: map ident us).
  f_equal. specialize (IH (h ++ [u])).
  rewrite length_app, <- app_assoc in IH. simpl in IH.
  by rewrite Nat.add_1_r in IH.
Qed.

(** ** The events *)

Lemma inFlight_snoc evs ev :
  inFlight (evs ++ [ev]) = trackExec (inFlight evs) ev.
Proof. unfold inFlight. by rewrite fold_left_app. Qed.

Lemma startedChunks_app evs evs' :
  startedChunks (evs ++ evs') = startedChunks evs ++ startedChunks evs'.
Proof. apply omap_app. Qed.

Lemma identEqb_refl x : identEqb x x = true.
Proof. unfold identEqb. by rewrite !String.eqb_refl. Qed.

Lemma identEqb_eq x y : identEqb x y = true <-> x = y.
Proof.
  unfold identEqb. destruct x as [d c], y as [d' c']. simpl.
  rewrite andb_true_iff, !String.eqb_eq. split; [by intros [-> ->]|].
  by intros [= -> ->].
Qed.

Lemma sameIdent_spec h p a :
  sameIdent h p a = true <-> ident <$> h !! a = Some (ident p).
Proof.
  unfold sameIdent, ident. destruct (h !! a) as [u|]; simpl; [|done].
  rewrite andb_true_iff, !String.eqb_eq. split; [by intros [-> ->]|].
  by intros [= -> ->].
Qed.

(** ** The invariant is kept by every call *)

Lemma Forall_list_filter {A} (P : A -> Prop) (f : A -> bool) (l : list A) :
  Forall P l -> Forall P (List.filter f l).
Proof.
  induction 1 as [|x l Hx _ IH]; [done|]. simpl.
  destruct (f x); [by constructor | done].
Qed.

Lemma insertBefore_Forall (P : nat -> Prop) h before new l :
  P new -> Forall P l -> Forall P (insertBefore h before new l).
Proof.
  intros Hn. induction 1 as [|a l Ha Hl IH]; simpl.
  - by repeat constructor.
  - destruct (chunkIdEquals h before a); by repeat constructor.
Qed.

Lemma inStore_mono (h h' : list NotebookQueueUnit) (l : list nat) :
  length h <= length h' ->
  Forall (fun a => a < length h) l -> Forall (fun a => a < length h') l.
Proof.
  intros Hle Hl. eapply Forall_impl; [exact Hl|]. intros a Ha. simpl in *. lia.
Qed.

Lemma docUpdate_keeps d pUnit op before h :
  keepsIdents h (docUpdate d pUnit op before h).2.
Proof.
  destruct op; simpl.
  - apply keepsIdents_app.
  - destruct (findUnit h pUnit (units d)) as [a|]; [|apply keepsIdents_refl].
    destruct (h !! a) as [u|] eqn:Hu; [|apply keepsIdents_refl].
    simpl. by eapply keepsIdents_insert.
  - apply keepsIdents_refl.
Qed.

Lemma docUpdate_inStore d pUnit op before h :
  Forall (fun a => a < length h) (units d) ->
  Forall (fun a => a < length (docUpdate d pUnit op before h).2)
    (units (docUpdate d pUnit op before h).1).
Proof.
  intros Hd. destruct op; simpl.
  - apply insertBefore_Forall; [rewrite length_app; simpl; lia|].
    eapply inStore_mono; [|done]. rewrite length_app. lia.
  - destruct (findUnit h pUnit (units d)) as [a|]; [|done].
    destruct (h !! a) as [u|]; [|done]. simpl. by rewrite length_insert.
  - by apply Forall_list_filter.
Qed.

Lemma updateQueues_keeps pUnit op before l h :
  keepsIdents h (updateQueues pUnit op before l h).2.
Proof.
  induction l as [|d l IH]; simpl; [apply keepsIdents_refl|].
  destruct (String.eqb _ _).
  - pose proof (docUpdate_keeps d pUnit op before h) as Hk.
    by destruct (docUpdate d pUnit op before h).
  - by destruct (updateQueues pUnit op before l h).
Qed.

Lemma updateQueues_inStore pUnit op before l h :
  Forall (fun d => Forall (fun a => a < length h) (units d)) l ->
  Forall (fun d => Forall
            (fun a => a < length (updateQueues pUnit op before l h).2)
            (units d))
    (updateQueues pUnit op before l h).1.
Proof.
  induction 1 as [|d l Hd Hl IH]; simpl; [done|].
  destruct (String.eqb _ _).
  - pose proof (docUpdate_keeps d pUnit op before h) as [Hle _].
    pose proof (docUpdate_inStore d pUnit op before h Hd) as Hd'.
    destruct (docUpdate d pUnit op before h) as [d' h']. simpl in *.
    constructor; [done|].
    eapply Forall_impl; [exact Hl|]. intros x. by apply inStore_mono.
  - pose proof (updateQueues_keeps pUnit op before l h) as [Hle _].
    destruct (updateQueues pUnit op before l h) as [l' h']. simpl in *.
    constructor; [by eapply inStore_mono|done].
Qed.

Lemma executing_keeps (s s' : State) :
  execUnit_ (this s') = execUnit_ (this s) ->
  keepsIdents (heap (session s)) (heap (session s')) ->
  currentOk s ->
  executing s' = executing s.
Proof.
  intros Hx [_ Hk] Hok. unfold executing, currentOk in *. rewrite Hx.
  destruct (execUnit_ (this s)) as [a|]; [|done].
  destruct Hok as [Ha _]. apply lookup_lt_is_Some in Ha as [u Hu].
  specialize (Hk a u Hu). rewrite Hu.
  destruct (heap (session s') !! a) as [u'|]; [|done].
  simpl in Hk. congruence.
Qed.

(** A step that keeps the queue's slots, the identities in the store and
    the chunks in flight keeps the invariant. *)
Lemma Invariant_frame (s s' : State) :
  Invariant s ->
  unitsInStore s' ->
  execUnit_ (this s') = execUnit_ (this s) ->
  (is_Some (execContext_ (this s)) -> is_Some (execContext_ (this s'))) ->
  keepsIdents (heap (session s)) (heap (session s')) ->
  inFlight (clientEvents (session s')) = inFlight (clientEvents (session s)) ->
  Invariant s'.
Proof.
  intros (Hst & Hok & Hfl) Hst' Hx Hc Hk Hev.
  split; [done|]. split.
  - unfold currentOk in *. rewrite Hx.
    destruct (execUnit_ (this s)) as [a|]; [|done].
    destruct Hok as [Ha Hctx]. destruct Hk as [Hle _]. split; [lia|auto].
  - rewrite Hev, Hfl. symmetry. by apply executing_keeps.
Qed.

Lemma Invariant_submitted (s : State) a u :
  Invariant s ->
  execUnit_ (this s) = Some a ->
  heap (session s) !! a = Some u ->
  Invariant (submitted a u s).
Proof.
  intros Hinv Ha Hu.
  assert (Hk : keepsIdents (heap (session s))
                 (heap (session (submitted a u s)))).
  { unfold submitted. simpl. eapply keepsIdents_insert; [done|].
    unfold ident. by destruct (popExecRange_ident u (mkExecRange 0 0)) as [-> ->]. }
  apply (Invariant_frame s); try done.
  - destruct Hinv as [Hst _]. unfold unitsInStore in *.
    eapply Forall_impl; [exact Hst|]. intros d. apply inStore_mono, Hk.
  - rewrite events_submitted. by rewrite inFlight_snoc.
Qed.

Lemma withoutUnit_inStore h u l :
  Forall (fun d => Forall (fun a => a < length h) (units d)) l ->
  Forall (fun d => Forall (fun a => a < length h) (units d))
    (withoutUnit h u l).
Proof.
  destruct 1 as [|d l Hd Hl]; [done|]. simpl.
  destruct (docComplete _); [done|]. constructor; [|done].
  simpl. by apply Forall_list_filter.
Qed.

Lemma Invariant_retired (s : State) a u c :
  Invariant s ->
  execUnit_ (this s) = Some a ->
  heap (session s) !! a = Some u ->
  Invariant (retired u c s).
Proof.
  intros (Hst & Hok & Hfl) Ha Hu. split; [|split].
  - unfold unitsInStore, retired. simpl. by apply withoutUnit_inStore.
  - done.
  - rewrite events_retired, inFlight_snoc, Hfl.
    unfold executing. rewrite Ha, Hu. simpl.
    change (identEqb (ident u) (docId u, chunkId u))
      with (identEqb (ident u) (ident u)).
    by rewrite identEqb_refl.
Qed.

Lemma Invariant_chosen (s : State) ctx docQueue a unit opts :
  Invariant s ->
  execUnit_ (this s) = None ->
  heap (session s) !! a = Some unit ->
  Invariant (chosen ctx docQueue a unit opts s).
Proof.
  intros (Hst & Hok & Hfl) Hx Hu.
  split; [done|]. split.
  - unfold currentOk. simpl. split; [by eapply lookup_lt_Some|by eexists].
  - simpl. unfold isStarted. rewrite inFlight_snoc, Hfl.
    unfold executing. rewrite Hx. simpl. by rewrite Hu.
Qed.

Lemma Invariant_selected (s : State) ctx docQueue a unit opts :
  Invariant s ->
  execUnit_ (this s) = None ->
  heap (session s) !! a = Some unit ->
  Invariant (selected ctx docQueue a unit opts s).
Proof.
  intros Hinv Hx Hu. unfold selected.
  apply Invariant_submitted; [by apply Invariant_chosen|done|done].
Qed.

Lemma Invariant_updated (s : State) pUnit op before :
  Invariant s -> Invariant (updated pUnit op before s).
Proof.
  intros Hinv. apply (Invariant_frame s); try done.
  - destruct Hinv as [Hst _]. unfold unitsInStore, updated. simpl.
    by apply updateQueues_inStore.
  - apply updateQueues_keeps.
Qed.

Lemma addDocument_eq (d : DocData) (s : State) :
  addDocument d s = Some (tt, added d s).
Proof. done. Qed.

Lemma consoleEvalFinished_eq (s : State) :
  currentOk s -> consoleEvalFinished s = Some (tt, signalled s).
Proof.
  intros Hok. unfold consoleEvalFinished, signalled, currentOk in *. munfold.
  destruct (execContext_ (this s)) as [c|]; [|done].
  destruct (execUnit_ (this s)) as [a|]; [|done].
  destruct (connected c); [|done].
  destruct Hok as [Ha _]. apply lookup_lt_is_Some in Ha as [u Hu].
  by rewrite Hu.
Qed.

Lemma Invariant_added (d : DocData) (s : State) :
  Invariant s -> Invariant (added d s).
Proof.
  intros Hinv. apply (Invariant_frame s); try done.
  - destruct Hinv as [Hst _]. unfold unitsInStore, added in *. simpl.
    apply Forall_app. split.
    + eapply Forall_impl; [exact Hst|]. intros x.
      apply inStore_mono. rewrite length_app. lia.
    + constructor; [|done]. simpl. apply Forall_forall. intros a Ha.
      apply elem_of_seq in Ha. rewrite length_app. lia.
  - apply keepsIdents_app.
Qed.

Lemma signalled_keeps (s : State) :
  this (signalled s) = this s /\
  clientEvents (session (signalled s)) = clientEvents (session s) /\
  keepsIdents (heap (session s)) (heap (session (signalled s))).
Proof.
  unfold signalled.
  destruct (execContext_ (this s)) as [c|];
    [|by auto using keepsIdents_refl].
  destruct (execUnit_ (this s)) as [a|]; [|by auto using keepsIdents_refl].
  destruct (connected c); [|by auto using keepsIdents_refl].
  destruct (heap (session s) !! a) as [u|] eqn:Hu;
    [|by auto using keepsIdents_refl].
  split; [done|]. split; [done|]. simpl. by eapply keepsIdents_insert.
Qed.

Lemma unitsInStore_keeps (s s' : State) :
  queue_ (this s') = queue_ (this s) ->
  keepsIdents (heap (session s)) (heap (session s')) ->
  unitsInStore s -> unitsInStore s'.
Proof.
  intros Hq [Hle _] Hst. unfold unitsInStore in *. rewrite Hq.
  eapply Forall_impl; [exact Hst|]. intros d. by apply inStore_mono.
Qed.

Lemma Invariant_signalled (s : State) :
  Invariant s -> Invariant (signalled s).
Proof.
  intros Hinv. destruct (signalled_keeps s) as (Hthis & Hev & Hk).
  apply (Invariant_frame s); try done; try (by rewrite Hthis).
  - eapply unitsInStore_keeps; [by rewrite Hthis|done|apply Hinv].
  - by rewrite Hev.
Qed.

Lemma Invariant_busy (b : bool) (s : State) :
  Invariant s -> Invariant (withSession (setBusy b) s).
Proof.
  intros Hinv. apply (Invariant_frame s); try done.
  - apply Hinv.
  - apply keepsIdents_refl.
Qed.

Section Progress.
Context `{Collaborators}.

Lemma select_progress (s : State) :
  unitsInStore s -> exists e s', SelectStep s e s'.
Proof.
  intros Hst. unfold unitsInStore in Hst.
  destruct (queue_ (this s)) as [|docQueue rest] eqn:Hq.
  { exists Success, s. by apply SelectNoDocument. }
  destruct (units docQueue) as [|a us] eqn:Hus.
  { exists Success, s. eapply SelectFirstComplete; [done|].
    unfold docComplete. by rewrite Hus. }
  apply Forall_cons in Hst as [Hd _]. rewrite Hus in Hd.
  apply Forall_cons in Hd as [Ha _].
  apply lookup_lt_is_Some in Ha as [unit Hu].
  destruct (parseOptions unit) as [err|opts] eqn:Hp.
  - exists (Failure err), s. by eapply SelectParseError.
  - eexists _, _. by eapply SelectUnit.
Qed.

Lemma select_invariant (s : State) (e : Error) (s' : State) :
  Invariant s -> execUnit_ (this s) = None -> SelectStep s e s' ->
  Invariant s'.
Proof.
  intros Hinv Hx. destruct 1; try done. by eapply Invariant_selected.
Qed.

Lemma process_invariant (s : State) (e : Error) (s' : State) :
  Invariant s -> ProcessStep s e s' -> Invariant s'.
Proof.
  intros Hinv. destruct 1 as [?|a u ?????|a u c e s' ?? Ha Hu ?? Hsel|].
  - done.
  - by apply Invariant_submitted.
  - apply (select_invariant (retired u c s) e s');
      [by eapply Invariant_retired|done|done].
  - by eapply select_invariant.
Qed.

Lemma process_progress (s : State) :
  Invariant s -> exists e s', ProcessStep s e s'.
Proof.
  intros Hinv.
  destruct (queue_ (this s)) as [|d l] eqn:Hq.
  { exists Success, s. apply ProcessNothing. by left. }
  assert (Hne : queue_ (this s) <> []) by (by rewrite Hq).
  destruct (rBusy (session s)) eqn:Hb.
  { exists Success, s. apply ProcessNothing. by right. }
  destruct (execUnit_ (this s)) as [a|] eqn:Ha.
  - pose proof Hinv as (_ & Hok & _). unfold currentOk in Hok.
    rewrite Ha in Hok. destruct Hok as [Hlt [c Hc]].
    apply lookup_lt_is_Some in Hlt as [u Hu].
    destruct (unitComplete u) eqn:Hcomp.
    + destruct (select_progress (retired u c s)) as (e & s' & Hsel).
      { by eapply Invariant_retired. }
      exists e, s'. by eapply ProcessRetire.
    + eexists _, _. by eapply ProcessSubmit.
  - destruct (select_progress s) as (e & s' & Hsel); [apply Hinv|].
    exists e, s'. by apply ProcessSelect.
Qed.

Lemma call_invariant (c : Call) (s : State) :
  Invariant s -> exists s', call c s = Some (tt, s') /\ Invariant s'.
Proof.
  intros Hinv. destruct c as [d| |pUnit op before|b|]; simpl.
  - eexists. split; [apply addDocument_eq|]. by apply Invariant_added.
  - destruct (process_progress s Hinv) as (e & s' & Hstep).
    exists s'. split; [|by eapply process_invariant].
    apply process_step in Hstep.
    unfold queueOnConsolePrompt. munfold. by rewrite Hstep.
  - eexists. split.
    + munfold. by rewrite update_eq.
    + by apply Invariant_updated.
  - eexists. split; [done|]. by apply Invariant_busy.
  - eexists. split; [apply consoleEvalFinished_eq; apply Hinv|].
    by apply Invariant_signalled.
Qed.

Lemma run_invariant (cs : list Call) (s : State) :
  Invariant s -> exists s', run cs s = Some (tt, s') /\ Invariant s'.
Proof.
  revert s. induction cs as [|c cs IH]; intros s Hinv.
  { by exists s. }
  destruct (call_invariant c s Hinv) as (s1 & Hc & Hinv1).
  destruct (IH s1 Hinv1) as (s' & Hr & Hinv').
  exists s'. split; [|done]. simpl. munfold. by rewrite Hc.
Qed.

Lemma Invariant_initial clientId busy : Invariant (initial clientId busy).
Proof. repeat split; constructor. Qed.

(** C4: in every state that a run of additions, prompts, mutation requests
    and console signals reaches from a queue just constructed, the chunks
    announced as started and not as finished are exactly the units in the
    currently-executing slot, and there is at most one of them.  No such
    run faults. *)
Theorem at_most_one_unit_executing (clientId : string) (busy : bool)
    (cs : list Call) :
  exists s,
    run cs (initial clientId busy) = Some (tt, s) /\
    inFlight (clientEvents (session s)) = executing s /\
    length (executing s) <= 1.
Proof.
  destruct (run_invariant cs (initial clientId busy)
              (Invariant_initial clientId busy)) as (s & Hr & _ & _ & Hfl).
  exists s. split; [done|]. split; [done|].
  unfold executing. destruct (execUnit_ (this s)) as [a|]; simpl; [|lia].
  destruct (heap (session s) !! a); simpl; lia.
Qed.

End Progress.

(** ** The order of execution *)

Lemma flat_identsOf_keeps h h' (l : list NotebookDocQueue) :
  keepsIdents h h' ->
  Forall (fun d => Forall (fun a => a < length h) (units d)) l ->
  flat_map (fun d => identsOf h' (units d)) l =
  flat_map (fun d => identsOf h (units d)) l.
Proof.
  intros Hk. induction 1 as [|d l Hd _ IH]; [done|]. simpl.
  by rewrite IH, (identsOf_keeps _ _ _ Hk Hd).
Qed.

Lemma distinct_keeps h h' (l : list NotebookDocQueue) :
  keepsIdents h h' ->
  Forall (fun d => Forall (fun a => a < length h) (units d)) l ->
  Forall (fun d => NoDup (identsOf h (units d))) l ->
  Forall (fun d => NoDup (identsOf h' (units d))) l.
Proof.
  intros Hk. induction 1 as [|d l Hd _ IH]; [done|]. intros Hnd.
  apply Forall_cons in Hnd as [Hd1 Hd2]. constructor; [|by apply IH].
  by rewrite (identsOf_keeps _ _ _ Hk Hd).
Qed.

Lemma queuedIdents_keeps (s s' : State) :
  queue_ (this s') = queue_ (this s) ->
  keepsIdents (heap (session s)) (heap (session s')) ->
  unitsInStore s ->
  queuedIdents s' = queuedIdents s.
Proof.
  intros Hq Hk Hst. unfold queuedIdents. rewrite Hq.
  by apply flat_identsOf_keeps.
Qed.

Lemma distinctUnits_keeps (s s' : State) :
  queue_ (this s') = queue_ (this s) ->
  keepsIdents (heap (session s)) (heap (session s')) ->
  unitsInStore s ->
  distinctUnits s -> distinctUnits s'.
Proof.
  intros Hq Hk Hst Hd. unfold distinctUnits. rewrite Hq.
  by eapply distinct_keeps.
Qed.

(** A step that keeps the document queues, the current unit, the
    identities in the store and the chunks announced as started keeps the
    order. *)
Lemma Ordered_frame (supplied : list (string * string)) (s s' : State) :
  unitsInStore s ->
  Ordered supplied s ->
  queue_ (this s') = queue_ (this s) ->
  execUnit_ (this s') = execUnit_ (this s) ->
  keepsIdents (heap (session s)) (heap (session s')) ->
  startedChunks (clientEvents (session s')) =
    startedChunks (clientEvents (session s)) ->
  Ordered supplied s'.
Proof.
  intros Hst (Hfirst & Hdist & Hsup) Hq Hx Hk Hev. split; [|split].
  - unfold currentIsFirst in *. by rewrite Hx, Hq.
  - by eapply distinctUnits_keeps.
  - unfold waiting in *. by rewrite Hev, Hx, (queuedIdents_keeps s s').
Qed.

Lemma keepsIdents_submitted (a : nat) (u : NotebookQueueUnit) (s : State) :
  heap (session s) !! a = Some u ->
  keepsIdents (heap (session s)) (heap (session (submitted a u s))).
Proof.
  intros Hu. unfold submitted. simpl. eapply keepsIdents_insert; [done|].
  unfold ident. by destruct (popExecRange_ident u (mkExecRange 0 0)) as [-> ->].
Qed.

Lemma Ordered_submitted supplied (s : State) a u :
  unitsInStore s ->
  Ordered supplied s ->
  heap (session s) !! a = Some u ->
  Ordered supplied (submitted a u s).
Proof.
  intros Hst Hord Hu. apply (Ordered_frame supplied s); try done.
  - by apply keepsIdents_submitted.
  - rewrite events_submitted, startedChunks_app. simpl. by rewrite app_nil_r.
Qed.

Lemma Ordered_signalled supplied (s : State) :
  unitsInStore s -> Ordered supplied s -> Ordered supplied (signalled s).
Proof.
  intros Hst Hord. destruct (signalled_keeps s) as (Hthis & Hev & Hk).
  apply (Ordered_frame supplied s); try done; by rewrite ?Hthis, ?Hev.
Qed.

Lemma Ordered_busy supplied (b : bool) (s : State) :
  unitsInStore s -> Ordered supplied s ->
  Ordered supplied (withSession (setBusy b) s).
Proof.
  intros Hst Hord. apply (Ordered_frame supplied s); try done.
  apply keepsIdents_refl.
Qed.

(** With a current unit, the queued identities begin with its own. *)
Lemma queuedIdents_current (s : State) (a : nat) :
  unitsInStore s ->
  currentIsFirst s ->
  execUnit_ (this s) = Some a ->
  exists d rest us u,
    queue_ (this s) = d :: rest /\ units d = a :: us /\
    heap (session s) !! a = Some u /\
    queuedIdents s =
      ident u :: identsOf (heap (session s)) us ++
        flat_map (fun d => identsOf (heap (session s)) (units d)) rest.
Proof.
  intros Hst Hfirst Ha. unfold currentIsFirst in Hfirst. rewrite Ha in Hfirst.
  destruct Hfirst as (d & rest & us & Hq & Hus).
  unfold unitsInStore in Hst. rewrite Hq in Hst.
  apply Forall_cons in Hst as [Hd _]. rewrite Hus in Hd.
  apply Forall_cons in Hd as [Hlt _].
  apply lookup_lt_is_Some in Hlt as [u Hu].
  exists d, rest, us, u. repeat (split; [done|]).
  unfold queuedIdents. rewrite Hq. simpl.
  by rewrite Hus, (identsOf_cons _ _ _ u Hu).
Qed.

Lemma Ordered_added supplied (d : DocData) (s : State) :
  unitsInStore s ->
  Ordered supplied s ->
  NoDup (map ident (dataUnits d)) ->
  Ordered (supplied ++ map ident (dataUnits d)) (added d s).
Proof.
  intros Hst (Hfirst & Hdist & Hsup) Hnd.
  pose proof (keepsIdents_app (heap (session s)) (dataUnits d)) as Hk.
  assert (Hqi : queuedIdents (added d s) =
                queuedIdents s ++ map ident (dataUnits d)).
  { unfold queuedIdents, added. simpl. rewrite flat_map_app. simpl.
    rewrite app_nil_r, identsOf_seq. f_equal.
    by apply flat_identsOf_keeps. }
  split; [|split].
  - unfold currentIsFirst in *. simpl.
    destruct (execUnit_ (this s)) as [a|]; [|done].
    destruct Hfirst as (d0 & rest & us & Hq & Hus).
    exists d0, (rest ++ [(allocDoc d (heap (session s))).1]), us.
    by rewrite Hq.
  - unfold distinctUnits, added in *. simpl. apply Forall_app. split.
    + by eapply distinct_keeps.
    + constructor; [|done]. simpl. by rewrite identsOf_seq.
  - rewrite <- Hsup, <- app_assoc. f_equal.
    unfold waiting in *. rewrite Hqi.
    change (execUnit_ (this (added d s))) with (execUnit_ (this s)).
    destruct (execUnit_ (this s)) as [a|] eqn:Ha; [|done].
    destruct (queuedIdents_current s a Hst Hfirst Ha)
      as (d0 & rest & us & u & _ & _ & _ & ->).
    done.
Qed.

Lemma filter_not_same h u (l : list nat) :
  ident u ∉ identsOf h l ->
  List.filter (fun a => negb (sameIdent h u a)) l = l.
Proof.
  induction l as [|b l IH]; [done|]. intros Hnot. simpl.
  destruct (sameIdent h u b) eqn:Hs.
  - exfalso. apply Hnot. apply sameIdent_spec in Hs.
    unfold identsOf. cbn [omap list_omap]. rewrite Hs.
    apply elem_of_cons. by left.
  - simpl. f_equal. apply IH. intros Hin. apply Hnot.
    unfold identsOf in *. cbn [omap list_omap].
    destruct (ident <$> h !! b); [apply elem_of_cons; by right|done].
Qed.

Lemma Ordered_retired supplied (s : State) a u c :
  unitsInStore s ->
  Ordered supplied s ->
  execUnit_ (this s) = Some a ->
  heap (session s) !! a = Some u ->
  Ordered supplied (retired u c s).
Proof.
  intros Hst Hord Ha Hu. pose proof Hord as (Hfirst & Hdist & Hsup).
  destruct (queuedIdents_current s a Hst Hfirst Ha)
    as (d & rest & us & u' & Hq & Hus & Hu' & Hqi).
  assert (u' = u) as -> by congruence.
  unfold distinctUnits in Hdist. rewrite Hq in Hdist.
  apply Forall_cons in Hdist as [Hnd Hrest].
  rewrite Hus, (identsOf_cons _ _ _ u Hu) in Hnd.
  apply NoDup_cons in Hnd as [Hnot Hnd].
  assert (Hw : withoutUnit (heap (session s)) u (queue_ (this s)) =
               if docComplete (setUnits us d) then rest
               else setUnits us d :: rest).
  { rewrite Hq. unfold withoutUnit, docUpdate. cbn [fst].
    rewrite Hus. cbn [List.filter].
    assert (Hs : sameIdent (heap (session s)) u a = true)
      by (apply sameIdent_spec; by rewrite Hu).
    rewrite Hs. cbn [negb]. by rewrite filter_not_same. }
  assert (Hqr : queuedIdents (retired u c s) =
                identsOf (heap (session s)) us ++
                flat_map (fun d => identsOf (heap (session s)) (units d)) rest).
  { unfold queuedIdents, retired. cbn [this session queue_ heap pushEvent].
    rewrite Hw. unfold docComplete. cbn [units setUnits].
    by destruct us. }
  split; [done|]. split.
  - unfold distinctUnits, retired. cbn [this session queue_ heap pushEvent].
    rewrite Hw. unfold docComplete. cbn [units setUnits].
    destruct us; [done|]. by constructor.
  - rewrite <- Hsup. unfold waiting. rewrite Ha, Hqr, Hqi.
    rewrite events_retired, startedChunks_app. simpl. by rewrite app_nil_r.
Qed.

Lemma Ordered_selected supplied (s : State) ctx docQueue rest a us unit opts :
  unitsInStore s ->
  Ordered supplied s ->
  execUnit_ (this s) = None ->
  queue_ (this s) = docQueue :: rest ->
  units docQueue = a :: us ->
  heap (session s) !! a = Some unit ->
  Ordered supplied (selected ctx docQueue a unit opts s).
Proof.
  intros Hst (Hfirst & Hdist & Hsup) Hx Hq Hus Hu. unfold selected.
  apply Ordered_submitted; [done| |done].
  split; [|split].
  - unfold currentIsFirst. simpl. by exists docQueue, rest, us.
  - done.
  - rewrite <- Hsup. unfold waiting. simpl. rewrite Hx.
    change (queuedIdents (chosen ctx docQueue a unit opts s))
      with (queuedIdents s).
    unfold queuedIdents. rewrite Hq. simpl.
    rewrite Hus, (identsOf_cons _ _ _ unit Hu).
    rewrite startedChunks_app. simpl. by rewrite <- app_assoc.
Qed.

Lemma suppliedBy_app cs cs' :
  suppliedBy (cs ++ cs') = suppliedBy cs ++ suppliedBy cs'.
Proof. apply flat_map_app. Qed.

Lemma suppliedBy_adds (docs : list DocData) :
  suppliedBy (map CallAdd docs) =
    flat_map (fun d => map ident (dataUnits d)) docs.
Proof.
  induction docs as [|d docs IH]; [done|].
  change (suppliedBy (map CallAdd (d :: docs)))
    with (map ident (dataUnits d) ++ suppliedBy (map CallAdd docs)).
  by rewrite IH.
Qed.

Lemma suppliedBy_quiet cs : forallb quiet cs = true -> suppliedBy cs = [].
Proof.
  induction cs as [|c cs IH]; [done|]. simpl.
  intros [Hc Hcs]%andb_prop. unfold suppliedBy in *. rewrite (IH Hcs).
  by destruct c.
Qed.

Section Order.
Context `{Collaborators}.

Lemma select_ordered supplied (s : State) (e : Error) (s' : State) :
  unitsInStore s -> Ordered supplied s -> execUnit_ (this s) = None ->
  SelectStep s e s' -> Ordered supplied s'.
Proof.
  intros Hst Hord Hx. destruct 1; try done. by eapply Ordered_selected.
Qed.

Lemma process_ordered supplied (s : State) (e : Error) (s' : State) :
  Invariant s -> Ordered supplied s -> ProcessStep s e s' ->
  Ordered supplied s'.
Proof.
  intros Hinv Hord.
  destruct 1 as [?|a u ?????|a u c e s' ?? Ha Hu ?? Hsel|].
  - done.
  - apply Ordered_submitted; [apply Hinv|done|done].
  - apply (select_ordered supplied (retired u c s) e s'); try done.
    + by apply (Invariant_retired s a u c).
    + eapply Ordered_retired; [apply Hinv|done|done|done].
  - eapply select_ordered; [apply Hinv|done|done|done].
Qed.

Lemma call_ordered supplied (c : Call) (s s' : State) :
  Invariant s -> Ordered supplied s ->
  isMutation c = false -> distinctSupply [c] ->
  call c s = Some (tt, s') ->
  Ordered (supplied ++ suppliedBy [c]) s'.
Proof.
  intros Hinv Hord Hmut Hnd Hcall.
  destruct c as [d| |pUnit op before|b|]; try done;
    cbn [call] in Hcall;
    try (change (suppliedBy [_]) with (@nil (string * string));
         rewrite app_nil_r).
  - rewrite addDocument_eq in Hcall. injection Hcall as <-.
    change (suppliedBy [CallAdd d]) with (map ident (dataUnits d) ++ []).
    rewrite app_nil_r.
    apply Ordered_added; [apply Hinv|done|].
    by apply Forall_cons in Hnd as [Hnd _].
  - unfold queueOnConsolePrompt in Hcall. munfold.
    destruct (process s) as [[e s1]|] eqn:Hp; [|done].
    injection Hcall as <-. apply process_step in Hp.
    by eapply process_ordered.
  - injection Hcall as <-. apply Ordered_busy; [apply Hinv|done].
  - rewrite consoleEvalFinished_eq in Hcall by apply Hinv.
    injection Hcall as <-. apply Ordered_signalled; [apply Hinv|done].
Qed.

(** Additions, prompts and console signals in any interleaving: the run
    does not fault, and the chunks begin execution in the order of supply. *)
Lemma run_ordered (cs : list Call) supplied (s : State) :
  Invariant s -> Ordered supplied s ->
  forallb (fun c => negb (isMutation c)) cs = true ->
  distinctSupply cs ->
  exists s', run cs s = Some (tt, s') /\ Invariant s' /\
             Ordered (supplied ++ suppliedBy cs) s'.
Proof.
  revert supplied s. induction cs as [|c cs IH]; intros supplied s Hinv Hord Hm Hnd.
  { exists s. simpl. by rewrite app_nil_r. }
  simpl in Hm. apply andb_prop in Hm as [Hc Hm].
  apply Forall_cons in Hnd as [Hndc Hnd].
  destruct (call_invariant c s Hinv) as (s1 & Hcall & Hinv1).
  assert (Hord1 : Ordered (supplied ++ suppliedBy [c]) s1).
  { apply (call_ordered supplied c s s1 Hinv Hord);
      [by destruct (isMutation c)|by constructor|done]. }
  destruct (IH _ s1 Hinv1 Hord1 Hm Hnd) as (s' & Hrun & Hinv' & Hord').
  exists s'. split.
  - simpl. munfold. by rewrite Hcall.
  - split; [done|].
    change (c :: cs) with ([c] ++ cs).
    by rewrite suppliedBy_app, app_assoc.
Qed.

Lemma Ordered_initial clientId busy : Ordered [] (initial clientId busy).
Proof. repeat split; constructor. Qed.

End Order.

(** ** More on mutation *)

Lemma docUpdate_id d pUnit op before h :
  docQueueId (docUpdate d pUnit op before h).1 = docQueueId d.
Proof.
  destruct op; simpl; try done.
  destruct (findUnit h pUnit (units d)) as [a|]; [|done].
  by destruct (h !! a).
Qed.

Lemma updateQueues_ids pUnit op before l h :
  map docQueueId (updateQueues pUnit op before l h).1 = map docQueueId l.
Proof.
  induction l as [|d l IH]; [done|]. simpl.
  destruct (String.eqb _ _).
  - pose proof (docUpdate_id d pUnit op before h) as Hid.
    destruct (docUpdate d pUnit op before h). simpl in *. by rewrite Hid.
  - destruct (updateQueues pUnit op before l h). simpl in *. by rewrite IH.
Qed.

Lemma updateQueues_first_match pUnit op before l1 d l2 h :
  Forall (fun x => docQueueId x <> docId pUnit) l1 ->
  docQueueId d = docId pUnit ->
  updateQueues pUnit op before (l1 ++ d :: l2) h =
    (l1 ++ (docUpdate d pUnit op before h).1 :: l2,
     (docUpdate d pUnit op before h).2).
Proof.
  intros Hl1 Hd. induction Hl1 as [|x l1 Hx _ IH]; simpl.
  - rewrite Hd, String.eqb_refl. by destruct (docUpdate d pUnit op before h).
  - destruct (String.eqb_spec (docQueueId x) (docId pUnit)); [done|].
    by rewrite IH.
Qed.

Lemma docUpdate_units_kept d pUnit op before h :
  op <> QueueUpdate ->
  forall a u, h !! a = Some u ->
    (docUpdate d pUnit op before h).2 !! a = Some u.
Proof.
  intros Hop a u Hu. destruct op; simpl; try done.
  by apply lookup_app_l_Some.
Qed.

Lemma updateQueues_units_kept pUnit op before l h :
  op <> QueueUpdate ->
  forall a u, h !! a = Some u ->
    (updateQueues pUnit op before l h).2 !! a = Some u.
Proof.
  intros Hop a u Hu. induction l as [|d l IH]; [done|]. simpl.
  destruct (String.eqb _ _).
  - pose proof (docUpdate_units_kept d pUnit op before h Hop a u Hu) as Hk.
    by destruct (docUpdate d pUnit op before h).
  - by destruct (updateQueues pUnit op before l h).
Qed.

(** X1: [update] never fails and never faults, whatever the operation.
    It keeps the address in the currently-executing slot, the execution
    context, the console input, the client id, the client events, R's state
    and the ids and order of the document queues: no document queue is
    added or removed, also when the last unit of one is deleted.  Every
    stored unit keeps its identity, and unless the operation is
    update-in-place every stored unit is left as it is. *)
Theorem update_edits_units_only (s : State) (pUnit : NotebookQueueUnit)
    (op : QueueOperation) (before : string) :
  exists s',
    update pUnit op before s = Some (Success, s') /\
    execUnit_ (this s') = execUnit_ (this s) /\
    execContext_ (this s') = execContext_ (this s) /\
    input_ (this s') = input_ (this s) /\
    clientId_ (this s') = clientId_ (this s) /\
    clientEvents (session s') = clientEvents (session s) /\
    rBusy (session s') = rBusy (session s) /\
    map docQueueId (queue_ (this s')) = map docQueueId (queue_ (this s)) /\
    keepsIdents (heap (session s)) (heap (session s')) /\
    (op <> QueueUpdate ->
       forall a u, heap (session s) !! a = Some u ->
         heap (session s') !! a = Some u).
Proof.
  exists (updated pUnit op before s). split; [apply update_eq|].
  repeat (split; [done|]). split; [apply updateQueues_ids|].
  split; [apply updateQueues_keeps|].
  intros Hop a u Hu. by apply updateQueues_units_kept.
Qed.

(** X2: [update] edits the first document queue whose id is the unit's
    document id and stops there: the document queues before it and after
    it are left as they were, also a later one with the same id. *)
Theorem update_edits_first_match_only (s : State) (pUnit : NotebookQueueUnit)
    (op : QueueOperation) (before : string)
    (l1 : list NotebookDocQueue) (d : NotebookDocQueue)
    (l2 : list NotebookDocQueue) :
  queue_ (this s) = l1 ++ d :: l2 ->
  Forall (fun x => docQueueId x <> docId pUnit) l1 ->
  docQueueId d = docId pUnit ->
  exists s',
    update pUnit op before s = Some (Success, s') /\
    queue_ (this s') =
      l1 ++ (docUpdate d pUnit op before (heap (session s))).1 :: l2 /\
    heap (session s') = (docUpdate d pUnit op before (heap (session s))).2.
Proof.
  intros Hq Hl1 Hd. exists (updated pUnit op before s).
  split; [apply update_eq|]. unfold updated. simpl.
  by rewrite Hq, updateQueues_first_match.
Qed.

Section Requests.
Context `{Collaborators}.

(** X3: a mutation request whose parameters cannot be read, or whose unit
    JSON does not convert into a unit, returns that error and changes
    nothing, whether or not a queue exists. *)
Theorem updateExecQueue_unreadable (request : JsonRpcRequest) (w : World)
    (e : string) :
  readUpdateParams (params request) = inl e \/
  (exists unitJson op before,
     readUpdateParams (params request) = inr (unitJson, op, before) /\
     unitFromJson unitJson = inl e) ->
  updateExecQueue request w = Some (Failure e, w).
Proof.
  intros [Hr|(unitJson & op & before & Hr & Hu)]; unfold updateExecQueue.
  - by rewrite Hr.
  - by rewrite Hr, Hu.
Qed.

(** X4: a mutation request that is read and names an operation of the
    enumeration returns success in every case: no queue, no document queue
    of that id, or no unit of that identity.  Without a queue it changes
    nothing; with one it is [update] on that queue.  It never creates or
    drops the queue, and it keeps the address in the currently-executing
    slot, the execution context, the console input, the client events and
    the identity of every stored unit. *)
Theorem updateExecQueue_readable (request : JsonRpcRequest) (w : World)
    (unitJson : JsonObject) (op : Z) (before : string)
    (pUnit : NotebookQueueUnit) (o : QueueOperation) :
  readUpdateParams (params request) = inr (unitJson, op, before) ->
  unitFromJson unitJson = inr pUnit ->
  queueOperationOfInt op = Some o ->
  exists w',
    updateExecQueue request w = Some (Success, w') /\
    (s_queue w = None -> w' = w) /\
    (forall q, s_queue w = Some q ->
       w' = leave (updated pUnit o before (enter q w))) /\
    execUnit_ <$> s_queue w' = execUnit_ <$> s_queue w /\
    execContext_ <$> s_queue w' = execContext_ <$> s_queue w /\
    input_ <$> s_queue w' = input_ <$> s_queue w /\
    clientEvents (world w') = clientEvents (world w) /\
    keepsIdents (heap (world w)) (heap (world w')).
Proof.
  intros Hr Hu Ho. unfold updateExecQueue. rewrite Hr, Hu.
  destruct (s_queue w) as [q|] eqn:Hq.
  - rewrite Ho, update_eq. simpl. eexists. split; [done|].
    split; [done|]. split; [by intros ? [= <-]|].
    repeat (split; [done|]). apply updateQueues_keeps.
  - exists w. rewrite Hq. repeat (split; [done|]). apply keepsIdents_refl.
Qed.

(** [executeNotebookChunks] on a document that converts: the document
    queue is added to the queue there is, or to a new one under the
    request's client id, and [process] runs once. *)
Lemma executeNotebookChunks_eq (request : JsonRpcRequest) (w : World)
    (d : DocData) :
  docFromJson (readDocParams (params request)).2 = inr d ->
  executeNotebookChunks request w =
    match process (added d (mkState (queueFor request w) (world w))) with
    | Some (_, s) => Some (Success, leave s)
    | None => None
    end.
Proof.
  intros Hd. unfold executeNotebookChunks.
  destruct (readDocParams (params request)) as [err docObj]. simpl in Hd.
  rewrite Hd. unfold queueFor. munfold. done.
Qed.

(** X5: a new-document request whose document converts returns success
    whatever [process] returned: an option-parse error met while selecting
    the first unit is not passed on to the requester. *)
Theorem executeNotebookChunks_drops_process_error (request : JsonRpcRequest)
    (w : World) (d : DocData) (e : Error) (s' : State) :
  docFromJson (readDocParams (params request)).2 = inr d ->
  process (added d (mkState (queueFor request w) (world w))) = Some (e, s') ->
  executeNotebookChunks request w = Some (Success, leave s').
Proof.
  intros Hd Hp. by rewrite (executeNotebookChunks_eq request w d Hd), Hp.
Qed.

(** X6: while R is evaluating, a new-document request only queues the
    document: its units enter the store and its document queue goes to the
    back of the queue there is (a new one under the request's client id
    when there is none); no unit is selected, nothing is submitted and no
    event is emitted. *)
Theorem executeNotebookChunks_while_busy (request : JsonRpcRequest)
    (w : World) (d : DocData) :
  docFromJson (readDocParams (params request)).2 = inr d ->
  rBusy (world w) = true ->
  exists q,
    executeNotebookChunks request w =
      Some (Success,
            mkWorld (Some q) (setHeap (heap (world w) ++ dataUnits d) (world w))) /\
    queue_ q =
      queue_ (queueFor request w) ++
        [mkDocQueue (dataDocId d) (dataPixelWidth d) (dataCharWidth d)
           (seq (length (heap (world w))) (length (dataUnits d)))] /\
    execUnit_ q = execUnit_ (queueFor request w) /\
    execContext_ q = execContext_ (queueFor request w) /\
    input_ q = input_ (queueFor request w) /\
    clientId_ q = clientId_ (queueFor request w).
Proof.
  intros Hd Hb. rewrite (executeNotebookChunks_eq request w d Hd).
  rewrite process_busy by done.
  eexists. split; [reflexivity|]. done.
Qed.

End Requests.

(** ** More on process *)

Lemma queue_submitted a u (s : State) :
  queue_ (this (submitted a u s)) = queue_ (this s).
Proof. done. Qed.

Lemma withoutUnit_tail h u (l : list NotebookDocQueue) :
  withoutUnit h u l = tail l \/
  (withoutUnit h u l <> [] /\ tail (withoutUnit h u l) = tail l).
Proof.
  destruct l as [|d rest]; [by left|]. simpl.
  destruct (docComplete _); [by left|by right].
Qed.

Section ProcessFacts.
Context `{Collaborators}.

Lemma select_queue (s : State) (e : Error) (s' : State) :
  SelectStep s e s' ->
  queue_ (this s') = queue_ (this s) /\
  clientId_ (this s') = clientId_ (this s).
Proof. by destruct 1. Qed.

(** X7: the only error [process] returns is an option-parse error.  It is
    the error of the first unit of the first document queue as the step
    leaves them; R was idle, and no unit is current afterwards. *)
Theorem process_fails_on_options_only (s : State) (e : string) (s' : State) :
  process s = Some (Failure e, s') ->
  rBusy (session s) = false /\
  execUnit_ (this s') = None /\
  exists docQueue rest a us unit,
    queue_ (this s') = docQueue :: rest /\
    units docQueue = a :: us /\
    heap (session s') !! a = Some unit /\
    parseOptions unit = inl e.
Proof.
  intros Hp. apply process_step in Hp.
  inversion Hp as [|a u ? Hb| a u c e0 s0 ? Hb Ha Hu Hc Hcomp Hsel
                   |e0 s0 ? Hb Ha Hsel]; subst.
  - inversion Hsel; subst. split; [done|]. split; [done|].
    by eexists _, _, _, _, _.
  - inversion Hsel; subst. split; [done|]. split; [done|].
    by eexists _, _, _, _, _.
Qed.

(** X8: one [process] step puts on the client event queue nothing, or one
    range-executed, or chunk-finished alone, or chunk-started with the
    range-executed of the same chunk, or chunk-finished followed by that
    pair.  So a step finishes at most one chunk and starts at most one, and
    a chunk announced as started has its first range announced in the same
    step. *)
Theorem process_emits_one_of_five (s : State) (e : Error) (s' : State) :
  process s = Some (e, s') ->
  emitted s s' = [] \/
  (exists d c r, emitted s s' = [NotebookRangeExecuted d c r]) \/
  (exists d c, emitted s s' = [isFinished d c]) \/
  (exists d c r,
     emitted s s' = [isStarted d c; NotebookRangeExecuted d c r]) \/
  (exists d c d' c' r,
     emitted s s' =
       [isFinished d c; isStarted d' c'; NotebookRangeExecuted d' c' r]).
Proof.
  intros Hp. apply process_step in Hp.
  destruct Hp as [_|a u _ _ _ _ _|a u c e s' _ _ _ _ _ _ Hsel|e s' _ _ _ Hsel].
  - left. apply emitted_refl.
  - right; left. eexists _, _, _. apply emitted_app, events_submitted.
  - destruct Hsel.
    1-3: right; right; left; eexists _, _; by apply emitted_app.
    do 4 right. eexists _, _, _, _, _. apply emitted_app.
    rewrite events_selected, events_retired, <- app_assoc. done.
  - destruct Hsel.
    1-3: left; apply emitted_refl.
    do 3 right. left. eexists _, _, _. apply emitted_app, events_selected.
Qed.

Lemma process_queue_change (s : State) (e : Error) (s' : State) :
  ProcessStep s e s' ->
  clientId_ (this s') = clientId_ (this s) /\
  (queue_ (this s') = queue_ (this s) \/
   execUnit_ (this s) <> None /\
   (queue_ (this s') = tail (queue_ (this s)) \/
    queue_ (this s') <> [] /\
    tail (queue_ (this s')) = tail (queue_ (this s)))).
Proof.
  destruct 1 as [_|a u _ _ _ _ _|a u c e s' _ _ Ha _ _ _ Hsel|e s' _ _ _ Hsel].
  - split; [done|by left].
  - split; [done|by left].
  - apply select_queue in Hsel as [-> ->]. split; [done|].
    right. split; [by rewrite Ha|]. simpl.
    apply withoutUnit_tail.
  - apply select_queue in Hsel as [-> ->]. split; [done|by left].
Qed.

Lemma process_emptied (s : State) (e : Error) (s' : State) :
  ProcessStep s e s' ->
  queue_ (this s) <> [] ->
  queue_ (this s') = [] ->
  execUnit_ (this s') = None.
Proof.
  destruct 1 as [_|a u _ _ _ _ _|a u c e s' _ _ _ _ _ _ Hsel|e s' _ _ _ Hsel];
    intros Hne Hq; try done.
  - destruct Hsel as [| | |docQueue rest a0 us unit opts Hq0 _ _ _]; try done.
    change (queue_ (this (retired u c s)) = []) in Hq. congruence.
  - apply select_queue in Hsel as [Hsame _]. congruence.
Qed.

Lemma list_filter_sublist {A} (f : A -> bool) (l : list A) :
  List.filter f l `sublist_of` l.
Proof.
  induction l as [|x l IH]; [done|]. simpl.
  destruct (f x); [by apply sublist_skip|by apply sublist_cons].
Qed.

Lemma withoutUnit_cases h u (d : NotebookDocQueue)
    (rest : list NotebookDocQueue) :
  withoutUnit h u (d :: rest) = rest \/
  exists us', withoutUnit h u (d :: rest) = setUnits us' d :: rest /\
              us' <> [] /\ us' `sublist_of` units d.
Proof.
  unfold withoutUnit, docUpdate. cbn [fst].
  pose proof (list_filter_sublist
                (fun a => negb (sameIdent h u a)) (units d)) as Hsub.
  unfold docComplete. cbn [units setUnits].
  destruct (List.filter _ (units d)) as [|b l]; [by left|].
  right. by exists (b :: l).
Qed.

Lemma process_queue_detail (s : State) (e : Error) (s' : State) :
  ProcessStep s e s' ->
  queue_ (this s') = queue_ (this s) \/
  execUnit_ (this s) <> None /\
  exists d rest,
    queue_ (this s) = d :: rest /\
    (queue_ (this s') = rest \/
     exists us', queue_ (this s') = setUnits us' d :: rest /\
                 us' <> [] /\ us' `sublist_of` units d).
Proof.
  destruct 1 as [_|a u _ _ _ _ _|a u c e s' Hne _ Ha _ _ _ Hsel|e s' _ _ _ Hsel].
  - by left.
  - by left.
  - apply select_queue in Hsel as [-> _].
    right. split; [by rewrite Ha|].
    destruct (queue_ (this s)) as [|d rest] eqn:Hq; [done|].
    exists d, rest. split; [done|]. simpl. rewrite Hq.
    apply withoutUnit_cases.
  - apply select_queue in Hsel as [-> _]. by left.
Qed.

(** X9: [process] never adds a document queue and never reorders them, and
    it keeps the client id.  Without a current unit it leaves the list of
    document queues as it is.  With one it leaves the list as it is, or
    drops the first document queue, or keeps the first with its id and
    widths and with a non-empty sub-sequence of its units; every document
    queue behind the first stays as it is. *)
Theorem process_drops_first_queue_only (s : State) (e : Error) (s' : State) :
  process s = Some (e, s') ->
  clientId_ (this s') = clientId_ (this s) /\
  (queue_ (this s') = queue_ (this s) \/
   execUnit_ (this s) <> None /\
   exists d rest,
     queue_ (this s) = d :: rest /\
     (queue_ (this s') = rest \/
      exists us', queue_ (this s') = setUnits us' d :: rest /\
                  us' <> [] /\ us' `sublist_of` units d)).
Proof.
  intros Hp. apply process_step in Hp. split.
  - by apply (process_queue_change s e s').
  - by apply (process_queue_detail s e s').
Qed.

(** X10: a complete document queue at the front, with no unit current,
    blocks the queue.  [process] does nothing then, and no run of
    additions, prompts and console signals gets past it: the complete
    document queue stays first, no unit becomes current, nothing is
    submitted and no event is emitted, however many documents are queued
    behind it. *)
Theorem complete_front_queue_blocks (s : State) (d : NotebookDocQueue)
    (rest : list NotebookDocQueue) :
  queue_ (this s) = d :: rest ->
  docComplete d = true ->
  execUnit_ (this s) = None ->
  process s = Some (Success, s) /\
  forall cs, noMutation cs = true ->
    exists s' rest',
      run cs s = Some (tt, s') /\
      queue_ (this s') = d :: rest' /\
      execUnit_ (this s') = None /\
      input_ (this s') = input_ (this s) /\
      clientEvents (session s') = clientEvents (session s).
Proof.
  intros Hq Hd Hx.
  assert (Hidle : forall t r, queue_ (this t) = d :: r ->
            execUnit_ (this t) = None -> process t = Some (Success, t)).
  { intros t r Ht Htx. destruct (rBusy (session t)) eqn:Hb.
    - by apply process_busy.
    - rewrite process_idle by (try done; by rewrite Ht).
      by eapply executeNextUnit_complete. }
  split; [by eapply Hidle|].
  intros cs. revert s rest Hq Hx.
  induction cs as [|c cs IH]; intros s rest Hq Hx Hcs.
  { by exists s, rest. }
  simpl in Hcs. apply andb_prop in Hcs as [Hc Hcs].
  assert (Hstep : exists s1 rest1,
            call c s = Some (tt, s1) /\ queue_ (this s1) = d :: rest1 /\
            execUnit_ (this s1) = None /\
            input_ (this s1) = input_ (this s) /\
            clientEvents (session s1) = clientEvents (session s)).
  { destruct c as [doc| |p op bf|b|]; try done.
    - exists (added doc s), (rest ++ [(allocDoc doc (heap (session s))).1]).
      split; [done|]. simpl. by rewrite Hq.
    - exists s, rest. simpl. unfold queueOnConsolePrompt. munfold.
      by rewrite (Hidle s rest Hq Hx).
    - exists (withSession (setBusy b) s), rest. done.
    - exists s, rest. simpl. unfold consoleEvalFinished. munfold.
      rewrite Hx. by destruct (execContext_ (this s)). }
  destruct Hstep as (s1 & rest1 & Hcall & Hq1 & Hx1 & Hi1 & He1).
  destruct (IH s1 rest1 Hq1 Hx1 Hcs) as (s' & rest' & Hrun & Hq' & Hx' & Hi' & He').
  exists s', rest'. split.
  - simpl. munfold. by rewrite Hcall.
  - by rewrite Hi', He', Hi1, He1.
Qed.

End ProcessFacts.

(** ** The context and the order of events are kept by every call *)

Lemma phaseAfter_app p l k :
  phaseAfter p (l ++ k) =
    match phaseAfter p l with
    | Some p' => phaseAfter p' k
    | None => None
    end.
Proof.
  revert p. induction l as [|ev l IH]; intros p; [done|]. simpl.
  destruct (phaseStep p ev); [apply IH|done].
Qed.

Lemma rangeChunks_app l k : rangeChunks (l ++ k) = rangeChunks l ++ rangeChunks k.
Proof. apply omap_app. Qed.

Lemma ContextMatches_frame (s s' : State) :
  ContextMatches s ->
  execUnit_ (this s') = execUnit_ (this s) ->
  execContext_ (this s') = execContext_ (this s) ->
  keepsIdents (heap (session s)) (heap (session s')) ->
  ContextMatches s'.
Proof.
  intros Hc Hx Hctx [_ Hk]. unfold ContextMatches in *. rewrite Hx, Hctx.
  destruct (execUnit_ (this s)) as [a|]; [|done].
  destruct Hc as (u & c & Hu & Hc & Hcon & Hd & Hch).
  specialize (Hk a u Hu).
  destruct (heap (session s') !! a) as [u'|]; [|done].
  assert (Hid : ident u' = ident u) by (simpl in Hk; congruence).
  exists u', c. repeat (split; [done|]).
  unfold ident in Hid. split; congruence.
Qed.

Lemma phaseOf_frame (s s' : State) :
  ContextMatches s ->
  execUnit_ (this s') = execUnit_ (this s) ->
  keepsIdents (heap (session s)) (heap (session s')) ->
  phaseOf s' = phaseOf s.
Proof.
  intros Hc Hx [_ Hk]. unfold phaseOf, ContextMatches in *. rewrite Hx.
  destruct (execUnit_ (this s)) as [a|]; [|done].
  destruct Hc as (u & c & Hu & _). specialize (Hk a u Hu). rewrite Hu.
  destruct (heap (session s') !! a) as [u'|]; [|done].
  simpl in Hk. congruence.
Qed.

Lemma Protocol_frame (s s' : State) :
  Protocol s ->
  ContextMatches s ->
  execUnit_ (this s') = execUnit_ (this s) ->
  keepsIdents (heap (session s)) (heap (session s')) ->
  clientEvents (session s') = clientEvents (session s) ->
  Protocol s'.
Proof.
  intros Hp Hc Hx Hk Hev. unfold Protocol in *.
  by rewrite Hev, (phaseOf_frame s s').
Qed.

Lemma Settled_frame (s s' : State) :
  Settled s ->
  Invariant s' ->
  execUnit_ (this s') = execUnit_ (this s) ->
  execContext_ (this s') = execContext_ (this s) ->
  keepsIdents (heap (session s)) (heap (session s')) ->
  clientEvents (session s') = clientEvents (session s) ->
  Settled s'.
Proof.
  intros (Hinv & Hc & Hp) Hinv' Hx Hctx Hk Hev. split; [done|]. split.
  - by eapply ContextMatches_frame.
  - by eapply Protocol_frame.
Qed.

Lemma Settled_submitted (s : State) a u :
  Settled s ->
  execUnit_ (this s) = Some a ->
  heap (session s) !! a = Some u ->
  Settled (submitted a u s).
Proof.
  intros (Hinv & Hc & Hp) Ha Hu.
  pose proof (keepsIdents_submitted a u s Hu) as Hk.
  split; [by apply Invariant_submitted|]. split.
  - by apply (ContextMatches_frame s).
  - unfold Protocol in *.
    rewrite (phaseOf_frame s) by done.
    rewrite events_submitted, phaseAfter_app, Hp.
    unfold phaseOf. rewrite Ha, Hu. simpl.
    change (identEqb (ident u) (docId u, chunkId u))
      with (identEqb (ident u) (ident u)).
    by rewrite identEqb_refl.
Qed.

Lemma Settled_retired (s : State) a u c :
  Settled s ->
  execUnit_ (this s) = Some a ->
  heap (session s) !! a = Some u ->
  Settled (retired u c s).
Proof.
  intros (Hinv & Hc & Hp) Ha Hu.
  split; [by eapply Invariant_retired|]. split.
  - done.
  - unfold Protocol in *. rewrite events_retired, phaseAfter_app, Hp.
    unfold phaseOf. rewrite Ha, Hu. simpl.
    change (identEqb (ident u) (docId u, chunkId u))
      with (identEqb (ident u) (ident u)).
    by rewrite identEqb_refl.
Qed.

Lemma Settled_selected (s : State) ctx docQueue a unit opts :
  Settled s ->
  execUnit_ (this s) = None ->
  heap (session s) !! a = Some unit ->
  Settled (selected ctx docQueue a unit opts s).
Proof.
  intros (Hinv & Hc & Hp) Hx Hu.
  split; [by apply Invariant_selected|]. split.
  - unfold selected.
    apply (ContextMatches_frame (chosen ctx docQueue a unit opts s));
      [|done|done|by apply keepsIdents_submitted].
    unfold ContextMatches. simpl. by eexists _, _.
  - unfold Protocol in *. rewrite events_selected, phaseAfter_app, Hp.
    unfold phaseOf at 1. rewrite Hx. simpl.
    change (identEqb (docId unit, chunkId unit) (docId unit, chunkId unit))
      with (identEqb (ident unit) (ident unit)).
    rewrite identEqb_refl.
    unfold phaseOf, selected, submitted. simpl.
    rewrite list_lookup_insert_eq by (by eapply lookup_lt_Some).
    unfold ident.
    by destruct (popExecRange_ident unit (mkExecRange 0 0)) as [-> ->].
Qed.

Lemma Settled_updated (s : State) pUnit op before :
  Settled s -> Settled (updated pUnit op before s).
Proof.
  intros Hs. apply (Settled_frame s); try done.
  - apply Invariant_updated, Hs.
  - apply updateQueues_keeps.
Qed.

Lemma Settled_added (d : DocData) (s : State) :
  Settled s -> Settled (added d s).
Proof.
  intros Hs. apply (Settled_frame s); try done.
  - apply Invariant_added, Hs.
  - apply keepsIdents_app.
Qed.

Lemma Settled_signalled (s : State) :
  Settled s -> Settled (signalled s).
Proof.
  intros Hs. destruct (signalled_keeps s) as (Hthis & Hev & Hk).
  apply (Settled_frame s); try done; try (by rewrite Hthis).
  apply Invariant_signalled, Hs.
Qed.

Lemma Settled_busy (b : bool) (s : State) :
  Settled s -> Settled (withSession (setBusy b) s).
Proof.
  intros Hs. apply (Settled_frame s); try done.
  - apply Invariant_busy, Hs.
  - apply keepsIdents_refl.
Qed.

Section SettledSteps.
Context `{Collaborators}.

Lemma select_settled (s : State) (e : Error) (s' : State) :
  Settled s -> execUnit_ (this s) = None -> SelectStep s e s' -> Settled s'.
Proof.
  intros Hs Hx. destruct 1; try done. by apply Settled_selected.
Qed.

Lemma process_settled (s : State) (e : Error) (s' : State) :
  Settled s -> ProcessStep s e s' -> Settled s'.
Proof.
  intros Hs. destruct 1 as [?|a u ?????|a u c e s' ?? Ha Hu ?? Hsel|].
  - done.
  - by apply Settled_submitted.
  - apply (select_settled (retired u c s) e s');
      [by eapply Settled_retired|done|done].
  - by eapply select_settled.
Qed.

Lemma process_total (s : State) :
  Settled s -> exists e s', process s = Some (e, s') /\ Settled s'.
Proof.
  intros Hs. destruct (process_progress s) as (e & s' & Hstep); [apply Hs|].
  exists e, s'. split; [by apply process_step|by eapply process_settled].
Qed.

Lemma call_settled (c : Call) (s : State) :
  Settled s -> exists s', call c s = Some (tt, s') /\ Settled s'.
Proof.
  intros Hs. destruct c as [d| |pUnit op before|b|]; simpl.
  - eexists. split; [apply addDocument_eq|]. by apply Settled_added.
  - destruct (process_total s Hs) as (e & s' & Hp & Hs').
    exists s'. split; [|done].
    unfold queueOnConsolePrompt. munfold. by rewrite Hp.
  - eexists. split.
    + munfold. by rewrite update_eq.
    + by apply Settled_updated.
  - eexists. split; [done|]. by apply Settled_busy.
  - eexists. split; [apply consoleEvalFinished_eq; apply Hs|].
    by apply Settled_signalled.
Qed.

Lemma run_settled (cs : list Call) (s : State) :
  Settled s -> exists s', run cs s = Some (tt, s') /\ Settled s'.
Proof.
  revert s. induction cs as [|c cs IH]; intros s Hs.
  { by exists s. }
  destruct (call_settled c s Hs) as (s1 & Hc & Hs1).
  destruct (IH s1 Hs1) as (s' & Hr & Hs').
  exists s'. split; [|done]. simpl. munfold. by rewrite Hc.
Qed.

End SettledSteps.

Lemma Settled_fresh (clientId : string) (e : Session) :
  inFlight (clientEvents e) = [] ->
  phaseAfter Idle (clientEvents e) = Some Idle ->
  Settled (mkState (mkQueue clientId [] None None []) e).
Proof.
  intros Hfl Hp. split; [|split].
  - split; [constructor|]. split; [done|]. done.
  - done.
  - done.
Qed.

(** ** The world between arrivals *)

Section WorldSteps.
Context `{Collaborators}.

Lemma Settled_queueFor (request : JsonRpcRequest) (w : World) :
  WorldInvariant w -> Settled (mkState (queueFor request w) (world w)).
Proof.
  unfold WorldInvariant, queueFor. destruct (s_queue w) as [q|].
  - by intros [Hs _].
  - intros [Hfl Hp]. by apply Settled_fresh.
Qed.

Lemma WorldInvariant_leave (s : State) :
  Settled s -> queue_ (this s) <> [] -> WorldInvariant (leave s).
Proof.
  intros Hs Hq. unfold WorldInvariant, leave. simpl.
  by rewrite state_eta.
Qed.

Lemma WorldInvariant_dropped (s : State) :
  Settled s -> execUnit_ (this s) = None ->
  WorldInvariant (mkWorld None (session s)).
Proof.
  intros ((_ & _ & Hfl) & _ & Hp) Hx. unfold WorldInvariant. simpl.
  unfold Protocol, phaseOf in Hp. unfold executing in Hfl.
  by rewrite Hx in Hfl, Hp.
Qed.

Lemma executeNotebookChunks_invariant (request : JsonRpcRequest) (w : World) :
  WorldInvariant w ->
  exists e w', executeNotebookChunks request w = Some (e, w') /\
               WorldInvariant w'.
Proof.
  intros Hw.
  destruct (docFromJson (readDocParams (params request)).2) as [err|d] eqn:Hd.
  { exists (Failure err), w. split; [|done]. unfold executeNotebookChunks.
    destruct (readDocParams (params request)) as [e0 docObj]. simpl in Hd.
    by rewrite Hd. }
  rewrite (executeNotebookChunks_eq request w d Hd).
  pose proof (Settled_queueFor request w Hw) as Hs0.
  set (s0 := mkState (queueFor request w) (world w)) in *.
  destruct (process_total (added d s0)) as (e & s' & Hp & Hs');
    [by apply Settled_added|].
  rewrite Hp. exists Success, (leave s'). split; [done|].
  apply WorldInvariant_leave; [done|].
  apply process_step, process_queue_change in Hp as [_ Hq].
  assert (Hadded : queue_ (this (added d s0)) =
                   queue_ (queueFor request w) ++
                     [(allocDoc d (heap (world w))).1]) by done.
  destruct Hq as [Hq|[Hx [Hq|[Hq _]]]]; [| |done].
  - rewrite Hq, Hadded. by destruct (queue_ (queueFor request w)).
  - rewrite Hq, Hadded.
    change (execUnit_ (this (added d s0)))
      with (execUnit_ (queueFor request w)) in Hx.
    unfold WorldInvariant, queueFor in *.
    destruct (s_queue w) as [q|]; [|done].
    destruct Hw as [_ Hne]. destruct (queue_ q) as [|x [|y r]]; done.
Qed.

Lemma updateExecQueue_invariant (request : JsonRpcRequest) (w : World) :
  WorldInvariant w ->
  exists e w', updateExecQueue request w = Some (e, w') /\ WorldInvariant w'.
Proof.
  intros Hw. unfold updateExecQueue.
  destruct (readUpdateParams (params request)) as [err|[[unitJson op] before]];
    [by exists (Failure err), w|].
  destruct (unitFromJson unitJson) as [err|pUnit]; [by exists (Failure err), w|].
  destruct (s_queue w) as [q|] eqn:Hq; [|by exists Success, w].
  destruct (queueOperationOfInt op) as [o|]; [|by exists Success, w].
  rewrite update_eq. simpl. eexists _, _. split; [done|].
  unfold WorldInvariant in Hw. rewrite Hq in Hw. destruct Hw as [Hs Hne].
  apply WorldInvariant_leave.
  - by apply Settled_updated.
  - by apply updated_nonempty.
Qed.

Lemma onConsolePrompt_invariant (prompt : string) (w : World) :
  WorldInvariant w ->
  exists w', onConsolePrompt prompt w = Some w' /\ WorldInvariant w'.
Proof.
  intros Hw. unfold onConsolePrompt.
  destruct (s_queue w) as [q|] eqn:Hq; [|by exists w].
  pose proof Hw as Hw'. unfold WorldInvariant in Hw'. rewrite Hq in Hw'.
  destruct Hw' as [Hs Hne].
  destruct (process_total (enter q w) Hs) as (e & s' & Hp & Hs').
  unfold queueOnConsolePrompt. munfold. rewrite Hp. simpl.
  unfold complete. destruct (queue_ (this s')) as [|d l] eqn:Hq'.
  - eexists. split; [done|]. apply WorldInvariant_dropped; [done|].
    apply process_step in Hp. by eapply process_emptied.
  - eexists. split; [done|]. apply WorldInvariant_leave; [done|].
    by rewrite Hq'.
Qed.

Lemma arrive_invariant (a : Arrival) (w : World) :
  WorldInvariant w -> exists w', arrive a w = Some w' /\ WorldInvariant w'.
Proof.
  intros Hw. destruct a as [request|request|prompt|b|]; simpl.
  - destruct (executeNotebookChunks_invariant request w Hw)
      as (e & w' & -> & Hw'). by exists w'.
  - destruct (updateExecQueue_invariant request w Hw)
      as (e & w' & -> & Hw'). by exists w'.
  - by apply onConsolePrompt_invariant.
  - eexists. split; [done|]. unfold WorldInvariant in *. simpl.
    destruct (s_queue w) as [q|]; [|done].
    destruct Hw as [Hs Hne]. split; [|done].
    by apply (Settled_busy b (mkState q (world w))).
  - destruct (s_queue w) as [q|] eqn:Hq; [|by exists w].
    unfold WorldInvariant in Hw. rewrite Hq in Hw. destruct Hw as [Hs Hne].
    rewrite consoleEvalFinished_eq by apply Hs. simpl.
    eexists. split; [done|].
    apply WorldInvariant_leave; [by apply Settled_signalled|].
    destruct (signalled_keeps (enter q w)) as (-> & _). done.
Qed.

Lemma arrivals_invariant (l : list Arrival) (w : World) :
  WorldInvariant w -> exists w', arrivals l w = Some w' /\ WorldInvariant w'.
Proof.
  revert w. induction l as [|a l IH]; intros w Hw.
  { by exists w. }
  destruct (arrive_invariant a w Hw) as (w1 & Ha & Hw1).
  destruct (IH w1 Hw1) as (w' & Hl & Hw').
  exists w'. split; [|done]. simpl. by rewrite Ha.
Qed.

Lemma WorldInvariant_boot (busy : bool) : WorldInvariant (boot busy).
Proof. done. Qed.

(** X11: whatever requests, prompts and console signals arrive at a
    session that starts without a queue, and in whatever order, no handler
    dereferences a null pointer, and between arrivals the static queue is
    never left without a document queue: it exists only while it holds
    one. *)
Theorem queue_exists_only_while_it_holds_a_document (busy : bool)
    (l : list Arrival) :
  exists w,
    arrivals l (boot busy) = Some w /\
    match s_queue w with
    | Some q => queue_ q <> [] /\ complete q = false
    | None => True
    end.
Proof.
  destruct (arrivals_invariant l (boot busy) (WorldInvariant_boot busy))
    as (w & Hl & Hw).
  exists w. split; [done|]. unfold WorldInvariant in Hw.
  destruct (s_queue w) as [q|]; [|done]. destruct Hw as [_ Hne].
  split; [done|]. unfold complete. by destruct (queue_ q).
Qed.

(** X12: across the whole life of the session, with queues created and
    dropped in between, the chunks announced to the client as started and
    not as finished are exactly the unit in the slot of the queue there
    is, and none when there is no queue; so at most one chunk is in flight,
    and the queue is never dropped while a chunk is. *)
Theorem in_flight_is_the_current_unit_of_the_live_queue (busy : bool)
    (l : list Arrival) :
  exists w,
    arrivals l (boot busy) = Some w /\
    inFlight (clientEvents (world w)) = executingIn w /\
    length (executingIn w) <= 1.
Proof.
  destruct (arrivals_invariant l (boot busy) (WorldInvariant_boot busy))
    as (w & Hl & Hw).
  exists w. split; [done|]. unfold WorldInvariant, executingIn in *.
  destruct (s_queue w) as [q|].
  - destruct Hw as [((_ & _ & Hfl) & _) _]. split; [done|].
    unfold executing. simpl. destruct (execUnit_ q) as [a|]; simpl; [|lia].
    destruct (heap (world w) !! a); simpl; lia.
  - destruct Hw as [Hfl _]. split; [done|]. simpl. lia.
Qed.

(** X13: the client events of the session follow one order: a chunk is
    announced as started, then one or more of its ranges as executed, then
    it is announced as finished, and only then is another chunk started.
    Between arrivals the last chunk started either has been finished or is
    the current unit of the queue and has had a range executed. *)
Theorem client_events_follow_the_chunk_order (busy : bool)
    (l : list Arrival) :
  exists w,
    arrivals l (boot busy) = Some w /\
    phaseAfter Idle (clientEvents (world w)) =
      Some (match executingIn w with
            | x :: _ => Running x
            | [] => Idle
            end).
Proof.
  destruct (arrivals_invariant l (boot busy) (WorldInvariant_boot busy))
    as (w & Hl & Hw).
  exists w. split; [done|]. unfold WorldInvariant, executingIn in *.
  destruct (s_queue w) as [q|].
  - destruct Hw as [(_ & _ & Hp) _]. unfold Protocol in Hp. simpl in Hp.
    rewrite Hp. unfold phaseOf, executing. simpl.
    destruct (execUnit_ q) as [a|]; [|done].
    by destruct (heap (world w) !! a).
  - by destruct Hw as [_ Hp].
Qed.

(** X14: between arrivals the execution context of the queue is connected
    exactly while a unit is current, and then it is the context made for
    that unit: its document id and chunk id are the unit's.  With no unit
    current there is no context or a disconnected one. *)
Theorem context_is_connected_while_a_unit_is_current (busy : bool)
    (l : list Arrival) :
  exists w,
    arrivals l (boot busy) = Some w /\
    forall q, s_queue w = Some q ->
      match execUnit_ q with
      | Some a =>
          exists u c,
            heap (world w) !! a = Some u /\
            execContext_ q = Some c /\
            connected c = true /\
            ctxDocId c = docId u /\ ctxChunkId c = chunkId u
      | None => connected <$> execContext_ q <> Some true
      end.
Proof.
  destruct (arrivals_invariant l (boot busy) (WorldInvariant_boot busy))
    as (w & Hl & Hw).
  exists w. split; [done|]. intros q Hq.
  unfold WorldInvariant in Hw. rewrite Hq in Hw.
  destruct Hw as [(_ & Hc & _) _]. unfold ContextMatches in Hc. simpl in Hc.
  destruct (execUnit_ q) as [a|]; [done|].
  destruct (execContext_ q) as [c|]; [|done]. simpl. by rewrite Hc.
Qed.

End WorldSteps.

(** ** The console input and the logs *)

Lemma Inputs_frame (cid : string) (s s' : State) :
  clientId_ (this s) = cid /\ InputsTagged s /\ InputsPaired s ->
  clientId_ (this s') = clientId_ (this s) ->
  input_ (this s') = input_ (this s) ->
  rangeChunks (clientEvents (session s')) =
    rangeChunks (clientEvents (session s)) ->
  clientId_ (this s') = cid /\ InputsTagged s' /\ InputsPaired s'.
Proof.
  intros (Hc & Ht & Hp) Hcid Hin Hev.
  unfold InputsTagged, InputsPaired in *.
  by rewrite Hcid, Hin, Hev.
Qed.

Lemma Inputs_submitted (cid : string) (s : State) a u :
  clientId_ (this s) = cid /\ InputsTagged s /\ InputsPaired s ->
  clientId_ (this (submitted a u s)) = cid /\
  InputsTagged (submitted a u s) /\ InputsPaired (submitted a u s).
Proof.
  intros (Hc & Ht & Hp). split; [done|]. split.
  - unfold InputsTagged, submitted in *. simpl.
    apply Forall_app. split; [done|]. by repeat constructor.
  - unfold InputsPaired in *. rewrite events_submitted, rangeChunks_app.
    unfold submitted. simpl. rewrite map_app, Hp. simpl.
    by destruct (popExecRange_ident u (mkExecRange 0 0)) as [_ ->].
Qed.

Lemma Inputs_retired (cid : string) (s : State) u c :
  clientId_ (this s) = cid /\ InputsTagged s /\ InputsPaired s ->
  clientId_ (this (retired u c s)) = cid /\
  InputsTagged (retired u c s) /\ InputsPaired (retired u c s).
Proof.
  intros Hi. apply (Inputs_frame cid s); try done.
  rewrite events_retired, rangeChunks_app. simpl. by rewrite app_nil_r.
Qed.

Lemma Inputs_selected (cid : string) (s : State) ctx docQueue a unit opts :
  clientId_ (this s) = cid /\ InputsTagged s /\ InputsPaired s ->
  clientId_ (this (selected ctx docQueue a unit opts s)) = cid /\
  InputsTagged (selected ctx docQueue a unit opts s) /\
  InputsPaired (selected ctx docQueue a unit opts s).
Proof.
  intros Hi. unfold selected. apply Inputs_submitted.
  apply (Inputs_frame cid s); try done.
  simpl. rewrite rangeChunks_app. simpl. by rewrite app_nil_r.
Qed.

Lemma consoleEvalFinished_this (s s' : State) :
  consoleEvalFinished s = Some (tt, s') ->
  this s' = this s /\
  clientEvents (session s') = clientEvents (session s).
Proof.
  unfold consoleEvalFinished. munfold.
  destruct (execContext_ (this s)) as [c|]; [|by intros [= <-]].
  destruct (execUnit_ (this s)) as [a|]; [|by intros [= <-]].
  destruct (connected c); [|by intros [= <-]].
  destruct (heap (session s) !! a); [|done]. by intros [= <-].
Qed.

Section Logs.
Context `{Collaborators}.

Lemma select_inputs (cid : string) (s : State) (e : Error) (s' : State) :
  SelectStep s e s' ->
  clientId_ (this s) = cid /\ InputsTagged s /\ InputsPaired s ->
  clientId_ (this s') = cid /\ InputsTagged s' /\ InputsPaired s'.
Proof. destruct 1; try done. apply Inputs_selected. Qed.

Lemma process_inputs (cid : string) (s : State) (e : Error) (s' : State) :
  ProcessStep s e s' ->
  clientId_ (this s) = cid /\ InputsTagged s /\ InputsPaired s ->
  clientId_ (this s') = cid /\ InputsTagged s' /\ InputsPaired s'.
Proof.
  destruct 1 as [?|a u ?????|a u c e s' ?????? Hsel|e s' ??? Hsel]; intros Hi.
  - done.
  - by apply Inputs_submitted.
  - eapply select_inputs; [exact Hsel|]. by apply Inputs_retired.
  - by eapply select_inputs.
Qed.

Lemma call_inputs (cid : string) (c : Call) (s s' : State) :
  call c s = Some (tt, s') ->
  clientId_ (this s) = cid /\ InputsTagged s /\ InputsPaired s ->
  clientId_ (this s') = cid /\ InputsTagged s' /\ InputsPaired s'.
Proof.
  intros Hcall Hi. destruct c as [d| |pUnit op before|b|]; simpl in Hcall.
  - injection Hcall as <-. by apply (Inputs_frame cid s).
  - unfold queueOnConsolePrompt in Hcall. munfold.
    destruct (process s) as [[e s1]|] eqn:Hp; [|done].
    injection Hcall as <-. apply process_step in Hp.
    by eapply process_inputs.
  - munfold. rewrite update_eq in Hcall. injection Hcall as <-.
    by apply (Inputs_frame cid s).
  - injection Hcall as <-. by apply (Inputs_frame cid s).
  - apply consoleEvalFinished_this in Hcall as [Hthis Hev].
    apply (Inputs_frame cid s); try done; by rewrite ?Hthis, ?Hev.
Qed.

Lemma run_inputs (cid : string) (cs : list Call) (s s' : State) :
  run cs s = Some (tt, s') ->
  clientId_ (this s) = cid /\ InputsTagged s /\ InputsPaired s ->
  clientId_ (this s') = cid /\ InputsTagged s' /\ InputsPaired s'.
Proof.
  revert s. induction cs as [|c cs IH]; intros s Hrun Hi.
  { simpl in Hrun. by injection Hrun as <-. }
  simpl in Hrun. munfold.
  destruct (call c s) as [[[] s1]|] eqn:Hc; [|done].
  eapply IH; [exact Hrun|]. by eapply call_inputs.
Qed.

(** X15: in every state that a run of additions, prompts, mutation
    requests and console signals reaches from a queue just constructed,
    the console input queue holds only console_input calls under the
    client id the queue was constructed with, and these calls are, chunk by
    chunk and in the same order, the ranges announced to the client as
    executed: one input for every range-executed event. *)
Theorem console_inputs_are_the_ranges_announced (clientId : string)
    (busy : bool) (cs : list Call) :
  exists s,
    run cs (initial clientId busy) = Some (tt, s) /\
    Forall (fun i => rpcMethod i = "console_input" /\
                     rpcClientId i = clientId) (input_ (this s)) /\
    map (fun i => (rpcParams i).2) (input_ (this s)) =
      rangeChunks (clientEvents (session s)).
Proof.
  destruct (run_invariant cs (initial clientId busy)
              (Invariant_initial clientId busy)) as (s & Hr & _).
  exists s. split; [done|].
  destruct (run_inputs clientId cs _ s Hr) as (Hc & Ht & Hp).
  { split; [done|]. split; [constructor|done]. }
  split; [|done]. unfold InputsTagged in Ht. by rewrite Hc in Ht.
Qed.

Lemma select_logs (s : State) (e : Error) (s' : State) :
  SelectStep s e s' ->
  clientEvents (session s) `prefix_of` clientEvents (session s') /\
  input_ (this s) `prefix_of` input_ (this s').
Proof.
  destruct 1; try done.
  split; [rewrite events_selected|]; by apply prefix_app_r.
Qed.

Lemma process_logs (s : State) (e : Error) (s' : State) :
  ProcessStep s e s' ->
  clientEvents (session s) `prefix_of` clientEvents (session s') /\
  input_ (this s) `prefix_of` input_ (this s').
Proof.
  destruct 1 as [?|a u ?????|a u c e s' ?????? Hsel|e s' ??? Hsel].
  - done.
  - split; [rewrite events_submitted|]; by apply prefix_app_r.
  - apply select_logs in Hsel as [Hev Hin]. split; [|done].
    etrans; [|exact Hev]. rewrite events_retired. by apply prefix_app_r.
  - by apply (select_logs s e s').
Qed.

Lemma call_logs (c : Call) (s s' : State) :
  call c s = Some (tt, s') ->
  clientEvents (session s) `prefix_of` clientEvents (session s') /\
  input_ (this s) `prefix_of` input_ (this s').
Proof.
  intros Hcall. destruct c as [d| |pUnit op before|b|]; simpl in Hcall.
  - by injection Hcall as <-.
  - unfold queueOnConsolePrompt in Hcall. munfold.
    destruct (process s) as [[e s1]|] eqn:Hp; [|done].
    injection Hcall as <-. apply process_step in Hp.
    by eapply process_logs.
  - munfold. rewrite update_eq in Hcall. by injection Hcall as <-.
  - by injection Hcall as <-.
  - apply consoleEvalFinished_this in Hcall as [-> ->]. done.
Qed.

(** X16: no call takes back what it has handed over.  Along any run the
    client event queue and the console input queue only grow at the end:
    what they held before the run is an initial part of what they hold
    after it. *)
Theorem logs_only_grow (cs : list Call) (s s' : State) :
  run cs s = Some (tt, s') ->
  clientEvents (session s) `prefix_of` clientEvents (session s') /\
  input_ (this s) `prefix_of` input_ (this s').
Proof.
  revert s. induction cs as [|c cs IH]; intros s Hrun.
  { simpl in Hrun. by injection Hrun as <-. }
  simpl in Hrun. munfold.
  destruct (call c s) as [[[] s1]|] eqn:Hc; [|done].
  apply call_logs in Hc as [Hev Hin]. apply IH in Hrun as [Hev' Hin'].
  split; by etrans.
Qed.

End Logs.

(** ** The life of the queue *)

Section Lifetime.
Context `{Collaborators}.

(** X17: the client id of the queue is the client id of the request that
    created it.  A new-document request that finds a queue adds to it and
    leaves its client id alone, so the console input for the new document
    goes out under the first requester's id. *)
Theorem executeNotebookChunks_keeps_client_id (request : JsonRpcRequest)
    (w : World) (d : DocData) (e : Error) (w' : World) :
  docFromJson (readDocParams (params request)).2 = inr d ->
  executeNotebookChunks request w = Some (e, w') ->
  exists q',
    s_queue w' = Some q' /\
    clientId_ q' =
      match s_queue w with
      | Some q => clientId_ q
      | None => clientId request
      end.
Proof.
  intros Hd Hx. rewrite (executeNotebookChunks_eq request w d Hd) in Hx.
  destruct (process _) as [[e0 s']|] eqn:Hp; [|done].
  injection Hx as <- <-. exists (this s'). split; [done|].
  apply process_step, process_queue_change in Hp as [-> _].
  unfold queueFor. simpl. by destruct (s_queue w).
Qed.

(** X18: the prompt that finds the last unit of the last document queue
    complete ends the queue: chunk-finished is emitted for that unit and
    the static queue is dropped, with its execution context and whatever
    the console input queue still held. *)
Theorem onConsolePrompt_ends_the_queue (prompt : string) (w : World)
    (q : NotebookQueue) (d : NotebookDocQueue) (a : nat)
    (u : NotebookQueueUnit) (c : ChunkExecContext) :
  s_queue w = Some q ->
  queue_ q = [d] ->
  units d = [a] ->
  execUnit_ q = Some a ->
  heap (world w) !! a = Some u ->
  execContext_ q = Some c ->
  unitComplete u = true ->
  rBusy (world w) = false ->
  onConsolePrompt prompt w =
    Some (mkWorld None
            (pushEvent (isFinished (docId u) (chunkId u)) (world w))).
Proof.
  intros Hq Hl Hus Ha Hu Hc Hcomp Hb. unfold onConsolePrompt. rewrite Hq.
  unfold queueOnConsolePrompt. munfold.
  rewrite (process_retires (enter q w) a u c)
    by (try done; simpl; by rewrite Hl).
  assert (Hempty : queue_ (this (retired u c (enter q w))) = []).
  { simpl. rewrite Hl. unfold withoutUnit, docUpdate. cbn [fst].
    rewrite Hus. cbn [List.filter].
    assert (Hs : sameIdent (heap (world w)) u a = true)
      by (apply sameIdent_spec; by rewrite Hu).
    by rewrite Hs. }
  rewrite executeNextUnit_empty by done. simpl.
  unfold complete. simpl in Hempty. by rewrite Hempty.
Qed.

End Lifetime.

Section Immediate.
Context `{Collaborators}.

(** X19: a new-document request processes at once.  When it finds a
    current unit that is not complete and R idle, the request itself
    submits that unit's next range (the zero-length range when none is
    pending), after queueing the new document behind the others. *)
Theorem executeNotebookChunks_submits_for_current_unit
    (request : JsonRpcRequest) (w : World) (d : DocData) (q : NotebookQueue)
    (a : nat) (u : NotebookQueueUnit) :
  docFromJson (readDocParams (params request)).2 = inr d ->
  s_queue w = Some q ->
  execUnit_ q = Some a ->
  heap (world w) !! a = Some u ->
  unitComplete u = false ->
  rBusy (world w) = false ->
  executeNotebookChunks request w =
    Some (Success, leave (submitted a u (added d (enter q w)))).
Proof.
  intros Hd Hq Ha Hu Hc Hb. rewrite (executeNotebookChunks_eq request w d Hd).
  unfold queueFor. rewrite Hq.
  rewrite (process_continues (added d (mkState q (world w))) a u); try done.
  - simpl. by destruct (queue_ q).
  - simpl. by apply lookup_app_l_Some.
Qed.

End Immediate.

(** ** A deleted current unit *)

Lemma sameIdent_ident h p p' a :
  ident p = ident p' -> sameIdent h p a = sameIdent h p' a.
Proof.
  unfold ident, sameIdent. intros [= Hd Hc]. by rewrite Hd, Hc.
Qed.

Lemma not_in_filter_same h p u a (l : list nat) :
  h !! a = Some u -> ident p = ident u ->
  a ∉ List.filter (fun b => negb (sameIdent h p b)) l.
Proof.
  intros Hu Hid Hin. apply list_elem_of_In, filter_In in Hin as [_ Hf].
  assert (Hs : sameIdent h p a = true).
  { apply sameIdent_spec. by rewrite Hu, Hid. }
  by rewrite Hs in Hf.
Qed.

Section CurrentUnit.
Context `{Collaborators}.

Lemma run_app (cs cs' : list Call) (s : State) :
  run (cs ++ cs') s =
    match run cs s with
    | Some (_, s1) => run cs' s1
    | None => None
    end.
Proof.
  revert s. induction cs as [|c cs IH]; intros s; [done|].
  simpl. munfold. destruct (call c s) as [[[] s1]|]; [apply IH|done].
Qed.

Lemma run_grows (cs : list Call) (s s' : State) :
  run cs s = Some (tt, s') ->
  exists L, clientEvents (session s') = clientEvents (session s) ++ L.
Proof.
  revert s. induction cs as [|c cs IH]; intros s Hrun.
  { simpl in Hrun. injection Hrun as <-. exists []. by rewrite app_nil_r. }
  simpl in Hrun. munfold.
  destruct (call c s) as [[[] s1]|] eqn:Hc; [|done].
  apply call_logs in Hc as [[L1 Hev] _]. apply IH in Hrun as [L2 Hev'].
  exists (L1 ++ L2). by rewrite Hev', Hev, <- app_assoc.
Qed.

(** A current unit stays current, with its context, until [process]
    announces it as finished; until then the only events are the ranges
    submitted for it. *)
Lemma current_step (a : nat) (c : ChunkExecContext) (x : string * string)
    (c0 : Call) (t0 : State) :
  quiet c0 = true ->
  Invariant t0 ->
  execUnit_ (this t0) = Some a ->
  execContext_ (this t0) = Some c ->
  (exists u0, heap (session t0) !! a = Some u0 /\ ident u0 = x) ->
  exists t,
    call c0 t0 = Some (tt, t) /\ Invariant t /\
    ((execUnit_ (this t) = Some a /\ execContext_ (this t) = Some c /\
      queue_ (this t) = queue_ (this t0) /\
      exists ut L,
        heap (session t) !! a = Some ut /\ ident ut = x /\
        clientEvents (session t) = clientEvents (session t0) ++ L /\
        rangesOf x L) \/
     (exists L,
        clientEvents (session t) = clientEvents (session t0) ++ L /\
        isFinished x.1 x.2 ∈ L)).
Proof.
  intros Hq Hinv Ha Hc (u0 & Hu0 & Hid).
  destruct (call_invariant c0 t0 Hinv) as (t & Hcall & Hinv').
  exists t. split; [done|]. split; [done|].
  destruct c0 as [d| |p op bf|b|]; try done; simpl in Hcall.
  - unfold queueOnConsolePrompt in Hcall. munfold.
    destruct (process t0) as [[e t1]|] eqn:Hp; [|done].
    injection Hcall as <-. apply process_step in Hp.
    destruct Hp as [_|a' u' _ _ Ha' Hu' _|a' u' c' e t1 _ _ Ha' Hu' _ _ Hsel
                    |e t1 _ _ Hnone _].
    + left. repeat (split; [done|]). exists u0, [].
      rewrite app_nil_r. repeat (split; [done|]). constructor.
    + assert (a' = a) as -> by congruence.
      assert (u' = u0) as -> by congruence.
      left. repeat (split; [done|]).
      eexists _, _. split; [|split; [|split; [apply events_submitted|]]].
      * unfold submitted. simpl.
        apply list_lookup_insert_eq. by eapply lookup_lt_Some.
      * rewrite <- Hid. unfold ident.
        by destruct (popExecRange_ident u0 (mkExecRange 0 0)) as [-> ->].
      * constructor; [|constructor]. rewrite <- Hid. by eexists.
    + assert (a' = a) as -> by congruence.
      assert (u' = u0) as -> by congruence.
      right. apply select_events in Hsel as (l & Hl & _).
      rewrite events_retired, <- app_assoc in Hl.
      eexists. split; [exact Hl|]. rewrite <- Hid.
      apply elem_of_cons. by left.
    + congruence.
  - injection Hcall as <-. left. repeat (split; [done|]).
    exists u0, []. simpl. rewrite app_nil_r.
    repeat (split; [done|]). constructor.
  - rewrite consoleEvalFinished_eq in Hcall by apply Hinv.
    injection Hcall as <-.
    destruct (signalled_keeps t0) as (Hthis & Hev & [_ Hk]).
    left. rewrite Hthis. repeat (split; [done|]).
    specialize (Hk a u0 Hu0).
    destruct (heap (session (signalled t0)) !! a) as [ut|]; [|done].
    exists ut, []. rewrite Hev, app_nil_r. split; [done|].
    split; [simpl in Hk; congruence|]. split; [done|constructor].
Qed.

Lemma current_until_finished (a : nat) (c : ChunkExecContext)
    (x : string * string) (cs : list Call) (t0 : State) :
  forallb quiet cs = true ->
  Invariant t0 ->
  execUnit_ (this t0) = Some a ->
  execContext_ (this t0) = Some c ->
  (exists u0, heap (session t0) !! a = Some u0 /\ ident u0 = x) ->
  exists t,
    run cs t0 = Some (tt, t) /\
    ((execUnit_ (this t) = Some a /\ execContext_ (this t) = Some c /\
      queue_ (this t) = queue_ (this t0) /\
      exists ut L,
        heap (session t) !! a = Some ut /\ ident ut = x /\
        clientEvents (session t) = clientEvents (session t0) ++ L /\
        rangesOf x L) \/
     (exists L,
        clientEvents (session t) = clientEvents (session t0) ++ L /\
        isFinished x.1 x.2 ∈ L)).
Proof.
  revert t0. induction cs as [|c0 cs IH]; intros t0 Hq Hinv Ha Hc Hu.
  { exists t0. split; [done|]. left. repeat (split; [done|]).
    destruct Hu as (u0 & Hu0 & Hid). exists u0, [].
    rewrite app_nil_r. repeat (split; [done|]). constructor. }
  simpl in Hq. apply andb_prop in Hq as [Hq0 Hq].
  destruct (current_step a c x c0 t0 Hq0 Hinv Ha Hc Hu)
    as (t1 & Hcall & Hinv1 & Hcase).
  destruct Hcase as [(Ha1 & Hc1 & Hq1 & ut & L1 & Hut & Hid & Hev1 & Hr1)
                    |(L1 & Hev1 & Hfin)].
  - destruct (IH t1 Hq Hinv1 Ha1 Hc1) as (t & Hrun & Hcase);
      [by exists ut|].
    exists t. split; [simpl; munfold; by rewrite Hcall|].
    destruct Hcase as [(Ha2 & Hc2 & Hq2 & ut2 & L2 & Hut2 & Hid2 & Hev2 & Hr2)
                      |(L2 & Hev2 & Hfin)].
    + left. repeat (split; [congruence|]).
      exists ut2, (L1 ++ L2). repeat (split; [done|]). split.
      * by rewrite Hev2, Hev1, <- app_assoc.
      * by apply Forall_app.
    + right. exists (L1 ++ L2). split.
      * by rewrite Hev2, Hev1, <- app_assoc.
      * apply elem_of_app. by right.
  - destruct (run_invariant cs t1 Hinv1) as (t & Hrun & _).
    exists t. split; [simpl; munfold; by rewrite Hcall|].
    right. destruct (run_grows cs t1 t Hrun) as [L2 Hev2].
    exists (L1 ++ L2). split.
    + by rewrite Hev2, Hev1, <- app_assoc.
    + apply elem_of_app. by left.
Qed.

(** C1, as the code has it: an update that deletes the unit in
    [execUnit_] edits the document queue and nothing else.  The first
    document queue of the unit's document id loses its units of that
    identity, the current unit among them, and every other document queue
    is as before; the slot, the unit's ranges, its execution context, the
    console input and the client events are as they were.  [process] then
    handles the unit as it handles any current unit.  Through every later
    run of prompts and console signals it stays current with its context,
    and only ranges of it are announced, until chunk-finished is emitted
    for it: while it is current, a [process] with R idle submits its next
    range when it is not complete, and when it is complete retires it as
    after any completion. *)
Theorem delete_leaves_current_unit_running (s : State)
    (pUnit : NotebookQueueUnit) (before : string)
    (l1 : list NotebookDocQueue) (d : NotebookDocQueue)
    (l2 : list NotebookDocQueue) (a : nat)
    (u : NotebookQueueUnit) (c : ChunkExecContext) :
  Invariant s ->
  queue_ (this s) = l1 ++ d :: l2 ->
  Forall (fun x => docQueueId x <> docId pUnit) l1 ->
  docQueueId d = docId pUnit ->
  a ∈ units d ->
  execUnit_ (this s) = Some a ->
  heap (session s) !! a = Some u ->
  execContext_ (this s) = Some c ->
  ident pUnit = ident u ->
  exists s',
    update pUnit QueueDelete before s = Some (Success, s') /\
    queue_ (this s') =
      l1 ++
      setUnits
        (List.filter (fun b => negb (sameIdent (heap (session s)) u b))
           (units d)) d :: l2 /\
    (a ∉ List.filter (fun b => negb (sameIdent (heap (session s)) u b))
           (units d)) /\
    execUnit_ (this s') = Some a /\
    execContext_ (this s') = Some c /\
    heap (session s') = heap (session s) /\
    input_ (this s') = input_ (this s) /\
    emitted s s' = [] /\
    forall cs, forallb quiet cs = true ->
      exists t,
        run cs s' = Some (tt, t) /\
        ((execUnit_ (this t) = Some a /\
          execContext_ (this t) = Some c /\
          exists ut,
            heap (session t) !! a = Some ut /\ ident ut = ident u /\
            rangesOf (ident u) (emitted s' t) /\
            (rBusy (session t) = false -> unitComplete ut = false ->
               process t = Some (Success, submitted a ut t)) /\
            (rBusy (session t) = false -> unitComplete ut = true ->
               process t = executeNextUnit (retired ut c t) /\
               emitted t (retired ut c t) =
                 [isFinished (docId u) (chunkId u)] /\
               execContext_ (this (retired ut c t)) = Some (disconnect c) /\
               execUnit_ (this (retired ut c t)) = None)) \/
         isFinished (docId u) (chunkId u) ∈ emitted s' t).
Proof.
  intros Hinv Hq Hl1 Hd Hin Ha Hu Hc Hid.
  set (s' := updated pUnit QueueDelete before s).
  assert (Hh : heap (session s') = heap (session s))
    by apply updateQueues_delete_heap.
  assert (Hq' : queue_ (this s') =
            l1 ++
            setUnits
              (List.filter (fun b => negb (sameIdent (heap (session s)) u b))
                 (units d)) d :: l2).
  { unfold s', updated. simpl. rewrite Hq.
    rewrite updateQueues_first_match by done. simpl.
    do 3 f_equal. apply filter_ext. intros b. f_equal.
    by apply sameIdent_ident. }
  exists s'. split; [apply update_eq|]. split; [exact Hq'|]. split.
  { by eapply not_in_filter_same. }
  repeat (split; [done|]). split.
  { apply emitted_app. by rewrite app_nil_r. }
  intros cs Hcs.
  assert (Hne : queue_ (this s') <> []) by (rewrite Hq'; by destruct l1).
  destruct (current_until_finished a c (ident u) cs s' Hcs)
    as (t & Hrun & Hcase); try done.
  { by apply Invariant_updated. }
  { exists u. by rewrite Hh. }
  exists t. split; [done|].
  destruct Hcase as [(Ha2 & Hc2 & Hq2 & ut & L & Hut & Hid2 & Hev & Hr)
                    |(L & Hev & Hfin)].
  - left. repeat (split; [done|]). exists ut. repeat (split; [done|]).
    split; [by rewrite (emitted_app _ _ _ Hev)|].
    assert (Hne2 : queue_ (this t) <> []) by (by rewrite Hq2).
    split; intros Hb Hcomp.
    + by apply process_continues.
    + split; [by apply (process_retires t a ut c)|].
      split; [|done]. apply emitted_app. rewrite events_retired.
      unfold ident in Hid2. by injection Hid2 as -> ->.
  - right. by rewrite (emitted_app _ _ _ Hev).
Qed.

End CurrentUnit.

(** ** The order of execution without further assumptions *)

Lemma identsOf_filter_sublist h (f : nat -> bool) (l : list nat) :
  identsOf h (List.filter f l) `sublist_of` identsOf h l.
Proof.
  induction l as [|b l IH]; [done|].
  unfold identsOf in *. cbn [List.filter omap list_omap].
  destruct (f b); cbn [omap list_omap];
    destruct (ident <$> h !! b); try done;
    [by apply sublist_skip|by apply sublist_cons].
Qed.

Lemma queuedIdents_added (d : DocData) (s : State) :
  unitsInStore s ->
  queuedIdents (added d s) = queuedIdents s ++ map ident (dataUnits d).
Proof.
  intros Hst. unfold queuedIdents, added. simpl. rewrite flat_map_app. simpl.
  rewrite app_nil_r, identsOf_seq. f_equal.
  apply flat_identsOf_keeps; [apply keepsIdents_app|done].
Qed.

Lemma waiting_added (d : DocData) (s : State) :
  unitsInStore s -> currentIsFirst s ->
  waiting (added d s) = waiting s ++ map ident (dataUnits d).
Proof.
  intros Hst Hfirst. unfold waiting. rewrite queuedIdents_added by done.
  change (execUnit_ (this (added d s))) with (execUnit_ (this s)).
  destruct (execUnit_ (this s)) as [a|] eqn:Ha; [|done].
  destruct (queuedIdents_current s a Hst Hfirst Ha)
    as (d0 & rest & us & u & _ & _ & _ & ->).
  done.
Qed.

Lemma currentIsFirst_added (d : DocData) (s : State) :
  currentIsFirst s -> currentIsFirst (added d s).
Proof.
  unfold currentIsFirst. simpl.
  destruct (execUnit_ (this s)) as [a|]; [|done].
  intros (d0 & rest & us & Hq & Hus).
  exists d0, (rest ++ [(allocDoc d (heap (session s))).1]), us.
  by rewrite Hq.
Qed.

Lemma InOrder_frame sup (s s' : State) :
  unitsInStore s ->
  InOrder sup s ->
  queue_ (this s') = queue_ (this s) ->
  execUnit_ (this s') = execUnit_ (this s) ->
  keepsIdents (heap (session s)) (heap (session s')) ->
  startedChunks (clientEvents (session s')) =
    startedChunks (clientEvents (session s)) ->
  InOrder sup s'.
Proof.
  intros Hst [Hfirst Hsub] Hq Hx Hk Hev. split.
  - unfold currentIsFirst in *. by rewrite Hx, Hq.
  - unfold waiting in *. by rewrite Hev, Hx, (queuedIdents_keeps s s').
Qed.

Lemma InOrder_submitted sup (s : State) a u :
  unitsInStore s -> InOrder sup s ->
  heap (session s) !! a = Some u ->
  InOrder sup (submitted a u s).
Proof.
  intros Hst Hord Hu. apply (InOrder_frame sup s); try done.
  - by apply keepsIdents_submitted.
  - rewrite events_submitted, startedChunks_app. simpl. by rewrite app_nil_r.
Qed.

Lemma InOrder_added sup (d : DocData) (s : State) :
  unitsInStore s -> InOrder sup s ->
  InOrder (sup ++ map ident (dataUnits d)) (added d s).
Proof.
  intros Hst [Hfirst Hsub]. split; [by apply currentIsFirst_added|].
  rewrite waiting_added by done. rewrite app_assoc.
  by apply sublist_app.
Qed.

Lemma InOrder_retired sup (s : State) a u c :
  unitsInStore s -> InOrder sup s ->
  execUnit_ (this s) = Some a ->
  heap (session s) !! a = Some u ->
  InOrder sup (retired u c s).
Proof.
  intros Hst [Hfirst Hsub] Ha Hu. split; [done|].
  destruct (queuedIdents_current s a Hst Hfirst Ha)
    as (d & rest & us & u' & Hq & Hus & Hu' & Hqi).
  assert (u' = u) as -> by congruence.
  assert (Hw : waiting (retired u c s) `sublist_of` waiting s).
  { unfold waiting at 2. rewrite Ha, Hqi. cbn [tail].
    unfold waiting, queuedIdents, retired.
    cbn [this session queue_ heap pushEvent execUnit_].
    rewrite Hq. unfold withoutUnit, docUpdate. cbn [fst].
    rewrite Hus. cbn [List.filter].
    assert (Hs : sameIdent (heap (session s)) u a = true)
      by (apply sameIdent_spec; by rewrite Hu).
    rewrite Hs. cbn [negb].
    pose proof (identsOf_filter_sublist (heap (session s))
                  (fun b => negb (sameIdent (heap (session s)) u b)) us)
      as Hf.
    unfold docComplete. cbn [units setUnits].
    destruct (List.filter _ us) as [|b l] eqn:Hfl.
    - cbn [flat_map]. by apply sublist_inserts_l.
    - cbn [flat_map units]. by apply sublist_app. }
  rewrite events_retired, startedChunks_app. simpl. rewrite app_nil_r.
  etrans; [|exact Hsub]. by apply sublist_app.
Qed.

Lemma selected_keeps_order (s : State) ctx docQueue rest a us unit opts :
  unitsInStore s ->
  execUnit_ (this s) = None ->
  queue_ (this s) = docQueue :: rest ->
  units docQueue = a :: us ->
  heap (session s) !! a = Some unit ->
  currentIsFirst (selected ctx docQueue a unit opts s) /\
  startedChunks (clientEvents (session (selected ctx docQueue a unit opts s)))
    ++ waiting (selected ctx docQueue a unit opts s) =
  startedChunks (clientEvents (session s)) ++ waiting s.
Proof.
  intros Hst Hx Hq Hus Hu. split.
  - unfold currentIsFirst. simpl. by exists docQueue, rest, us.
  - rewrite events_selected, startedChunks_app. simpl.
    unfold waiting. simpl. rewrite Hx.
    assert (Hqi : queuedIdents (selected ctx docQueue a unit opts s) =
                  queuedIdents s).
    { unfold selected.
      rewrite (queuedIdents_keeps (chosen ctx docQueue a unit opts s));
        [done|done|by apply keepsIdents_submitted|done]. }
    rewrite Hqi. unfold queuedIdents. rewrite Hq. simpl.
    rewrite Hus, (identsOf_cons _ _ _ unit Hu). simpl.
    by rewrite <- app_assoc.
Qed.

Lemma InOrder_selected sup (s : State) ctx docQueue rest a us unit opts :
  unitsInStore s -> InOrder sup s ->
  execUnit_ (this s) = None ->
  queue_ (this s) = docQueue :: rest ->
  units docQueue = a :: us ->
  heap (session s) !! a = Some unit ->
  InOrder sup (selected ctx docQueue a unit opts s).
Proof.
  intros Hst [_ Hsub] Hx Hq Hus Hu.
  destruct (selected_keeps_order s ctx docQueue rest a us unit opts)
    as [Hfirst Heq]; try done.
  split; [done|]. by rewrite Heq.
Qed.

Section OrderOnly.
Context `{Collaborators}.

Lemma select_inorder sup (s : State) (e : Error) (s' : State) :
  unitsInStore s -> InOrder sup s -> execUnit_ (this s) = None ->
  SelectStep s e s' -> InOrder sup s'.
Proof.
  intros Hst Hord Hx. destruct 1; try done. by eapply InOrder_selected.
Qed.

Lemma process_inorder sup (s : State) (e : Error) (s' : State) :
  Invariant s -> InOrder sup s -> ProcessStep s e s' -> InOrder sup s'.
Proof.
  intros Hinv Hord.
  destruct 1 as [?|a u ?????|a u c e s' ?? Ha Hu ?? Hsel|].
  - done.
  - apply InOrder_submitted; [apply Hinv|done|done].
  - apply (select_inorder sup (retired u c s) e s'); try done.
    + by apply (Invariant_retired s a u c).
    + eapply InOrder_retired; [apply Hinv|done|done|done].
  - eapply select_inorder; [apply Hinv|done|done|done].
Qed.

Lemma call_inorder sup (c : Call) (s s' : State) :
  Invariant s -> InOrder sup s ->
  isMutation c = false ->
  call c s = Some (tt, s') ->
  InOrder (sup ++ suppliedBy [c]) s'.
Proof.
  intros Hinv Hord Hmut Hcall.
  destruct c as [d| |pUnit op before|b|]; try done;
    cbn [call] in Hcall;
    try (change (suppliedBy [_]) with (@nil (string * string));
         rewrite app_nil_r).
  - rewrite addDocument_eq in Hcall. injection Hcall as <-.
    change (suppliedBy [CallAdd d]) with (map ident (dataUnits d) ++ []).
    rewrite app_nil_r. apply InOrder_added; [apply Hinv|done].
  - unfold queueOnConsolePrompt in Hcall. munfold.
    destruct (process s) as [[e s1]|] eqn:Hp; [|done].
    injection Hcall as <-. apply process_step in Hp.
    by eapply process_inorder.
  - injection Hcall as <-. apply (InOrder_frame sup s); try done.
    + apply Hinv.
    + apply keepsIdents_refl.
  - rewrite consoleEvalFinished_eq in Hcall by apply Hinv.
    injection Hcall as <-.
    destruct (signalled_keeps s) as (Hthis & Hev & Hk).
    apply (InOrder_frame sup s); try done; try (by rewrite ?Hthis, ?Hev).
    apply Hinv.
Qed.

Lemma run_inorder (cs : list Call) sup (s : State) :
  Invariant s -> InOrder sup s ->
  noMutation cs = true ->
  exists s', run cs s = Some (tt, s') /\ Invariant s' /\
             InOrder (sup ++ suppliedBy cs) s'.
Proof.
  revert sup s. induction cs as [|c cs IH]; intros sup s Hinv Hord Hm.
  { exists s. simpl. by rewrite app_nil_r. }
  simpl in Hm. apply andb_prop in Hm as [Hc Hm].
  destruct (call_invariant c s Hinv) as (s1 & Hcall & Hinv1).
  assert (Hord1 : InOrder (sup ++ suppliedBy [c]) s1).
  { apply (call_inorder sup c s s1 Hinv Hord);
      [by destruct (isMutation c)|done]. }
  destruct (IH _ s1 Hinv1 Hord1 Hm) as (s' & Hrun & Hinv' & Hord').
  exists s'. split.
  - simpl. munfold. by rewrite Hcall.
  - split; [done|].
    change (c :: cs) with ([c] ++ cs).
    by rewrite suppliedBy_app, app_assoc.
Qed.

End OrderOnly.

(** ** A co-operating console drains the queue *)

Lemma sum_sublist {A} (f : A -> nat) (l k : list A) :
  l `sublist_of` k -> sum_list_with f l <= sum_list_with f k.
Proof. induction 1; simpl; lia. Qed.

Lemma Forall_of_sublist {A} (P : A -> Prop) (l k : list A) :
  l `sublist_of` k -> Forall P k -> Forall P l.
Proof.
  induction 1 as [|x l k _ IH|x l k _ IH]; intros Hk; [done| |].
  - apply Forall_cons in Hk as [Hx Hk]. constructor; [done|by apply IH].
  - apply Forall_cons in Hk as [_ Hk]. by apply IH.
Qed.

Lemma shrinks_refl h : shrinks h h.
Proof. split; [done|]. intros a u Hu. by exists u. Qed.

Lemma shrinks_insert h a u v :
  h !! a = Some u -> options v = options u -> cost v <= cost u ->
  shrinks h (<[a := v]> h).
Proof.
  intros Hu Ho Hc. split; [by rewrite length_insert|].
  intros b w Hw. destruct (decide (a = b)) as [->|Hne].
  - rewrite list_lookup_insert_eq by (by eapply lookup_lt_Some).
    assert (w = u) as -> by congruence. by exists v.
  - rewrite list_lookup_insert_ne by done. by exists w.
Qed.

Lemma unitsOf_cons h a l u :
  h !! a = Some u -> unitsOf h (a :: l) = u :: unitsOf h l.
Proof. intros Hu. unfold unitsOf. simpl. by rewrite Hu. Qed.

Lemma unitsOf_filter_sublist h (f : nat -> bool) (l : list nat) :
  unitsOf h (List.filter f l) `sublist_of` unitsOf h l.
Proof.
  induction l as [|b l IH]; [done|].
  unfold unitsOf in *. cbn [List.filter omap list_omap].
  destruct (f b); cbn [omap list_omap];
    destruct (h !! b); try done;
    [by apply sublist_skip|by apply sublist_cons].
Qed.

Lemma unitsOf_app_store h k (l : list nat) :
  Forall (fun a => a < length h) l -> unitsOf (h ++ k) l = unitsOf h l.
Proof.
  induction 1 as [|a l Ha _ IH]; [done|].
  apply lookup_lt_is_Some in Ha as [u Hu].
  rewrite (unitsOf_cons h a l u Hu).
  rewrite (unitsOf_cons (h ++ k) a l u) by (by apply lookup_app_l_Some).
  by rewrite IH.
Qed.

Lemma unitsIn_app_store h k (l : list NotebookDocQueue) :
  Forall (fun d => Forall (fun a => a < length h) (units d)) l ->
  flat_map (fun d => unitsOf (h ++ k) (units d)) l =
  flat_map (fun d => unitsOf h (units d)) l.
Proof.
  induction 1 as [|x l Hx _ IH]; [done|]. simpl.
  by rewrite IH, unitsOf_app_store.
Qed.

Lemma unitsOf_seq h us :
  unitsOf (h ++ us) (seq (length h) (length us)) = us.
Proof.
  revert h. induction us as [|u us IH]; intros h; [done|].
  change (seq (length h) (length (u :: us)))
    with (length h :: seq (S (length h)) (length us)).
  rewrite (unitsOf_cons _ _ _ u)
    by (by rewrite lookup_app_r, Nat.sub_diag by lia).
  f_equal. specialize (IH (h ++ [u])).
  rewrite length_app, <- app_assoc in IH. simpl in IH.
  by rewrite Nat.add_1_r in IH.
Qed.

Lemma popExecRange_shrinks (u : NotebookQueueUnit) (r : ExecRange) :
  options (popExecRange u r).2 = options u /\
  cost (popExecRange u r).2 <= cost u /\
  (pending u <> [] -> cost (popExecRange u r).2 + 1 = cost u).
Proof.
  unfold popExecRange, cost. destruct (pending u) as [|x p]; simpl.
  - split; [done|]. split; [lia|done].
  - split; [done|]. split; lia.
Qed.

Lemma signalled_none (s : State) :
  execUnit_ (this s) = None -> signalled s = s.
Proof.
  intros Hx. unfold signalled. rewrite Hx.
  by destruct (execContext_ (this s)).
Qed.

Lemma signalled_current (s : State) a c u :
  execUnit_ (this s) = Some a ->
  execContext_ (this s) = Some c ->
  connected c = true ->
  heap (session s) !! a = Some u ->
  this (signalled s) = this s /\
  rBusy (session (signalled s)) = rBusy (session s) /\
  heap (session (signalled s)) = <[a := markEvaluated u]> (heap (session s)).
Proof.
  intros Ha Hc Hcon Hu. unfold signalled. by rewrite Hc, Ha, Hcon, Hu.
Qed.

Section Drain.
Context `{Collaborators}.

Lemma parsesFor_options (u v : NotebookQueueUnit) :
  options v = options u -> parsesFor u -> parsesFor v.
Proof. intros Ho Hp w Hw. apply Hp. congruence. Qed.

Lemma unitsOf_shrinks h h' (l : list nat) :
  shrinks h h' ->
  sum_list_with cost (unitsOf h' l) <= sum_list_with cost (unitsOf h l) /\
  (Forall parsesFor (unitsOf h l) -> Forall parsesFor (unitsOf h' l)).
Proof.
  intros [Hlen Hs]. induction l as [|b l [IHw IHp]]; [done|].
  unfold unitsOf in *. cbn [omap list_omap].
  destruct (h !! b) as [u|] eqn:Hu.
  - destruct (Hs b u Hu) as (v & -> & Ho & Hc). cbn [sum_list_with].
    split; [lia|].
    intros [Hpu Hpl]%Forall_cons. constructor; [|by apply IHp].
    by apply (parsesFor_options u).
  - apply lookup_ge_None in Hu. rewrite Hlen in Hu.
    apply lookup_ge_None in Hu. by rewrite Hu.
Qed.

Lemma unitsIn_shrinks h h' (l : list NotebookDocQueue) :
  shrinks h h' ->
  sum_list_with cost (flat_map (fun d => unitsOf h' (units d)) l) <=
    sum_list_with cost (flat_map (fun d => unitsOf h (units d)) l) /\
  (Forall parsesFor (flat_map (fun d => unitsOf h (units d)) l) ->
   Forall parsesFor (flat_map (fun d => unitsOf h' (units d)) l)).
Proof.
  intros Hs. induction l as [|d l [IHw IHp]]; [done|]. simpl.
  destruct (unitsOf_shrinks h h' (units d) Hs) as [Hw Hp].
  rewrite !sum_list_with_app. split; [lia|].
  intros [H1 H2]%Forall_app. apply Forall_app. auto.
Qed.

(** The unit at the head of the queue does part of its work, or none. *)
Lemma work_update (s s1 : State) d rest a us u v :
  queue_ (this s) = d :: rest ->
  units d = a :: us ->
  heap (session s) !! a = Some u ->
  queue_ (this s1) = queue_ (this s) ->
  heap (session s1) = <[a := v]> (heap (session s)) ->
  options v = options u ->
  cost v <= cost u ->
  work s1 + cost u <= work s + cost v /\
  (Forall parsesFor (queuedUnits s) -> Forall parsesFor (queuedUnits s1)).
Proof.
  intros Hq Hus Hu Hq1 Hh1 Ho Hc.
  pose proof (shrinks_insert _ a u v Hu Ho Hc) as Hs.
  assert (Hv : <[a := v]> (heap (session s)) !! a = Some v)
    by (apply list_lookup_insert_eq; by eapply lookup_lt_Some).
  unfold work, queuedUnits. rewrite Hq1, Hh1, Hq. cbn [flat_map].
  rewrite Hus.
  rewrite (unitsOf_cons _ a us u Hu), (unitsOf_cons _ a us v Hv).
  cbn [app sum_list_with].
  destruct (unitsOf_shrinks _ _ us Hs) as [Hw1 Hp1].
  destruct (unitsIn_shrinks _ _ rest Hs) as [Hw2 Hp2].
  rewrite !sum_list_with_app. split; [lia|].
  intros [Hpu [H1 H2]%Forall_app]%Forall_cons.
  constructor; [by apply (parsesFor_options u)|].
  apply Forall_app. auto.
Qed.

(** The unit at the head of the queue leaves it. *)
Lemma work_retired (s : State) d rest a us u c :
  queue_ (this s) = d :: rest ->
  units d = a :: us ->
  heap (session s) !! a = Some u ->
  work (retired u c s) + cost u <= work s /\
  (Forall parsesFor (queuedUnits s) ->
   Forall parsesFor (queuedUnits (retired u c s))) /\
  (Forall (fun x => units x <> []) (queue_ (this s)) ->
   Forall (fun x => units x <> []) (queue_ (this (retired u c s)))).
Proof.
  intros Hq Hus Hu.
  assert (Hs : sameIdent (heap (session s)) u a = true)
    by (apply sameIdent_spec; by rewrite Hu).
  set (us' := List.filter
                (fun b => negb (sameIdent (heap (session s)) u b)) us).
  assert (Hw : queue_ (this (retired u c s)) =
               if docComplete (setUnits us' d) then rest
               else setUnits us' d :: rest).
  { simpl. rewrite Hq. unfold withoutUnit, docUpdate. cbn [fst].
    rewrite Hus. cbn [List.filter]. by rewrite Hs. }
  assert (Hqr : queuedUnits (retired u c s) =
                unitsOf (heap (session s)) us' ++
                flat_map (fun x => unitsOf (heap (session s)) (units x)) rest).
  { unfold queuedUnits. rewrite Hw.
    change (heap (session (retired u c s))) with (heap (session s)).
    unfold docComplete. cbn [units setUnits]. by destruct us'. }
  assert (Hqs : queuedUnits s =
                u :: unitsOf (heap (session s)) us ++
                flat_map (fun x => unitsOf (heap (session s)) (units x)) rest).
  { unfold queuedUnits. rewrite Hq. simpl.
    by rewrite Hus, (unitsOf_cons _ a us u Hu). }
  pose proof (unitsOf_filter_sublist (heap (session s))
                (fun b => negb (sameIdent (heap (session s)) u b)) us) as Hsub.
  fold us' in Hsub.
  split; [|split].
  - unfold work. rewrite Hqr, Hqs. cbn [sum_list_with].
    rewrite !sum_list_with_app.
    pose proof (sum_sublist cost _ _ Hsub). lia.
  - rewrite Hqr, Hqs. intros [_ [H1 H2]%Forall_app]%Forall_cons.
    apply Forall_app. split; [by eapply Forall_of_sublist|done].
  - rewrite Hw, Hq. intros [_ Hrest]%Forall_cons.
    unfold docComplete. cbn [units setUnits].
    destruct us' as [|b l]; [done|]. by constructor.
Qed.

Lemma head_unit (s : State) d rest :
  unitsInStore s ->
  queue_ (this s) = d :: rest ->
  units d <> [] ->
  exists a us u,
    units d = a :: us /\ heap (session s) !! a = Some u /\
    queuedUnits s =
      u :: unitsOf (heap (session s)) us ++
        flat_map (fun x => unitsOf (heap (session s)) (units x)) rest.
Proof.
  intros Hst Hq Hne. unfold unitsInStore in Hst. rewrite Hq in Hst.
  apply Forall_cons in Hst as [Hd _].
  destruct (units d) as [|a us] eqn:Hus; [done|].
  apply Forall_cons in Hd as [Ha _].
  apply lookup_lt_is_Some in Ha as [u Hu].
  exists a, us, u. repeat (split; [done|]).
  unfold queuedUnits. rewrite Hq. simpl.
  by rewrite Hus, (unitsOf_cons _ a us u Hu).
Qed.

(** Selection in a co-operative state takes the first unit. *)
Lemma select_round (t : State) :
  Cooperative t ->
  execUnit_ (this t) = None ->
  exists s1,
    executeNextUnit t = Some (Success, s1) /\
    Cooperative s1 /\
    work s1 <= work t /\
    (queue_ (this t) = [] /\ s1 = t \/ credit s1 = 1).
Proof.
  intros (Hset & Hfirst & Hne & Hpar & Hb) Hx.
  destruct (queue_ (this t)) as [|d rest] eqn:Hq.
  { exists t. split; [by apply executeNextUnit_empty|].
    split; [|split; [done|by left]].
    split; [done|]. split; [done|]. split; [by rewrite Hq|done]. }
  pose proof Hne as Hne'. apply Forall_cons in Hne' as [Hd _].
  destruct (head_unit t d rest) as (a & us & unit & Hus & Hu & Hqu);
    [apply Hset|done|done|].
  rewrite Hqu in Hpar. pose proof Hpar as Hpar'.
  apply Forall_cons in Hpar' as [Hpu _].
  destruct (Hpu unit eq_refl) as [opts Hopts].
  exists (selected notebookCtxId d a unit opts t).
  split; [by eapply executeNextUnit_selects|].
  destruct (popExecRange_shrinks unit (mkExecRange 0 0)) as (Ho & Hc & _).
  destruct (work_update t (selected notebookCtxId d a unit opts t)
              d rest a us unit (popExecRange unit (mkExecRange 0 0)).2)
    as [Hw Hp]; try done.
  split; [|split; [lia|by right]].
  split; [by apply Settled_selected|]. split.
  { unfold currentIsFirst. simpl. exists d, rest, us. by rewrite Hq. }
  split; [simpl; by rewrite Hq|]. split; [|done].
  apply Hp. by rewrite Hqu.
Qed.

(** One round in a co-operative state: the queue was empty and stays as
    it is, or less is left to do. *)
Lemma round_step (s : State) :
  Cooperative s ->
  exists s1,
    run round s = Some (tt, s1) /\
    Cooperative s1 /\
    (queue_ (this s) = [] /\ s1 = s \/
     work s1 + credit s < work s + credit s1).
Proof.
  intros Hco. pose proof Hco as (Hset & Hfirst & Hne & Hpar & Hb).
  assert (Hrun : run round s =
            match process (signalled s) with
            | Some (_, s1) => Some (tt, s1)
            | None => None
            end).
  { unfold round. simpl. munfold.
    rewrite consoleEvalFinished_eq by apply Hset.
    unfold queueOnConsolePrompt. munfold.
    by destruct (process (signalled s)) as [[? ?]|]. }
  rewrite Hrun. clear Hrun.
  destruct (execUnit_ (this s)) as [a|] eqn:Hx.
  - (* a unit is current *)
    pose proof Hfirst as Hf. unfold currentIsFirst in Hf. rewrite Hx in Hf.
    destruct Hf as (d & rest & us & Hq & Hus).
    pose proof Hset as (_ & Hctx & _). unfold ContextMatches in Hctx.
    rewrite Hx in Hctx. destruct Hctx as (u & c & Hu & Hc & Hcon & _).
    destruct (signalled_current s a c u Hx Hc Hcon Hu) as (Hthis & Hbs & Hhs).
    set (s' := signalled s) in *.
    assert (Hu' : heap (session s') !! a = Some (markEvaluated u)).
    { rewrite Hhs. apply list_lookup_insert_eq. by eapply lookup_lt_Some. }
    assert (Hset' : Settled s') by (by apply Settled_signalled).
    destruct (work_update s s' d rest a us u (markEvaluated u))
      as [Hw' Hp']; try done; [by rewrite Hthis|].
    assert (Hq' : queue_ (this s') = d :: rest) by (by rewrite Hthis).
    assert (Hx' : execUnit_ (this s') = Some a) by (by rewrite Hthis).
    assert (Hc' : execContext_ (this s') = Some c) by (by rewrite Hthis).
    assert (Hb' : rBusy (session s') = false) by congruence.
    assert (Hne' : Forall (fun x => units x <> []) (queue_ (this s')))
      by (by rewrite Hthis).
    assert (Hcost : cost (markEvaluated u) = cost u) by done.
    destruct (pending u) as [|r0 p] eqn:Hpend.
    + (* complete: it is retired and the next unit is selected *)
      assert (Hcomp : unitComplete (markEvaluated u) = true)
        by (unfold unitComplete; simpl; by rewrite Hpend).
      rewrite (process_retires s' a (markEvaluated u) c);
        try done; [|by rewrite Hq'].
      destruct (work_retired s' d rest a us (markEvaluated u) c Hq' Hus Hu')
        as (Hwr & Hpr & Hner).
      destruct (select_round (retired (markEvaluated u) c s'))
        as (s1 & -> & Hco1 & Hw1 & Hcase); [|done|].
      { split; [by eapply Settled_retired|]. split; [done|].
        split; [by apply Hner|]. split; [by apply Hpr, Hp'|done]. }
      exists s1. split; [done|]. split; [done|]. right.
      assert (cost u >= 2) by (unfold cost; lia).
      unfold credit at 1. rewrite Hx.
      destruct Hcase as [[_ ->]|Hcr]; [|rewrite Hcr]; simpl; lia.
    + (* not complete: its next range is submitted *)
      assert (Hcomp : unitComplete (markEvaluated u) = false)
        by (unfold unitComplete; simpl; by rewrite Hpend).
      rewrite (process_continues s' a (markEvaluated u));
        try done; [|by rewrite Hq'].
      destruct (popExecRange_shrinks (markEvaluated u) (mkExecRange 0 0))
        as (Ho & Hcle & Hcd).
      specialize (Hcd ltac:(simpl; by rewrite Hpend)).
      destruct (work_update s' (submitted a (markEvaluated u) s')
                  d rest a us (markEvaluated u)
                  (popExecRange (markEvaluated u) (mkExecRange 0 0)).2)
        as [Hw1 Hp1]; try done.
      eexists. split; [done|]. split.
      * split; [by apply Settled_submitted|]. split.
        { unfold currentIsFirst. simpl. rewrite Hx'.
          exists d, rest, us. by rewrite Hq'. }
        split; [exact Hne'|]. split; [by apply Hp1, Hp'|done].
      * right. unfold credit. simpl. rewrite Hx, Hx'. lia.
  - (* no unit is current *)
    rewrite signalled_none by done.
    destruct (queue_ (this s)) as [|d rest] eqn:Hq.
    + rewrite process_empty by done. exists s. split; [done|].
      split; [done|by left].
    + rewrite process_idle by (try done; by rewrite Hq).
      destruct (select_round s Hco Hx) as (s1 & -> & Hco1 & Hw1 & Hcase).
      exists s1. split; [done|]. split; [done|]. right.
      destruct Hcase as [[Hq0 _]|Hcr]; [by rewrite Hq in Hq0|].
      unfold credit at 1. rewrite Hx, Hcr. lia.
Qed.

Lemma drain (n : nat) (s : State) :
  Cooperative s ->
  work s <= n + credit s ->
  exists s', run (rounds n) s = Some (tt, s') /\ queue_ (this s') = [].
Proof.
  revert s. induction n as [|n IH]; intros s Hco Hw.
  - exists s. split; [done|].
    destruct (queue_ (this s)) as [|d rest] eqn:Hq; [done|].
    destruct Hco as (Hset & _ & Hne & _).
    rewrite Hq in Hne. apply Forall_cons in Hne as [Hd _].
    destruct (head_unit s d rest) as (a & us & u & _ & _ & Hqu);
      [apply Hset|done|done|].
    unfold work in Hw. rewrite Hqu in Hw. cbn [sum_list_with] in Hw.
    unfold credit, cost in Hw. destruct (execUnit_ (this s)); lia.
  - destruct (round_step s Hco) as (s1 & Hr & Hco1 & Hcase).
    destruct (IH s1 Hco1) as (s' & Hrun & Hq').
    { destruct Hcase as [[Hq0 ->]|Hlt]; [|lia].
      unfold work, queuedUnits. rewrite Hq0. simpl. lia. }
    exists s'. split; [|done].
    change (rounds (S n)) with (round ++ rounds n).
    by rewrite run_app, Hr.
Qed.

(** The documents are added: every one of them is queued, whole. *)
Lemma adds_queued (docs : list DocData) (s : State) :
  Settled s ->
  execUnit_ (this s) = None ->
  Forall (fun d => units d <> []) (queue_ (this s)) ->
  Forall parsesFor (queuedUnits s) ->
  nonEmptyDocs docs -> parsableDocs docs ->
  exists s',
    run (map CallAdd docs) s = Some (tt, s') /\
    Settled s' /\
    execUnit_ (this s') = None /\
    Forall (fun d => units d <> []) (queue_ (this s')) /\
    Forall parsesFor (queuedUnits s') /\
    rBusy (session s') = rBusy (session s) /\
    work s' = work s + workOf docs.
Proof.
  intros Hset Hx Hne Hpar Hdocs. revert s Hset Hx Hne Hpar.
  induction Hdocs as [|d docs Hd _ IH]; intros s Hset Hx Hne Hpar Hp.
  { exists s. unfold workOf. simpl. repeat (split; [done|]). lia. }
  apply Forall_cons in Hp as [Hpd Hp].
  assert (Hqu : queuedUnits (added d s) = queuedUnits s ++ dataUnits d).
  { unfold queuedUnits, added. simpl. rewrite flat_map_app. simpl.
    rewrite app_nil_r, unitsOf_seq. f_equal.
    apply unitsIn_app_store. apply Hset. }
  destruct (IH (added d s)) as (s' & Hrun & Hset' & Hx' & Hne' & Hpar' & Hb' & Hw');
    try done.
  - by apply Settled_added.
  - simpl. apply Forall_app. split; [done|]. constructor; [|done].
    simpl. by destruct (dataUnits d).
  - rewrite Hqu. by apply Forall_app.
  - exists s'. split.
    { change (map CallAdd (d :: docs))
        with ([CallAdd d] ++ map CallAdd docs).
      by rewrite run_app. }
    repeat (split; [done|]).
    rewrite Hw'. unfold work, workOf. rewrite Hqu. simpl.
    rewrite !sum_list_with_app. lia.
Qed.

End Drain.

Lemma quiet_noMutation (cs : list Call) :
  forallb quiet cs = true ->
  forallb (fun c => negb (isMutation c)) cs = true.
Proof.
  induction cs as [|c cs IH]; [done|]. simpl.
  intros [Hc Hcs]%andb_prop. rewrite (IH Hcs).
  unfold quiet in Hc. by destruct (isMutation c).
Qed.

Lemma adds_noMutation (docs : list DocData) :
  forallb (fun c => negb (isMutation c)) (map CallAdd docs) = true.
Proof. induction docs; [done|]. simpl. done. Qed.

Lemma quiet_distinctSupply (cs : list Call) :
  forallb quiet cs = true -> distinctSupply cs.
Proof.
  induction cs as [|c cs IH]; [constructor|]. simpl.
  intros [Hc Hcs]%andb_prop. constructor; [|by apply IH].
  by destruct c.
Qed.

Lemma adds_distinctSupply (docs : list DocData) :
  distinctDocs docs -> distinctSupply (map CallAdd docs).
Proof. induction 1; by constructor. Qed.

Lemma rounds_quiet (n : nat) : forallb quiet (rounds n) = true.
Proof. induction n as [|n IH]; [done|]. simpl. exact IH. Qed.

Section SuppliedOrder.
Context `{Collaborators}.

(** C2: document queues are added to a queue just constructed, and then
    the prompt fires and the console signals, with no mutation request.
    (1) Whatever the prompts and signals are, the run does not fault and
    the chunks announced as started are some of the chunks supplied, in
    the order of supply: document after document in the order of
    addition, and within a document in the order of supply; when no
    document holds two units of one identity they are an initial part of
    the chunks supplied, so that no chunk starts before one supplied
    ahead of it.  (2) When in addition every document has a unit and the
    option text of every unit parses, and R is idle and the console
    signals and prompts in turn often enough, every chunk supplied is
    announced as started, in exactly the order of supply, and the queue
    ends empty. *)
Theorem chunks_start_in_supplied_order (clientId : string) (busy : bool)
    (docs : list DocData) :
  (forall cs, forallb quiet cs = true ->
     exists s,
       run (map CallAdd docs ++ cs) (initial clientId busy) = Some (tt, s) /\
       startedChunks (clientEvents (session s)) `sublist_of` supplied docs /\
       (distinctDocs docs ->
        startedChunks (clientEvents (session s)) `prefix_of` supplied docs)) /\
  (distinctDocs docs -> nonEmptyDocs docs -> parsableDocs docs ->
   forall n, workOf docs <= n ->
     exists s,
       run (map CallAdd docs ++ ConsoleBusy false :: rounds n)
         (initial clientId busy) = Some (tt, s) /\
       startedChunks (clientEvents (session s)) = supplied docs /\
       queue_ (this s) = []).
Proof.
  assert (Hm : forall cs, forallb quiet cs = true ->
             forallb (fun c => negb (isMutation c)) (map CallAdd docs ++ cs)
             = true).
  { intros cs Hq. rewrite forallb_app, adds_noMutation. simpl.
    by apply quiet_noMutation. }
  assert (Hsup : forall cs, forallb quiet cs = true ->
             suppliedBy (map CallAdd docs ++ cs) = supplied docs).
  { intros cs Hq.
    by rewrite suppliedBy_app, suppliedBy_adds, (suppliedBy_quiet cs Hq),
      app_nil_r. }
  assert (Hord : forall cs, forallb quiet cs = true -> distinctDocs docs ->
             forall s,
               run (map CallAdd docs ++ cs) (initial clientId busy)
               = Some (tt, s) ->
               Ordered (supplied docs) s).
  { intros cs Hq Hnd s Hrun.
    destruct (run_ordered (map CallAdd docs ++ cs) []
                (initial clientId busy))
      as (s' & Hrun' & _ & Ho).
    - apply Invariant_initial.
    - apply Ordered_initial.
    - by apply Hm.
    - apply Forall_app. split;
        [by apply adds_distinctSupply|by apply quiet_distinctSupply].
    - rewrite (Hsup cs Hq) in Ho. simpl in Ho. congruence. }
  split.
  - intros cs Hq.
    destruct (run_inorder (map CallAdd docs ++ cs) []
                (initial clientId busy))
      as (s & Hrun & _ & _ & Hsub).
    + apply Invariant_initial.
    + split; [done|]. simpl. done.
    + by apply Hm.
    + rewrite (Hsup cs Hq) in Hsub. simpl in Hsub.
      exists s. split; [done|]. split.
      * transitivity (startedChunks (clientEvents (session s)) ++ waiting s);
          [by apply sublist_inserts_r|exact Hsub].
      * intros Hnd. destruct (Hord cs Hq Hnd s Hrun) as (_ & _ & <-).
        by apply prefix_app_r.
  - intros Hnd Hne Hpar n Hn.
    destruct (adds_queued docs (initial clientId busy))
      as (s0 & Hrun0 & Hset0 & Hx0 & Hne0 & Hpar0 & Hb0 & Hw0).
    { by apply Settled_fresh. }
    { done. }
    { apply Forall_nil_2. }
    { apply Forall_nil_2. }
    { done. }
    { done. }
    set (s1 := withSession (setBusy false) s0).
    destruct (drain n s1) as (s & Hrun & Hqs).
    { split; [by apply Settled_busy|]. split.
      { unfold currentIsFirst. simpl. by rewrite Hx0. }
      split; [done|]. split; [done|done]. }
    { unfold credit. simpl. rewrite Hx0.
      change (work s1) with (work s0). rewrite Hw0.
      change (work (initial clientId busy)) with 0. lia. }
    assert (Hall : run (map CallAdd docs ++ ConsoleBusy false :: rounds n)
                     (initial clientId busy) = Some (tt, s)).
    { rewrite run_app, Hrun0.
      change (ConsoleBusy false :: rounds n)
        with ([ConsoleBusy false] ++ rounds n).
      by rewrite run_app. }
    exists s. split; [done|]. split; [|done].
    destruct (Hord (ConsoleBusy false :: rounds n)) with (s := s)
      as (_ & _ & <-); try done.
    { simpl. apply rounds_quiet. }
    unfold waiting, queuedIdents. rewrite Hqs. simpl.
    destruct (execUnit_ (this s)); simpl; by rewrite app_nil_r.
Qed.

End SuppliedOrder.

(** ** The theorems at the sample documents *)

Module Scenario.
Import Sample.

#[local] Existing Instance collaborators.

(** C8 at document A queued while R is evaluating. *)
Lemma process_noop_when_empty_or_busy_witness :
  let s := withSession (setBusy true) (reach [CallAdd docA]) in
  (queue_ (this s) = [] \/ rBusy (session s) = true) /\
  process s = Some (Success, s) /\
  emitted s s = [] /\
  forall n, repeatProcess n s = Some (replicate n Success, s).
Proof.
  intros s.
  assert (Hs : queue_ (this s) = [] \/ rBusy (session s) = true)
    by (right; reflexivity).
  split; [exact Hs|].
  exact (process_noop_when_empty_or_busy s Hs).
Defined.

(** C7 at a unit of document B while only document A is queued. *)
Lemma update_unknown_document_witness :
  let s := reach runningA1 in
  Forall (fun d => docQueueId d <> docId b1) (queue_ (this s)) /\
  update b1 QueueDelete "" s = Some (Success, s).
Proof.
  intros s.
  assert (Hs : Forall (fun d => docQueueId d <> docId b1) (queue_ (this s)))
    by (repeat constructor; vm_compute; discriminate).
  split; [exact Hs|].
  exact (update_unknown_document s b1 QueueDelete "" Hs).
Defined.

(** C9 at a delete request received with no queue in existence. *)
Lemma updateExecQueue_without_queue_witness :
  updateExecQueue deleteRequest noQueue = Some (Success, noQueue).
Proof.
  apply (updateExecQueue_without_queue deleteRequest noQueue
           [("doc_id", JStr "A"); ("chunk_id", JStr "a1")] 2 "" namesA1);
    reflexivity.
Defined.

(** C10 at a request whose document object has no fields. *)
Lemma executeNotebookChunks_conversion_error_witness :
  executeNotebookChunks malformedDocRequest noQueue =
    Some (Failure "invalid document", noQueue).
Proof.
  apply (executeNotebookChunks_conversion_error malformedDocRequest noQueue
           "invalid document").
  reflexivity.
Defined.

(** C3 at the step that retires b1. *)
Lemma finished_only_when_complete_witness :
  let s := reach finishedB1 in
  let s' := reach (finishedB1 ++ [CallProcess]) in
  process s = Some (Success, s') /\
  isFinished "B" "b1" ∈ emitted s s' /\
  exists a u,
    execUnit_ (this s) = Some a /\
    heap (session s) !! a = Some u /\
    docId u = "B" /\ chunkId u = "b1" /\
    unitComplete u = true /\
    pending u = [] /\ evaluated u = true.
Proof.
  intros s s'.
  assert (Hp : process s = Some (Success, s')) by (vm_compute; reflexivity).
  assert (Hin : isFinished "B" "b1" ∈ emitted s s')
    by (vm_compute; constructor).
  split; [exact Hp|]. split; [exact Hin|].
  exact (finished_only_when_complete s Success s' "B" "b1" Hp Hin).
Defined.

(** C5 at the selection of a1, the first unit of document A. *)
Lemma selection_reads_first_queue_only_witness :
  let s := reach [CallAdd docA] in
  queue_ (this s) = [mkDocQueue "A" 640 80 [0; 1]] /\
  exists s',
    executeNextUnit s = Some (Success, s') /\
    execUnit_ (this s') = Some 0 /\
    emitted s s' =
      [isStarted "A" "a1";
       NotebookRangeExecuted "A" "a1" (mkExecRange 0 6)].
Proof.
  intros s.
  assert (Hq : queue_ (this s) = [mkDocQueue "A" 640 80 [0; 1]])
    by reflexivity.
  split; [exact Hq|].
  assert (Hp : parseOptions a1 = inr [("raw", JStr "")]) by reflexivity.
  destruct (proj2 (selection_reads_first_queue_only s _ _ Hq)
              0 [1] a1 [("raw", JStr "")] eq_refl eq_refl Hp)
    as (s' & Hx & Hu & _ & Hev & _).
  exists s'. split; [exact Hx|]. split; [exact Hu|]. exact Hev.
Defined.

(** C6 at document C, whose only chunk has unparsable options, queued
    before document B. *)
Lemma option_parse_error_stalls_witness :
  let s := reach [CallAdd docC; CallAdd docB] in
  executeNextUnit s = Some (Failure "unparsable chunk options", s) /\
  repeatProcess 3 s =
    Some (replicate 3 (Failure "unparsable chunk options"), s).
Proof.
  intros s.
  assert (Hp : parseOptions bad = inl "unparsable chunk options")
    by reflexivity.
  destruct (option_parse_error_stalls s (mkDocQueue "C" 640 80 [0])
              [mkDocQueue "B" 640 80 [1]] 0 [] bad
              "unparsable chunk options" eq_refl eq_refl eq_refl Hp)
    as [Hx Hstall].
  split; [exact Hx|].
  destruct (Hstall eq_refl) as [Hrep _]. exact (Hrep eq_refl 3).
Defined.

Lemma reach_invariant (cs : list Call) : Invariant (reach cs).
Proof.
  unfold reach.
  destruct (run_invariant cs start (Invariant_initial _ _))
    as (s' & -> & Hinv).
  exact Hinv.
Qed.

(** C1 at the deletion of a1 while it is the current unit with one range
    left: a1 leaves document A, stays in the slot, and along every run of
    prompts and console signals it is current until chunk-finished has
    been emitted for it. *)
Lemma delete_leaves_current_unit_running_witness :
  let s := reach runningA1 in
  exists s',
    update namesA1 QueueDelete "" s = Some (Success, s') /\
    queue_ (this s) = [mkDocQueue "A" 640 80 [0; 1]] /\
    queue_ (this s') = [mkDocQueue "A" 640 80 [1]] /\
    execUnit_ (this s') = Some 0 /\
    emitted s s' = [] /\
    forall cs, forallb quiet cs = true ->
      exists t, run cs s' = Some (tt, t) /\
        (execUnit_ (this t) = Some 0 \/
         isFinished "A" "a1" ∈ emitted s' t).
Proof.
  intros s.
  assert (Hq : queue_ (this s) = [] ++ mkDocQueue "A" 640 80 [0; 1] :: [])
    by reflexivity.
  assert (Hl : Forall (fun x : NotebookDocQueue =>
                         docQueueId x <> docId namesA1) [])
    by constructor.
  assert (Hin : 0 ∈ units (mkDocQueue "A" 640 80 [0; 1]))
    by (simpl; apply elem_of_cons; left; reflexivity).
  assert (Hu : heap (session s) !! 0 =
               Some (mkUnit "A" "a1" "x <- 1; y <- 2" ""
                       [mkExecRange 8 6] false))
    by reflexivity.
  assert (Hc : execContext_ (this s) =
               Some (mkContext "A" "a1" "ctx" ExecScopeChunk
                       [("raw", JStr "")] 640 80 true))
    by reflexivity.
  destruct (delete_leaves_current_unit_running s namesA1 "" []
              (mkDocQueue "A" 640 80 [0; 1]) [] 0 _ _
              (reach_invariant runningA1) Hq Hl eq_refl Hin eq_refl Hu Hc
              eq_refl)
    as (s' & Hupd & Hq' & _ & Hx & _ & _ & _ & He & Hrun).
  exists s'. split; [exact Hupd|]. split; [reflexivity|].
  split; [exact Hq'|]. split; [exact Hx|]. split; [exact He|].
  intros cs Hcs. destruct (Hrun cs Hcs) as (t & Hr & [(Hxt & _)|Hfin]).
  - exists t. split; [exact Hr|]. left. exact Hxt.
  - exists t. split; [exact Hr|]. right. exact Hfin.
Defined.

(** C2 at documents A and B: along every run of prompts and signals the
    chunks started are an initial part of a1, a2, b1; after the console
    has been let free and ten rounds of signal and prompt, all three have
    started, in that order, and the queue is empty. *)
Lemma chunks_start_in_supplied_order_witness :
  (forall cs, forallb quiet cs = true ->
     exists s,
       run (map CallAdd [docA; docB] ++ cs) (initial "client" true)
       = Some (tt, s) /\
       startedChunks (clientEvents (session s)) `prefix_of`
         [("A", "a1"); ("A", "a2"); ("B", "b1")]) /\
  exists s,
    run (map CallAdd [docA; docB] ++ ConsoleBusy false :: rounds 10)
      (initial "client" true) = Some (tt, s) /\
    startedChunks (clientEvents (session s)) =
      [("A", "a1"); ("A", "a2"); ("B", "b1")] /\
    queue_ (this s) = [].
Proof.
  assert (Hnd : distinctDocs [docA; docB]).
  { repeat constructor; vm_compute; intros Hin;
      repeat (apply elem_of_cons in Hin as [Hin|Hin]; [discriminate|]);
      by apply elem_of_nil in Hin. }
  assert (Hne : nonEmptyDocs [docA; docB])
    by (repeat constructor; discriminate).
  assert (Hpar : parsableDocs [docA; docB]).
  { repeat constructor; intros u Hu; simpl in Hu;
      exists [("raw", JStr "")]; simpl; unfold sampleParseOptions;
      rewrite Hu; reflexivity. }
  assert (Hw : workOf [docA; docB] <= 10) by (vm_compute; lia).
  destruct (chunks_start_in_supplied_order "client" true [docA; docB])
    as [Hsafe Hlive].
  split.
  - intros cs Hcs. destruct (Hsafe cs Hcs) as (s & Hr & _ & Hp).
    exists s. split; [exact Hr|]. exact (Hp Hnd).
  - exact (Hlive Hnd Hne Hpar 10 Hw).
Defined.


(** The spec's scenario: document A (a1, a2), then document B (b1). *)
Example events_of_two_documents :
  clientEvents (session (reach
    (map CallAdd [docA; docB] ++
       [CallProcess; CallProcess; ConsoleEvalFinished; CallProcess;
        ConsoleEvalFinished; CallProcess; ConsoleEvalFinished; CallProcess]))) =
  [isStarted "A" "a1";
   NotebookRangeExecuted "A" "a1" (mkExecRange 0 6);
   NotebookRangeExecuted "A" "a1" (mkExecRange 8 6);
   isFinished "A" "a1";
   isStarted "A" "a2";
   NotebookRangeExecuted "A" "a2" (mkExecRange 0 1);
   isFinished "A" "a2";
   isStarted "B" "b1";
   NotebookRangeExecuted "B" "b1" (mkExecRange 0 1);
   isFinished "B" "b1"].
Proof. vm_compute. reflexivity. Qed.

(** Against C1 as stated: chunk a1 of document A is the current unit with
    one range left when an update deletes it.  The unit leaves its
    document queue, yet the next [process] submits its second range with
    the execution context still connected, and once the console has
    finished, [process] emits chunk-finished for it. *)
Lemma deleted_current_unit_keeps_running :
  let deleted := runningA1 ++ [CallUpdate namesA1 QueueDelete ""] in
  let s1 := reach runningA1 in
  let s2 := reach deleted in
  let s3 := reach (deleted ++ [CallProcess]) in
  let s4 := reach (deleted ++ [CallProcess; ConsoleEvalFinished]) in
  let s5 :=
    reach (deleted ++ [CallProcess; ConsoleEvalFinished; CallProcess]) in
  executing s1 = [("A", "a1")] /\
  update namesA1 QueueDelete "" s1 = Some (Success, s2) /\
  map units (queue_ (this s2)) = [[1]] /\
  process s2 = Some (Success, s3) /\
  emitted s2 s3 = [NotebookRangeExecuted "A" "a1" (mkExecRange 8 6)] /\
  input_ (this s3) =
    input_ (this s2) ++
      [mkConsoleInput "console_input" ("y <- 2", "a1") "client"] /\
  connected <$> execContext_ (this s3) = Some true /\
  consoleEvalFinished s3 = Some (tt, s4) /\
  process s4 = Some (Success, s5) /\
  emitted s4 s5 =
    [isFinished "A" "a1"; isStarted "A" "a2";
     NotebookRangeExecuted "A" "a2" (mkExecRange 0 1)].
Proof. repeat split; vm_compute; reflexivity. Qed.

(** Against C5 as stated: the global queue holds a complete document queue
    followed by document B, whose first unit b1 has options that parse; no
    unit is current and R is idle.  Selection does not reach b1: both
    [executeNextUnit] and [process] return success and leave the state as
    it was. *)
Lemma complete_first_queue_is_not_skipped :
  let s := reach emptyFirst in
  map units (queue_ (this s)) = [[]; [0]] /\
  execUnit_ (this s) = None /\
  rBusy (session s) = false /\
  firstNonComplete (queue_ (this s)) ≫= firstUnit = Some 0 /\
  heap (session s) !! 0 = Some b1 /\
  parseOptions b1 = inr [("raw", JStr "")] /\
  executeNextUnit s = Some (Success, s) /\
  process s = Some (Success, s).
Proof. repeat split; vm_compute; reflexivity. Qed.

End Scenario.

(** ** The further theorems at sample states *)

Module More.
Import Sample SampleWorld.

(** X1 at the deletion of a1 while it is the current unit: a1 stays in
    the slot and in the store, with the range it has left. *)
Lemma update_edits_units_only_witness :
  let s := reach runningA1 in
  exists s',
    update namesA1 QueueDelete "" s = Some (Success, s') /\
    execUnit_ (this s') = Some 0 /\
    heap (session s') !! 0 =
      Some (mkUnit "A" "a1" "x <- 1; y <- 2" "" [mkExecRange 8 6] false).
Proof.
  intros s.
  destruct (update_edits_units_only s namesA1 QueueDelete "")
    as (s' & Hu & Hx & _ & _ & _ & _ & _ & _ & _ & Hk).
  exists s'. split; [exact Hu|]. split; [rewrite Hx; reflexivity|].
  apply Hk; [discriminate|reflexivity].
Defined.

(** X2 at two document queues of id A: only the first loses a1. *)
Lemma update_edits_first_match_only_witness :
  let s := reach [CallAdd docA; CallAdd docA] in
  exists s',
    update namesA1 QueueDelete "" s = Some (Success, s') /\
    map units (queue_ (this s')) = [[1]; [2; 3]].
Proof.
  intros s.
  destruct (update_edits_first_match_only s namesA1 QueueDelete "" []
              (mkDocQueue "A" 640 80 [0; 1]) [mkDocQueue "A" 640 80 [2; 3]]
              eq_refl ltac:(constructor) eq_refl) as (s' & Hu & Hq & _).
  exists s'. split; [exact Hu|]. rewrite Hq. reflexivity.
Defined.

Section WithSample.
#[local] Existing Instance SampleWorld.collaborators.

(** X3 at a request without a unit, received while a1 is current. *)
Lemma updateExecQueue_unreadable_witness :
  let w := world_after [RpcExecuteNotebookChunks requestA] in
  updateExecQueue unreadableUpdate w = Some (Failure "invalid params", w) /\
  updateExecQueue unconvertibleUpdate w = Some (Failure "invalid unit", w).
Proof.
  intros w. split.
  - apply (updateExecQueue_unreadable unreadableUpdate w "invalid params").
    left. reflexivity.
  - apply (updateExecQueue_unreadable unconvertibleUpdate w "invalid unit").
    right. exists [], 2%Z, "". split; reflexivity.
Defined.

(** X4 at the deletion of a1 while it is the current unit: the request
    is [update] on the queue, a1 leaves document A and stays in the
    slot. *)
Lemma updateExecQueue_readable_witness :
  let w := world_after [RpcExecuteNotebookChunks requestA] in
  exists q w',
    s_queue w = Some q /\
    map units (queue_ q) = [[0]] /\
    updateExecQueue deleteA1 w = Some (Success, w') /\
    w' = leave (updated namesA1 QueueDelete "" (enter q w)) /\
    map units ∘ queue_ <$> s_queue w' = Some [[]] /\
    execUnit_ <$> s_queue w' = Some (Some 0).
Proof.
  intros w.
  assert (Hr : readUpdateParams (params deleteA1) =
               inr ([("doc_id", JStr "A"); ("chunk_id", JStr "a1")], 2%Z, ""))
    by reflexivity.
  assert (Hu : unitFromJson [("doc_id", JStr "A"); ("chunk_id", JStr "a1")] =
               inr namesA1) by reflexivity.
  assert (Ho : queueOperationOfInt 2 = Some QueueDelete) by reflexivity.
  pose (q := default (mkQueue "" [] None None []) (s_queue w)).
  assert (Hq : s_queue w = Some q) by reflexivity.
  destruct (updateExecQueue_readable deleteA1 w _ _ _ _ _ Hr Hu Ho)
    as (w' & Hx & _ & Hw' & _).
  exists q, w'. split; [exact Hq|]. split; [reflexivity|].
  split; [exact Hx|]. split; [exact (Hw' q Hq)|].
  rewrite (Hw' q Hq). split; vm_compute; reflexivity.
Defined.

(** X5 at a document whose only chunk has unparsable options. *)
Lemma executeNotebookChunks_drops_process_error_witness :
  let d := mkDocData "C" 640 80
             [mkUnit "C" "c1" "v" "{" [mkExecRange 0 1] false] in
  let s := added d (mkState (mkQueue "first" [] None None [])
                      (mkSession [] false [])) in
  process s = Some (Failure "unparsable chunk options", s) /\
  executeNotebookChunks requestBad (boot false) = Some (Success, leave s).
Proof.
  intros d s.
  assert (Hd : docFromJson (readDocParams (params requestBad)).2 = inr d)
    by reflexivity.
  assert (Hp : process (added d (mkState (queueFor requestBad (boot false))
                                   (world (boot false)))) =
               Some (Failure "unparsable chunk options", s))
    by (vm_compute; reflexivity).
  split; [exact Hp|].
  exact (executeNotebookChunks_drops_process_error requestBad (boot false)
           d _ s Hd Hp).
Defined.

(** X6 at the first request, received while R is evaluating. *)
Lemma executeNotebookChunks_while_busy_witness :
  exists q,
    executeNotebookChunks requestA (boot true) =
      Some (Success,
            mkWorld (Some q)
              (mkSession [mkUnit "A" "a1" "x" "" [mkExecRange 0 1] false]
                 true [])) /\
    queue_ q = [mkDocQueue "A" 640 80 [0]] /\
    execUnit_ q = None.
Proof.
  assert (Hd : docFromJson (readDocParams (params requestA)).2 =
               inr (mkDocData "A" 640 80
                      [mkUnit "A" "a1" "x" "" [mkExecRange 0 1] false]))
    by reflexivity.
  destruct (executeNotebookChunks_while_busy requestA (boot true) _ Hd eq_refl)
    as (q & Hx & Hq & Hu & _).
  exists q. split; [exact Hx|]. split; [exact Hq|exact Hu].
Defined.

(** X17 at a second request, from another client, while a1 is current. *)
Lemma executeNotebookChunks_keeps_client_id_witness :
  let w := world_after [RpcExecuteNotebookChunks requestA] in
  let w' := world_after [RpcExecuteNotebookChunks requestA;
                         RpcExecuteNotebookChunks requestB] in
  executeNotebookChunks requestB w = Some (Success, w') /\
  exists q', s_queue w' = Some q' /\ clientId_ q' = "first".
Proof.
  intros w w'.
  assert (Hd : docFromJson (readDocParams (params requestB)).2 =
               inr (mkDocData "B" 640 80
                      [mkUnit "B" "b1" "y" "" [mkExecRange 0 1] false]))
    by reflexivity.
  assert (Hx : executeNotebookChunks requestB w = Some (Success, w'))
    by (vm_compute; reflexivity).
  split; [exact Hx|].
  exact (executeNotebookChunks_keeps_client_id requestB w _ _ w' Hd Hx).
Defined.

(** X18 at the prompt after the console has finished a1, the only chunk. *)
Lemma onConsolePrompt_ends_the_queue_witness :
  let w := world_after [RpcExecuteNotebookChunks requestA; REvalFinished] in
  onConsolePrompt ">" w =
    Some (mkWorld None (pushEvent (isFinished "A" "a1") (world w))).
Proof.
  intros w.
  exact (onConsolePrompt_ends_the_queue ">" w
           (mkQueue "first" [mkDocQueue "A" 640 80 [0]] (Some 0)
              (Some (mkContext "A" "a1" "ctx" ExecScopeChunk
                       [("raw", JStr "")] 640 80 true))
              [mkConsoleInput "console_input" ("x", "a1") "first"])
           (mkDocQueue "A" 640 80 [0]) 0
           (mkUnit "A" "a1" "x" "" [] true)
           (mkContext "A" "a1" "ctx" ExecScopeChunk [("raw", JStr "")]
              640 80 true)
           eq_refl eq_refl eq_refl eq_refl eq_refl eq_refl eq_refl eq_refl).
Defined.

(** X19 at a second request received before the console has finished a1. *)
Lemma executeNotebookChunks_submits_for_current_unit_witness :
  let w := world_after [RpcExecuteNotebookChunks requestA] in
  let w' := world_after [RpcExecuteNotebookChunks requestA;
                         RpcExecuteNotebookChunks requestB] in
  executeNotebookChunks requestB w = Some (Success, w') /\
  clientEvents (world w') =
    clientEvents (world w) ++
      [NotebookRangeExecuted "A" "a1" (mkExecRange 0 0)].
Proof.
  intros w w'.
  assert (Hd : docFromJson (readDocParams (params requestB)).2 =
               inr (mkDocData "B" 640 80
                      [mkUnit "B" "b1" "y" "" [mkExecRange 0 1] false]))
    by reflexivity.
  split; [|vm_compute; reflexivity].
  rewrite (executeNotebookChunks_submits_for_current_unit requestB w _
             (mkQueue "first" [mkDocQueue "A" 640 80 [0]] (Some 0)
                (Some (mkContext "A" "a1" "ctx" ExecScopeChunk
                         [("raw", JStr "")] 640 80 true))
                [mkConsoleInput "console_input" ("x", "a1") "first"])
             0 (mkUnit "A" "a1" "x" "" [] false)
             Hd eq_refl eq_refl eq_refl eq_refl eq_refl).
  vm_compute. reflexivity.
Defined.

End WithSample.

Section WithFirstSample.
#[local] Existing Instance Sample.collaborators.

(** X7 at document C, whose only chunk has unparsable options. *)
Lemma process_fails_on_options_only_witness :
  let s := reach [CallAdd docC] in
  process s = Some (Failure "unparsable chunk options", s) /\
  execUnit_ (this s) = None.
Proof.
  intros s.
  assert (Hp : process s = Some (Failure "unparsable chunk options", s))
    by (vm_compute; reflexivity).
  split; [exact Hp|].
  exact (proj1 (proj2 (process_fails_on_options_only s _ s Hp))).
Defined.

(** X8 at the step that retires a1 and starts a2. *)
Lemma process_emits_one_of_five_witness :
  let s := reach (runningA1 ++ [CallProcess; ConsoleEvalFinished]) in
  let s' := reach (runningA1 ++
                     [CallProcess; ConsoleEvalFinished; CallProcess]) in
  process s = Some (Success, s') /\
  emitted s s' =
    [isFinished "A" "a1"; isStarted "A" "a2";
     NotebookRangeExecuted "A" "a2" (mkExecRange 0 1)] /\
  (emitted s s' = [] \/
   (exists d c r, emitted s s' = [NotebookRangeExecuted d c r]) \/
   (exists d c, emitted s s' = [isFinished d c]) \/
   (exists d c r,
      emitted s s' = [isStarted d c; NotebookRangeExecuted d c r]) \/
   (exists d c d' c' r,
      emitted s s' =
        [isFinished d c; isStarted d' c'; NotebookRangeExecuted d' c' r])).
Proof.
  intros s s'.
  assert (Hp : process s = Some (Success, s')) by (vm_compute; reflexivity).
  split; [exact Hp|]. split; [vm_compute; reflexivity|].
  exact (process_emits_one_of_five s Success s' Hp).
Defined.

(** X9 at the step that retires b1 and drops document B. *)
Lemma process_drops_first_queue_only_witness :
  let s := reach (CallAdd docB :: CallAdd docA ::
                    [CallProcess; ConsoleEvalFinished]) in
  let s' := reach (CallAdd docB :: CallAdd docA ::
                     [CallProcess; ConsoleEvalFinished; CallProcess]) in
  process s = Some (Success, s') /\
  map docQueueId (queue_ (this s)) = ["B"; "A"] /\
  map docQueueId (queue_ (this s')) = ["A"] /\
  clientId_ (this s') = clientId_ (this s).
Proof.
  intros s s'.
  assert (Hp : process s = Some (Success, s')) by (vm_compute; reflexivity).
  split; [exact Hp|]. split; [reflexivity|]. split; [reflexivity|].
  exact (proj1 (process_drops_first_queue_only s Success s' Hp)).
Defined.

(** X10 at a document without chunks queued before document B. *)
Lemma complete_front_queue_blocks_witness :
  let s := reach emptyFirst in
  process s = Some (Success, s) /\
  exists s' rest',
    run [CallProcess; CallAdd docA; ConsoleEvalFinished; CallProcess] s =
      Some (tt, s') /\
    queue_ (this s') = mkDocQueue "E" 640 80 [] :: rest' /\
    execUnit_ (this s') = None /\
    input_ (this s') = input_ (this s) /\
    clientEvents (session s') = clientEvents (session s).
Proof.
  intros s.
  destruct (complete_front_queue_blocks s (mkDocQueue "E" 640 80 [])
              [mkDocQueue "B" 640 80 [0]] eq_refl eq_refl eq_refl)
    as [Hp Hrun].
  split; [exact Hp|].
  exact (Hrun [CallProcess; CallAdd docA; ConsoleEvalFinished; CallProcess]
           eq_refl).
Defined.

(** X16 at the step that starts a1. *)
Lemma logs_only_grow_witness :
  let s := reach [CallAdd docA] in
  let s' := reach runningA1 in
  run [CallProcess] s = Some (tt, s') /\
  clientEvents (session s) `prefix_of` clientEvents (session s') /\
  input_ (this s) `prefix_of` input_ (this s').
Proof.
  intros s s'.
  assert (Hr : run [CallProcess] s = Some (tt, s'))
    by (vm_compute; reflexivity).
  split; [exact Hr|].
  exact (logs_only_grow [CallProcess] s s' Hr).
Defined.

End WithFirstSample.

(** The spec's scenario through the entry points: two requests, then the
    console finishes and prompts twice; the queue is gone at the end. *)
Example session_of_two_requests :
  let w := world_after
             [RpcExecuteNotebookChunks requestA; REvalFinished;
              RpcExecuteNotebookChunks requestB; REvalFinished;
              PromptEvent ">"; REvalFinished; PromptEvent ">"] in
  s_queue w = None /\
  clientEvents (world w) =
    [isStarted "A" "a1";
     NotebookRangeExecuted "A" "a1" (mkExecRange 0 1);
     isFinished "A" "a1";
     isStarted "B" "b1";
     NotebookRangeExecuted "B" "b1" (mkExecRange 0 1);
     isFinished "B" "b1"].
Proof. split; vm_compute; reflexivity. Qed.

End More.
